(** * The fluent CSS selector builder ([cssSelectorBuilder] / [class Selector])

    A shallow embedding of the JavaScript builder and a verification of its
    documented behaviour.

    JavaScript objects and arrays are mutable and handled by reference: a
    [Selector] instance lives in a heap, its three fragment arrays live in the
    heap as well, and [Object.assign] copies references, not contents.  The
    embedding therefore keeps an explicit store ([heap]) and every method is a
    function from a store to a completion (normal return or thrown [Error])
    and a new store.  Mutations made before a [throw] persist, exactly as in
    JavaScript. *)

From Stdlib Require Import ZArith String Ascii List Bool Lia.
From stdpp Require Import base list.
From Stdlib Require Import Sorted.
From Stdlib Require Import DecimalString.
From Stdlib Require Import QArith.

Local Open Scope string_scope.
Local Open Scope list_scope.
Local Open Scope Z_scope.

(** ** JavaScript values used by the builder *)

(** String concatenation, the JavaScript [+] on strings (left associative). *)
Notation "s +^ t" := (String.append s t) (at level 50, left associativity).

(** A field that holds either [null] or a string. *)
Definition jsval := option string.

Definition null : jsval := None.

(** JavaScript truthiness of such a field: [null] and the empty string are
    falsy, every other string is truthy. *)
Definition truthy (v : jsval) : bool :=
  match v with
  | None => false
  | Some EmptyString => false
  | Some (String _ _) => true
  end.

(** The string held by a field (only read where the field is truthy). *)
Definition str (v : jsval) : string :=
  match v with
  | Some s => s
  | None => ""
  end.

(** [Array.prototype.indexOf] on an array of strings: the first index holding
    the searched string, [-1] when there is none. *)
Fixpoint indexOf_from (i : Z) (l : list string) (x : string) : Z :=
  match l with
  | [] => -1
  | y :: l' => if String.eqb y x then i else indexOf_from (i + 1) l' x
  end.

Definition indexOf (l : list string) (x : string) : Z := indexOf_from 0 l x.

(** [Array.prototype.forEach] with a callback that updates a local
    accumulator: the elements are visited in index order. *)
Definition forEach {A B : Type} (l : list A) (f : B -> A -> B) (acc : B) : B :=
  fold_left f l acc.

(** The value thrown by [throw new Error(message)]. *)
Record JsError := Error { message : string }.

(** The two messages of the source. *)
Definition ORDER_MESSAGE : string :=
  "Selector parts should be arranged in the following order: element, id, class, attribute, pseudo-class, pseudo-element".

Definition DUPLICATE_MESSAGE : string :=
  "Element, id and pseudo-element should not occur more then one time inside the selector".

(** The error kinds of the specification are the [Error]s carrying these
    messages. *)
Definition OrderViolationError : JsError := Error ORDER_MESSAGE.
Definition DuplicateFragmentError : JsError := Error DUPLICATE_MESSAGE.

(** ** The store *)

(** References to [Selector] objects and to arrays of strings. *)
Definition oref := nat.
Definition aref := nat.

(** The own properties of a [Selector] instance, as the constructor creates
    them.  [classes], [attributes] and [pseudoClasses] hold references to
    arrays; [selectors] is an array too, but no code ever writes to it, so it
    is kept as its (immutable) contents. *)
Record Selector := mkSelector {
  index_of_selector : Z;
  element_val : jsval;
  id_val : jsval;
  classes : aref;
  attributes : aref;
  pseudoClasses : aref;
  pseudoElement_val : jsval;
  selectors : list string;
  combinator : jsval;
  selector2 : option oref
}.

(** The literal assigned to [this.selectors] by the constructor. *)
Definition SELECTORS : list string :=
  ["element"; "id"; "class"; "attr"; "pseudoClass"; "pseudoElement"; "combine"]%string.

(** The heap: objects and arrays, addressed by their allocation index. *)
Record heap := mkHeap {
  objs : list Selector;
  arrs : list (list string)
}.

Definition empty_heap : heap := mkHeap [] [].

(** Dereferencing.  A JavaScript reference always points to a live object, so
    the default of the total lookup is never observed on a well-formed heap
    (see [heap_wf]). *)
#[global] Instance Selector_inhabited : Inhabited Selector :=
  populate (mkSelector 0 null null 0%nat 0%nat 0%nat null SELECTORS null None).

Definition deref (h : heap) (r : oref) : Selector := objs h !!! r.
Definition array (h : heap) (r : aref) : list string := arrs h !!! r.

Definition store (r : oref) (s : Selector) (h : heap) : heap :=
  mkHeap (<[r := s]> (objs h)) (arrs h).

Definition store_array (r : aref) (a : list string) (h : heap) : heap :=
  mkHeap (objs h) (<[r := a]> (arrs h)).

(** Field assignments [this.f = v]. *)
Definition set_index_of_selector (v : Z) (s : Selector) : Selector :=
  mkSelector v (element_val s) (id_val s) (classes s) (attributes s)
    (pseudoClasses s) (pseudoElement_val s) (selectors s) (combinator s)
    (selector2 s).

Definition set_element_val (v : jsval) (s : Selector) : Selector :=
  mkSelector (index_of_selector s) v (id_val s) (classes s) (attributes s)
    (pseudoClasses s) (pseudoElement_val s) (selectors s) (combinator s)
    (selector2 s).

Definition set_id_val (v : jsval) (s : Selector) : Selector :=
  mkSelector (index_of_selector s) (element_val s) v (classes s) (attributes s)
    (pseudoClasses s) (pseudoElement_val s) (selectors s) (combinator s)
    (selector2 s).

Definition set_pseudoElement_val (v : jsval) (s : Selector) : Selector :=
  mkSelector (index_of_selector s) (element_val s) (id_val s) (classes s)
    (attributes s) (pseudoClasses s) v (selectors s) (combinator s)
    (selector2 s).

Definition set_combinator (v : jsval) (s : Selector) : Selector :=
  mkSelector (index_of_selector s) (element_val s) (id_val s) (classes s)
    (attributes s) (pseudoClasses s) (pseudoElement_val s) (selectors s) v
    (selector2 s).

Definition set_selector2 (v : option oref) (s : Selector) : Selector :=
  mkSelector (index_of_selector s) (element_val s) (id_val s) (classes s)
    (attributes s) (pseudoClasses s) (pseudoElement_val s) (selectors s)
    (combinator s) v.

(** ** Method calls: a state monad with exceptions *)

Inductive completion (A : Type) : Type :=
| Normal (a : A)
| Throw (e : JsError).

Arguments Normal {A} a.
Arguments Throw {A} e.

Definition M (A : Type) : Type := heap -> completion A * heap.

Definition ret {A} (a : A) : M A := fun h => (Normal a, h).

Definition throw {A} (e : JsError) : M A := fun h => (Throw e, h).

Definition bind {A B} (m : M A) (k : A -> M B) : M B :=
  fun h =>
    match m h with
    | (Normal a, h') => k a h'
    | (Throw e, h') => (Throw e, h')
    end.

Notation "x <- m ;; k" := (bind m (fun x => k))
  (at level 100, m at next level, right associativity).
Notation "m ;; k" := (bind m (fun _ => k))
  (at level 100, right associativity).

(** Reading [this] and writing back a changed [this]. *)
Definition get (this : oref) : M Selector := fun h => (Normal (deref h this), h).

Definition modify (this : oref) (f : Selector -> Selector) : M unit :=
  fun h => (Normal tt, store this (f (deref h this)) h).

(** [array.push(value)]. *)
Definition push (a : aref) (value : string) : M unit :=
  fun h => (Normal tt, store_array a (array h a ++ [value]) h).

(** ** [class Selector] *)

(** [new Selector()]: the constructor allocates the three fragment arrays and
    the object itself. *)
Definition new_Selector : M oref :=
  fun h =>
    let a := length (arrs h) in
    let this := length (objs h) in
    (Normal this,
     mkHeap
       (objs h ++ [mkSelector 0 null null a (S a) (S (S a)) null SELECTORS null None])
       (arrs h ++ [[]; []; []])).

(** [Object.assign(target, source)] for two [Selector] instances: every own
    enumerable property of [source] is assigned to [target].  All ten
    properties are own properties, so the cursor, the array references, the
    combinator and the right operand are copied along with the fragments. *)
Definition Object_assign (target source : oref) : M unit :=
  fun h =>
    let src := deref h source in
    (Normal tt,
     store target
       (mkSelector (index_of_selector src) (element_val src) (id_val src)
          (classes src) (attributes src) (pseudoClasses src)
          (pseudoElement_val src) (selectors src) (combinator src)
          (selector2 src)) h).

Module Selector.

Definition check_order (this : oref) (curr_elem : string) : M unit :=
  s <- get this ;;
  if index_of_selector s >? indexOf (selectors s) curr_elem
  then throw OrderViolationError
  else modify this (set_index_of_selector (indexOf (selectors s) curr_elem)).

Definition element (this : oref) (value : string) : M oref :=
  check_order this "element" ;;
  s <- get this ;;
  (if negb (truthy (element_val s))
   then modify this (set_element_val (Some value))
   else throw DuplicateFragmentError) ;;
  ret this.

Definition id (this : oref) (value : string) : M oref :=
  check_order this "id" ;;
  s <- get this ;;
  (if negb (truthy (id_val s))
   then modify this (set_id_val (Some value))
   else throw DuplicateFragmentError) ;;
  ret this.

Definition class (this : oref) (value : string) : M oref :=
  check_order this "class" ;;
  s <- get this ;;
  push (classes s) value ;;
  ret this.

Definition attr (this : oref) (value : string) : M oref :=
  check_order this "attr" ;;
  s <- get this ;;
  push (attributes s) value ;;
  ret this.

Definition pseudoClass (this : oref) (value : string) : M oref :=
  check_order this "pseudoClass" ;;
  s <- get this ;;
  push (pseudoClasses s) value ;;
  ret this.

Definition pseudoElement (this : oref) (value : string) : M oref :=
  check_order this "pseudoElement" ;;
  s <- get this ;;
  (if negb (truthy (pseudoElement_val s))
   then modify this (set_pseudoElement_val (Some value))
   else throw DuplicateFragmentError) ;;
  ret this.

Definition combine (this : oref) (selector1 : oref) (combinator : string)
    (selector2 : oref) : M oref :=
  check_order this "combine" ;;
  Object_assign this selector1 ;;
  modify this (set_combinator (Some combinator)) ;;
  modify this (set_selector2 (Some selector2)) ;;
  ret this.

(** [stringify()] calls itself on [this.selector2]; the chain of right
    operands lives in the heap and may be cyclic, so the recursion is
    bounded by [fuel]: [None] means that no result is produced within
    [fuel] nested calls.  The heap is threaded through the recursive call
    like through every other method call. *)
Fixpoint stringify (fuel : nat) (this : oref) (h : heap) : option (string * heap) :=
  match fuel with
  | O => None
  | S fuel' =>
      let s := deref h this in
      let result := "" in
      let result :=
        if truthy (element_val s) then result +^ str (element_val s) else result in
      let result :=
        if truthy (id_val s) then result +^ ("#" +^ str (id_val s)) else result in
      let result := forEach (array h (classes s)) (fun result v => result +^ ("." +^ v)) result in
      let result := forEach (array h (attributes s)) (fun result v => result +^ ("[" +^ v +^ "]")) result in
      let result := forEach (array h (pseudoClasses s)) (fun result v => result +^ (":" +^ v)) result in
      let result :=
        if truthy (pseudoElement_val s)
        then result +^ ("::" +^ str (pseudoElement_val s)) else result in
      if truthy (combinator s)
      then
        match selector2 s with
        | Some next =>
            match stringify fuel' next h with
            | Some (rest, h') =>
                Some (result +^ (" " +^ str (combinator s) +^ " " +^ rest), h')
            | None => None
            end
        | None => Some (result, h)
        end
      else Some (result, h)
  end.

End Selector.

(** ** The facade object [cssSelectorBuilder] *)

Module cssSelectorBuilder.

Definition element (value : string) : M oref :=
  this <- new_Selector ;; Selector.element this value.

Definition id (value : string) : M oref :=
  this <- new_Selector ;; Selector.id this value.

Definition class (value : string) : M oref :=
  this <- new_Selector ;; Selector.class this value.

Definition attr (value : string) : M oref :=
  this <- new_Selector ;; Selector.attr this value.

Definition pseudoClass (value : string) : M oref :=
  this <- new_Selector ;; Selector.pseudoClass this value.

Definition pseudoElement (value : string) : M oref :=
  this <- new_Selector ;; Selector.pseudoElement this value.

Definition combine (selector1 : oref) (combinator : string) (selector2 : oref) : M oref :=
  this <- new_Selector ;; Selector.combine this selector1 combinator selector2.

End cssSelectorBuilder.

(** The double-quote character, for selectors such as [a[href$=".png"]]. *)
Definition dquote : string := String (ascii_of_nat 34) EmptyString.

(** ** Fragment calls *)

(** The six fragment methods, to state properties of all of them at once. *)
Inductive Fragment : Type :=
| FElement | FId | FClass | FAttr | FPseudoClass | FPseudoElement.

(** The name each method passes to [check_order]. *)
Definition fragment_name (f : Fragment) : string :=
  match f with
  | FElement => "element"
  | FId => "id"
  | FClass => "class"
  | FAttr => "attr"
  | FPseudoClass => "pseudoClass"
  | FPseudoElement => "pseudoElement"
  end.

(** The rank of a fragment kind in the fixed sequence. *)
Definition fragment_rank (f : Fragment) : Z :=
  match f with
  | FElement => 0
  | FId => 1
  | FClass => 2
  | FAttr => 3
  | FPseudoClass => 4
  | FPseudoElement => 5
  end.

(** The method call [this.f(value)]. *)
Definition invoke (f : Fragment) (this : oref) (value : string) : M oref :=
  match f with
  | FElement => Selector.element this value
  | FId => Selector.id this value
  | FClass => Selector.class this value
  | FAttr => Selector.attr this value
  | FPseudoClass => Selector.pseudoClass this value
  | FPseudoElement => Selector.pseudoElement this value
  end.

(** The field guarded by the single-occurrence check of [element], [id] and
    [pseudoElement]; the repeatable kinds have none. *)
Definition single_field (f : Fragment) : option (Selector -> jsval) :=
  match f with
  | FElement => Some element_val
  | FId => Some id_val
  | FPseudoElement => Some pseudoElement_val
  | FClass | FAttr | FPseudoClass => None
  end.

(** ** Programs over the builder *)

(** The calls a client can make that change the heap.  ([stringify] changes
    nothing, see [stringify_heap].) *)
Inductive call : Type :=
| CNew
| CFragment (f : Fragment) (this : oref) (value : string)
| CCombine (this selector1 : oref) (combinator : string) (selector2 : oref).

Definition allocated (h : heap) (r : oref) : bool := (r <? length (objs h))%nat.

(** A call is made on live objects only: a client cannot name an object that
    has not been created. *)
Definition exec_call (c : call) (h : heap) : option heap :=
  match c with
  | CNew => Some (snd (new_Selector h))
  | CFragment f this value =>
      if allocated h this then Some (snd (invoke f this value h)) else None
  | CCombine this selector1 combinator selector2 =>
      if allocated h this && allocated h selector1 && allocated h selector2
      then Some (snd (Selector.combine this selector1 combinator selector2 h))
      else None
  end.

(** A thrown [Error] does not undo the writes made before it, and the client
    goes on with the heap as it is. *)
Fixpoint exec (cs : list call) (h : heap) : option heap :=
  match cs with
  | [] => Some h
  | c :: cs' =>
      match exec_call c h with
      | Some h' => exec cs' h'
      | None => None
      end
  end.

(** The heaps a program can reach from the empty heap. *)
Definition reachable (h : heap) : Prop := exists cs, exec cs empty_heap = Some h.

(** Programs that use [combine] through the facade only, as the source's
    documentation does: a chain is started by a facade entry point and
    continued by fragment calls. *)
Inductive facade_call : Type :=
| FStart (f : Fragment) (value : string)
| FChain (f : Fragment) (this : oref) (value : string)
| FCombine (selector1 : oref) (combinator : string) (selector2 : oref).

(** The facade entry point [cssSelectorBuilder.f(value)]. *)
Definition facade_start (f : Fragment) (value : string) : M oref :=
  match f with
  | FElement => cssSelectorBuilder.element value
  | FId => cssSelectorBuilder.id value
  | FClass => cssSelectorBuilder.class value
  | FAttr => cssSelectorBuilder.attr value
  | FPseudoClass => cssSelectorBuilder.pseudoClass value
  | FPseudoElement => cssSelectorBuilder.pseudoElement value
  end.

Definition exec_facade_call (c : facade_call) (h : heap) : option heap :=
  match c with
  | FStart f value => Some (snd (facade_start f value h))
  | FChain f this value =>
      if allocated h this then Some (snd (invoke f this value h)) else None
  | FCombine selector1 combinator selector2 =>
      if allocated h selector1 && allocated h selector2
      then Some (snd (cssSelectorBuilder.combine selector1 combinator selector2 h))
      else None
  end.

Fixpoint exec_facade (cs : list facade_call) (h : heap) : option heap :=
  match cs with
  | [] => Some h
  | c :: cs' =>
      match exec_facade_call c h with
      | Some h' => exec_facade cs' h'
      | None => None
      end
  end.

Definition facade_reachable (h : heap) : Prop :=
  exists cs, exec_facade cs empty_heap = Some h.

(** ** The rendering rule of the specification *)

Definition join (l : list string) : string := fold_right String.append "" l.

(** The rule is parameterised by what it means for a field to be "set":
    [is_set] reads it as "not null", [truthy] as "holds a non-empty string". *)
Definition is_set (v : jsval) : bool :=
  match v with
  | Some _ => true
  | None => false
  end.

(** Element, then [#id], then [.class] for each class, then [[attribute]] for
    each attribute, then [:pseudoClass] for each pseudo-class, then
    [::pseudoElement]. *)
Definition fragments_text (set : jsval -> bool) (s : Selector)
    (cs ats ps : list string) : string :=
  (if set (element_val s) then str (element_val s) else "") +^
  (if set (id_val s) then "#" +^ str (id_val s) else "") +^
  join (map (fun c => "." +^ c) cs) +^
  join (map (fun a => "[" +^ a +^ "]") ats) +^
  join (map (fun p => ":" +^ p) ps) +^
  (if set (pseudoElement_val s) then "::" +^ str (pseudoElement_val s) else "").

Definition fragments_rule (set : jsval -> bool) (h : heap) (s : Selector) : string :=
  fragments_text set s (array h (classes s)) (array h (attributes s))
    (array h (pseudoClasses s)).

(** ... then, if both the combinator and the right operand are set, a space,
    the combinator, a space and the rendering of the right operand. *)
Fixpoint render_rule (set : jsval -> bool) (fuel : nat) (h : heap) (this : oref)
    : option string :=
  match fuel with
  | O => None
  | S fuel' =>
      let s := deref h this in
      if set (combinator s)
      then
        match selector2 s with
        | Some next =>
            match render_rule set fuel' h next with
            | Some rest =>
                Some (fragments_rule set h s +^ " " +^ str (combinator s) +^ " " +^ rest)
            | None => None
            end
        | None => Some (fragments_rule set h s)
        end
      else Some (fragments_rule set h s)
  end.

(** The chain of rendered right operands starting at [this] ends within [n]
    objects. *)
Fixpoint chain_ends (n : nat) (h : heap) (this : oref) : bool :=
  match n with
  | O => false
  | S n' =>
      let s := deref h this in
      if truthy (combinator s)
      then
        match selector2 s with
        | Some next => chain_ends n' h next
        | None => true
        end
      else true
  end.

(** ** Well-formed heaps *)

(** What every instance satisfies: the kind sequence is the constructor's,
    the cursor is a rank, and a non-empty [id] or pseudo-element has moved the
    cursor at least to its rank. *)
Record Selector_ok (s : Selector) : Prop := {
  ok_selectors : selectors s = SELECTORS;
  ok_index : 0 <= index_of_selector s <= 6;
  ok_id : truthy (id_val s) = true -> 1 <= index_of_selector s;
  ok_pseudoElement : truthy (pseudoElement_val s) = true -> 5 <= index_of_selector s
}.

(** No dangling references. *)
Record refs_ok (h : heap) (s : Selector) : Prop := {
  ok_classes : (classes s < length (arrs h))%nat;
  ok_attributes : (attributes s < length (arrs h))%nat;
  ok_pseudoClasses : (pseudoClasses s < length (arrs h))%nat;
  ok_selector2 : forall next, selector2 s = Some next -> (next < length (objs h))%nat
}.

Definition heap_wf (h : heap) : Prop :=
  forall r s, objs h !! r = Some s -> Selector_ok s /\ refs_ok h s.

(** Every right operand was created before the instance that refers to it. *)
Definition older_operands (h : heap) : Prop :=
  forall r s next,
    objs h !! r = Some s -> selector2 s = Some next -> (next < r)%nat.

(** ** Auxiliary definitions for the proofs *)

(** The three methods with a single-occurrence check share one shape. *)
Definition single_call (name : string) (field : Selector -> jsval)
    (set_field : jsval -> Selector -> Selector) (this : oref) (value : string)
    (h : heap) : completion oref * heap :=
  let s := deref h this in
  if index_of_selector s >? indexOf (selectors s) name
  then (Throw OrderViolationError, h)
  else
    let h1 := store this (set_index_of_selector (indexOf (selectors s) name) s) h in
    let s1 := deref h1 this in
    if truthy (field s1)
    then (Throw DuplicateFragmentError, h1)
    else (Normal this, store this (set_field (Some value) s1) h1).

(** So do the three methods that push onto an array. *)
Definition push_call (name : string) (field : Selector -> aref) (this : oref)
    (value : string) (h : heap) : completion oref * heap :=
  let s := deref h this in
  if index_of_selector s >? indexOf (selectors s) name
  then (Throw OrderViolationError, h)
  else
    let h1 := store this (set_index_of_selector (indexOf (selectors s) name) s) h in
    let a := field (deref h1 this) in
    (Normal this, store_array a (array h1 a ++ [value]) h1).

(** The receiver once the ordering check has passed. *)
Definition checked (f : Fragment) (s : Selector) : Selector :=
  set_index_of_selector (fragment_rank f) s.

(** What a fragment call does when the ordering check has passed. *)
Definition fragment_body (f : Fragment) (this : oref) (value : string)
    (h : heap) : completion oref * heap :=
  let s := checked f (deref h this) in
  let h1 := store this s h in
  match f with
  | FElement =>
      if truthy (element_val s) then (Throw DuplicateFragmentError, h1)
      else (Normal this, store this (set_element_val (Some value) s) h)
  | FId =>
      if truthy (id_val s) then (Throw DuplicateFragmentError, h1)
      else (Normal this, store this (set_id_val (Some value) s) h)
  | FPseudoElement =>
      if truthy (pseudoElement_val s) then (Throw DuplicateFragmentError, h1)
      else (Normal this, store this (set_pseudoElement_val (Some value) s) h)
  | FClass =>
      (Normal this, store_array (classes s) (array h (classes s) ++ [value]) h1)
  | FAttr =>
      (Normal this, store_array (attributes s) (array h (attributes s) ++ [value]) h1)
  | FPseudoClass =>
      (Normal this, store_array (pseudoClasses s) (array h (pseudoClasses s) ++ [value]) h1)
  end.

(** The left operand as [Object.assign] reads it: the ordering check has
    already written the cursor of the receiver, which matters when the
    receiver is its own left operand. *)
Definition combine_source (this selector1 : oref) (h : heap) : Selector :=
  deref (store this (set_index_of_selector 6 (deref h this)) h) selector1.

(** The heap a program leaves when run from the empty heap. *)
Definition facade_heap_after (cs : list facade_call) : heap :=
  match exec_facade cs empty_heap with
  | Some h => h
  | None => empty_heap
  end.

Definition heap_after (cs : list call) : heap :=
  match exec cs empty_heap with
  | Some h => h
  | None => empty_heap
  end.

(** [h'] holds everything [h] holds, at the same references. *)
Definition extends (h h' : heap) : Prop :=
  exists os ars, objs h' = objs h ++ os /\ arrs h' = arrs h ++ ars.

(** The example of the source's documentation. *)
Definition documented_operands : list call :=
  [CNew; CFragment FElement 0%nat "div"; CFragment FId 0%nat "main";
   CFragment FClass 0%nat "container"; CFragment FClass 0%nat "draggable";
   CNew; CFragment FElement 1%nat "table"; CFragment FId 1%nat "data";
   CNew; CFragment FElement 2%nat "tr"; CFragment FPseudoClass 2%nat "nth-of-type(even)";
   CNew; CFragment FElement 3%nat "td"; CFragment FPseudoClass 3%nat "nth-of-type(even)";
   CNew; CCombine 4%nat 2%nat " " 3%nat].

(** The instance [n] of [h] is [s] and its three arrays are distinct live
    arrays holding [cs], [ats] and [ps]. *)
Record owns (h : heap) (n : oref) (s : Selector) (cs ats ps : list string) : Prop := {
  owns_allocated : allocated h n = true;
  owns_deref : deref h n = s;
  owns_selectors : selectors s = SELECTORS;
  owns_classes : (classes s < length (arrs h))%nat;
  owns_attributes : (attributes s < length (arrs h))%nat;
  owns_pseudoClasses : (pseudoClasses s < length (arrs h))%nat;
  owns_distinct :
    classes s <> attributes s /\ classes s <> pseudoClasses s /\
    attributes s <> pseudoClasses s;
  owns_cs : array h (classes s) = cs;
  owns_ats : array h (attributes s) = ats;
  owns_ps : array h (pseudoClasses s) = ps
}.

(** A fragment call is accepted when the ordering check passes and, for the
    single-occurrence kinds, the field is falsy. *)
Definition accepts (f : Fragment) (s : Selector) : bool :=
  (index_of_selector s <=? fragment_rank f) &&
  match single_field f with
  | Some field => negb (truthy (field s))
  | None => true
  end.

(** The receiver after an accepted fragment call. *)
Definition apply_fragment (f : Fragment) (value : string) (s : Selector) : Selector :=
  match f with
  | FElement => set_element_val (Some value) (checked f s)
  | FId => set_id_val (Some value) (checked f s)
  | FPseudoElement => set_pseudoElement_val (Some value) (checked f s)
  | FClass | FAttr | FPseudoClass => checked f s
  end.

(** What an accepted call appends to the array of kind [g]. *)
Definition pushed (f g : Fragment) (value : string) (l : list string) : list string :=
  match f, g with
  | FClass, FClass | FAttr, FAttr | FPseudoClass, FPseudoClass => l ++ [value]
  | _, _ => l
  end.

(** * Lazy sequences (the generator functions)

    A generator that finishes is modelled by the list of the values it
    yields, in order; a consumer that stops early sees a prefix of it. *)

(** ** [mergeSortedSequences] *)

Module Iterator.

(** What [next()] returns: [value] is [undefined] ([None]) once [done]. *)
Record Result := mkResult { done : bool; value : option Z }.

(** The iterator of a generator that yields the numbers of a list and then
    returns: [next()] hands out the head, or reports [done]. *)
Definition next (it : list Z) : Result * list Z :=
  match it with
  | [] => (mkResult true None, [])
  | x :: it' => (mkResult false (Some x), it')
  end.

End Iterator.

(** The JavaScript comparison [a < b] on numbers and [undefined]: it is
    false as soon as one side is [undefined]. *)
Definition js_lt (a b : option Z) : bool :=
  match a, b with
  | Some x, Some y => x <? y
  | _, _ => false
  end.

(** The [while] loop of [mergeSortedSequences], bounded by [fuel]
    iterations. *)
Fixpoint merge_loop (fuel : nat) (next1 next2 : Iterator.Result)
    (curr1 curr2 : list Z) : option (list (option Z)) :=
  match fuel with
  | O => None
  | S fuel' =>
      if negb (Iterator.done next1) || negb (Iterator.done next2)
      then
        if js_lt (Iterator.value next1) (Iterator.value next2) || Iterator.done next2
        then
          let (next1', curr1') := Iterator.next curr1 in
          option_map (cons (Iterator.value next1))
            (merge_loop fuel' next1' next2 curr1' curr2)
        else
          let (next2', curr2') := Iterator.next curr2 in
          option_map (cons (Iterator.value next2))
            (merge_loop fuel' next1 next2' curr1 curr2')
      else Some []
  end.

Definition mergeSortedSequences (fuel : nat) (source1 source2 : list Z)
    : option (list (option Z)) :=
  let curr1 := source1 in
  let curr2 := source2 in
  let (next1, curr1) := Iterator.next curr1 in
  let (next2, curr2) := Iterator.next curr2 in
  merge_loop fuel next1 next2 curr1 curr2.

(** The merge of two lists that takes from the second list on a tie. *)
Fixpoint merge_lists (l1 : list Z) : list Z -> list Z :=
  fix merge_right (l2 : list Z) : list Z :=
    match l1, l2 with
    | [], _ => l2
    | _, [] => l1
    | x :: l1', y :: l2' =>
        if x <? y then x :: merge_lists l1' l2 else y :: merge_right l2'
    end.

(** ** Trees: [depthTraversalTree] and [breadthTraversalTree] *)

(** A node object: its own properties are abstracted by a label; [children]
    is absent on a leaf ([None]) and an array of nodes otherwise (an empty
    array is truthy). *)
#[warnings="-register-all"]
Inductive Tree (A : Type) : Type :=
| Node (label : A) (children : option (list (Tree A))).

Arguments Node {A} label children.

Definition children {A} (node : Tree A) : option (list (Tree A)) :=
  match node with Node _ cs => cs end.

(** The child nodes, none for a leaf. *)
Definition child_nodes {A} (node : Tree A) : list (Tree A) :=
  match children node with
  | Some cs => cs
  | None => []
  end.

(** The [while] loop of [depthTraversalTree].  The stack holds the records
    [{node, child_i}], its top first; [v.child_i++] updates the record on top
    before the child is pushed.  A lookup beyond the end of [children] is the
    case [v.child_i >= v.node.children.length]. *)
Fixpoint depth_loop {A} (fuel : nat) (stack : list (Tree A * nat))
    : option (list (Tree A)) :=
  match fuel with
  | O => None
  | S fuel' =>
      match stack with
      | [] => Some []
      | (node, child_i) :: rest =>
          match children node with
          | None => depth_loop fuel' rest
          | Some cs =>
              match cs !! child_i with
              | None => depth_loop fuel' rest
              | Some child =>
                  option_map (cons child)
                    (depth_loop fuel' ((child, O) :: (node, S child_i) :: rest))
              end
          end
      end
  end.

Definition depthTraversalTree {A} (fuel : nat) (root : Tree A)
    : option (list (Tree A)) :=
  option_map (cons root) (depth_loop fuel [(root, O)]).

(** The [for ... of] loop of [breadthTraversalTree] over one shifted array:
    it yields each node and pushes the node's [children], when present, at
    the end of the queue. *)
Fixpoint breadth_for_of {A} (nodes : list (Tree A)) (queue : list (list (Tree A)))
    : list (Tree A) * list (list (Tree A)) :=
  match nodes with
  | [] => ([], queue)
  | node :: nodes' =>
      let queue' :=
        match children node with
        | Some cs => queue ++ [cs]
        | None => queue
        end in
      let (yielded, queue'') := breadth_for_of nodes' queue' in
      (node :: yielded, queue'')
  end.

(** The [while] loop of [breadthTraversalTree]. *)
Fixpoint breadth_loop {A} (fuel : nat) (queue : list (list (Tree A)))
    : option (list (Tree A)) :=
  match fuel with
  | O => None
  | S fuel' =>
      match queue with
      | [] => Some []
      | nodes :: queue' =>
          let (yielded, queue'') := breadth_for_of nodes queue' in
          option_map (app yielded) (breadth_loop fuel' queue'')
      end
  end.

Definition breadthTraversalTree {A} (fuel : nat) (root : Tree A)
    : option (list (Tree A)) :=
  breadth_loop fuel [[root]].

(** The orders the two traversals are meant to produce. *)

(** Depth first: a node, then the depth-first order of each child in turn. *)
Fixpoint preorder {A} (t : Tree A) : list (Tree A) :=
  t :: match t with
       | Node _ None => []
       | Node _ (Some cs) => flat_map preorder cs
       end.

(** Breadth first: the nodes at depth 0, then those at depth 1, and so on,
    each level from left to right. *)
Fixpoint at_depth {A} (d : nat) (t : Tree A) : list (Tree A) :=
  match d with
  | O => [t]
  | S d' => flat_map (at_depth d') (child_nodes t)
  end.

Fixpoint height {A} (t : Tree A) : nat :=
  match t with
  | Node _ None => O
  | Node _ (Some cs) => S (foldr Nat.max O (map height cs))
  end.

Definition level_order {A} (t : Tree A) : list (Tree A) :=
  flat_map (fun d => at_depth d t) (seq 0 (S (height t))).

Fixpoint tree_size {A} (t : Tree A) : nat :=
  match t with
  | Node _ None => 1
  | Node _ (Some cs) => S (foldr Nat.add O (map tree_size cs))
  end.

(** The number of iterations of the depth-first loop while the record of
    [t] is on the stack. *)
Fixpoint depth_steps {A} (t : Tree A) : nat :=
  match t with
  | Node _ None => 1
  | Node _ (Some cs) => S (foldr Nat.add O (map (fun c => S (depth_steps c)) cs))
  end.

(** The tree of the source's documentation of [depthTraversalTree]. *)
Definition documented_tree : Tree nat :=
  Node 1%nat (Some [Node 2%nat (Some [Node 3%nat None; Node 4%nat (Some [Node 5%nat None])]);
                    Node 6%nat None;
                    Node 7%nat (Some [Node 8%nat None])]).

Definition label {A} (node : Tree A) : A :=
  match node with Node a _ => a end.

(** The queue one level further: the [children] arrays of the nodes of a
    queue, in order. *)
Definition next_queue {A} (queue : list (list (Tree A))) : list (list (Tree A)) :=
  omap children (concat queue).

(** Iterations of the breadth-first loop for a queue whose trees have height
    at most [H]. *)
Fixpoint breadth_steps {A} (H : nat) (queue : list (list (Tree A))) : nat :=
  length queue +
  match H with
  | O => 1
  | S H' => breadth_steps H' (next_queue queue)
  end.

(** The tree of the source's documentation of [breadthTraversalTree]. *)
Definition documented_wide_tree : Tree nat :=
  Node 1%nat (Some [Node 2%nat (Some [Node 5%nat None; Node 6%nat (Some [Node 8%nat None])]);
                    Node 3%nat None;
                    Node 4%nat (Some [Node 7%nat None])]).

(** The number of nodes of a forest. *)
Definition forest_size {A} (forest : list (Tree A)) : nat :=
  foldr Nat.add O (map tree_size forest).

(** ** Chains of fragment calls *)

(** The chained calls [this.f1(v1).f2(v2)...]: each call is made on the
    instance the previous one returned. *)
Fixpoint chain_calls (fs : list (Fragment * string)) (this : oref) : M oref :=
  match fs with
  | [] => ret this
  | (f, value) :: fs' => this' <- invoke f this value ;; chain_calls fs' this'
  end.

(** What one fragment contributes to the rendering.  An empty id or
    pseudo-element is stored but is falsy, and so contributes nothing. *)
Definition fragment_text (call : Fragment * string) : string :=
  let (f, value) := call in
  match f with
  | FElement => value
  | FId => if truthy (Some value) then "#" +^ value else ""
  | FClass => "." +^ value
  | FAttr => "[" +^ value +^ "]"
  | FPseudoClass => ":" +^ value
  | FPseudoElement => if truthy (Some value) then "::" +^ value else ""
  end.

(** On a builder that only fragment calls have touched, the kinds beyond the
    cursor are still empty, and there is no combinator. *)
Record beyond_cursor_empty (s : Selector) (cs ats ps : list string) : Prop := {
  bce_id : index_of_selector s < 1 -> truthy (id_val s) = false;
  bce_classes : index_of_selector s < 2 -> cs = [];
  bce_attributes : index_of_selector s < 3 -> ats = [];
  bce_pseudoClasses : index_of_selector s < 4 -> ps = [];
  bce_pseudoElement : index_of_selector s < 5 -> truthy (pseudoElement_val s) = false;
  bce_element : index_of_selector s < 0 -> truthy (element_val s) = false;
  bce_combinator : truthy (combinator s) = false
}.

(** * The katas of [10-katas-1-tasks.js] *)

(** ** [extractRanges] *)

(** [Number.prototype.toString()] on an integer that a double holds exactly
    ([safe_integer] below), also the conversion that [number + string]
    applies: the decimal digits, after a minus sign for a negative number. *)
Definition toString (n : Z) : string := NilZero.string_of_int (Z.to_int n).

(** The inner [while]: as long as the next number follows [curMax], shift it
    out of [nums] and make it [curMax]. *)
Fixpoint extend_run (curMax : Z) (nums : list Z) : Z * list Z :=
  match nums with
  | [] => (curMax, [])
  | x :: nums' => if x - curMax =? 1 then extend_run x nums' else (curMax, nums)
  end.

(** The [switch] on [curMax - curMin]. *)
Definition push_range (curMin curMax : Z) (resultsArr : list string) : list string :=
  match curMax - curMin with
  | 0 => resultsArr ++ [toString curMin]
  | 1 => (resultsArr ++ [toString curMin]) ++ [toString curMax]
  | _ => resultsArr ++ [toString curMin +^ "-" +^ toString curMax]
  end.

(** The outer [while], bounded by [fuel] iterations.  [nums] is the caller's
    array, which [shift] empties step by step. *)
Fixpoint extract_loop (fuel : nat) (nums : list Z) (resultsArr : list string)
    : option (list string * list Z) :=
  match fuel with
  | O => None
  | S fuel' =>
      match nums with
      | [] => Some (resultsArr, [])
      | curMin :: nums1 =>
          let (curMax, nums2) := extend_run curMin nums1 in
          extract_loop fuel' nums2 (push_range curMin curMax resultsArr)
      end
  end.

(** The string returned ([Array.prototype.toString] joins with commas) and
    what is left of the caller's array. *)
Definition extractRanges (fuel : nat) (nums : list Z) : option (string * list Z) :=
  match extract_loop fuel nums [] with
  | Some (resultsArr, nums') => Some (String.concat "," resultsArr, nums')
  | None => None
  end.

(** What a range [(a, b)] of consecutive integers stands for, and how the
    format writes it: alone, as two numbers, or with a dash from three
    numbers on. *)
Definition expand_range (r : Z * Z) : list Z := seqZ (fst r) (snd r - fst r + 1).

Definition render_range (r : Z * Z) : list string :=
  if snd r - fst r =? 0 then [toString (fst r)]
  else if snd r - fst r =? 1 then [toString (fst r); toString (snd r)]
  else [toString (fst r) +^ "-" +^ toString (snd r)].

(** The ranges the loop finds. *)
Fixpoint ranges_of (fuel : nat) (nums : list Z) : list (Z * Z) :=
  match fuel with
  | O => []
  | S fuel' =>
      match nums with
      | [] => []
      | curMin :: nums1 =>
          (curMin, fst (extend_run curMin nums1))
            :: ranges_of fuel' (snd (extend_run curMin nums1))
      end
  end.

(** ** [canDominoesMakeRow] *)

(** The numbers this function computes with: a count, or [NaN] ([None]).
    Reading a hole or beyond the end of an array gives [undefined], which
    behaves like [NaN] under [+ 1], [% 2] and [==]. *)
Definition jsnum := option nat.

Definition js_succ (x : jsnum) : jsnum :=
  match x with
  | Some n => Some (S n)
  | None => None
  end.

(** [x == k] for a number [k]. *)
Definition js_eq (x : jsnum) (k : nat) : bool :=
  match x with
  | Some n => (n =? k)%nat
  | None => false
  end.

(** [acc += value % 2]. *)
Definition js_add_mod2 (acc value : jsnum) : jsnum :=
  match acc, value with
  | Some a, Some n => Some (a + n mod 2)%nat
  | _, _ => None
  end.

(** [array[i] = x] for an array index [i] ([array_index] below): beyond the
    end the array grows, leaving holes. *)
Definition array_assign {A} (hole : A) (i : nat) (x : A) (l : list A) : list A :=
  if (i <? length l)%nat then <[i := x]> l
  else l ++ replicate (i - length l) hole ++ [x].

(** [array[i]]. *)
Definition array_read {A} (hole : A) (i : nat) (l : list A) : A :=
  match l !! i with
  | Some x => x
  | None => hole
  end.

(** A tile [[x, y]]. *)
Definition domino := (nat * nat)%type.

(** One iteration of the first loop: both values of the tile are counted,
    and a double is recorded.  In [doubleExists] a hole is falsy, like
    [false]. *)
Definition count_domino (state : list jsnum * list bool) (d : domino)
    : list jsnum * list bool :=
  let (valuesCount, doubleExists) := state in
  let valuesCount :=
    array_assign None (fst d) (js_succ (array_read None (fst d) valuesCount)) valuesCount in
  let valuesCount :=
    array_assign None (snd d) (js_succ (array_read None (snd d) valuesCount)) valuesCount in
  let doubleExists :=
    if (fst d =? snd d)%nat then array_assign false (fst d) true doubleExists
    else doubleExists in
  (valuesCount, doubleExists).

Definition canDominoesMakeRow (dominoes : list domino) : bool :=
  let valuesCount := replicate 7 (Some O) in
  let doubleExists := replicate 7 false in
  let (valuesCount, doubleExists) :=
    fold_left count_domino dominoes (valuesCount, doubleExists) in
  if existsb (fun i => js_eq (array_read None i valuesCount) 2
                       && array_read false i doubleExists)
       (seq 0 (length doubleExists))
  then false
  else
    let oddCount := forEach valuesCount js_add_mod2 (Some O) in
    if js_eq oddCount 0 || js_eq oddCount 2 then true else false.

(** How often a value occurs on the tiles, and whether its double is among
    them. *)
Definition count_on (v : nat) (d : domino) : nat :=
  ((if (fst d =? v)%nat then 1 else 0) + (if (snd d =? v)%nat then 1 else 0))%nat.

Definition count_value (v : nat) (dominoes : list domino) : nat :=
  foldr Nat.add O (map (count_on v) dominoes).

Definition has_double (v : nat) (dominoes : list domino) : bool :=
  existsb (fun d => (fst d =? v)%nat && (snd d =? v)%nat) dominoes.

Definition in_range (d : domino) : bool := (fst d <? 7)%nat && (snd d <? 7)%nat.

(** Tiles laid in a row as they are: each tile ends with the value the next
    one starts with. *)
Fixpoint is_row (dominoes : list domino) : Prop :=
  match dominoes with
  | [] => True
  | d :: rest =>
      match rest with
      | [] => True
      | d' :: _ => snd d = fst d' /\ is_row rest
      end
  end.

(** The same tile, possibly turned round. *)
Definition same_tile (d d' : domino) : Prop :=
  d' = d \/ d' = (snd d, fst d).

(** What [canDominoesMakeRow] decides, said without arrays: every value is
    at most 6, no double is the only tile with its value, and the number of
    values that occur an odd number of times is 0 or 2. *)
Definition dominoes_verdict (dominoes : list domino) : bool :=
  forallb in_range dominoes
  && negb (existsb (fun i => (count_value i dominoes =? 2)%nat && has_double i dominoes)
             (seq 0 7))
  && (let odd := foldr Nat.add O (map (fun i => (count_value i dominoes mod 2)%nat) (seq 0 7)) in
      (odd =? 0)%nat || (odd =? 2)%nat).

(** Beyond index 6 the counts array only ever holds [NaN]. *)
Definition nan_beyond (valuesCount : list jsnum) : Prop :=
  forall i x, valuesCount !! i = Some x -> (7 <= i)%nat -> x = None.

(** [arranged] is the tiles of [dominoes] in some order, each possibly
    turned round. *)
Definition rearranged (dominoes arranged : list domino) : Prop :=
  exists reordered, Permutation dominoes reordered /\ Forall2 same_tile reordered arranged.

(** The value at the open end of the last tile of a row that starts with
    [d]. *)
Definition row_end (d : domino) (rest : list domino) : nat := snd (List.last rest d).

(** * The other generators of the lazy sequences *)

(** ** getFibonacciSequence *)

(** The numbers [getFibonacciSequence] handles are non-negative integers held
    in IEEE 754 doubles: such a value is an integer or [Infinity]. *)
Inductive double := Finite (z : Z) | Infinity.

(** The double nearest to a non-negative integer, ties to even: 53 bits of
    mantissa, [Infinity] from [2 ^ 1024] on. *)
Definition round_double (z : Z) : double :=
  if z <? 2 ^ 53 then Finite z
  else
    let s := Z.log2 z - 52 in
    let q := Z.shiftr z s in
    let r := Z.land z (Z.ones s) in
    let half := 2 ^ (s - 1) in
    let q' := if r <? half then q
              else if half <? r then q + 1
              else if Z.even q then q else q + 1 in
    let v := Z.shiftl q' s in
    if v <? 2 ^ 1024 then Finite v else Infinity.

(** [+] on these numbers. *)
Definition js_add (x y : double) : double :=
  match x, y with
  | Finite a, Finite b => round_double (a + b)
  | _, _ => Infinity
  end.

(** One turn of the [while (true)] loop after the [yield]. *)
Definition fibonacci_step (ab : double * double) : double * double :=
  let '(a, b) := ab in
  let temp := b in
  let b := js_add b a in
  let a := temp in
  (a, b).

(** The first [n] values the loop yields from [a] and [b]. *)
Fixpoint fibonacci_loop (n : nat) (ab : double * double) : list double :=
  match n with
  | O => []
  | S n => fst ab :: fibonacci_loop n (fibonacci_step ab)
  end.

(** The first [n] values of the generator, which never ends. *)
Definition getFibonacciSequence (n : nat) : list double :=
  fibonacci_loop n (Finite 0, Finite 1).

(** The Fibonacci numbers. *)
Fixpoint fibonacci (n : nat) : Z :=
  match n with
  | O => 0
  | S m => match m with
           | O => 1
           | S k => fibonacci k + fibonacci m
           end
  end.

Fixpoint fibonacci_pair (n : nat) : Z * Z :=
  match n with
  | O => (0, 1)
  | S n => let '(a, b) := fibonacci_pair n in (b, a + b)
  end.

(** ** get99BottlesOfBeer *)

(** One turn of the [while (count > 1)] loop: the four lines it yields and
    the count it leaves. *)
Definition bottles_turn (count : Z) : list string * Z :=
  let line1 := toString count +^ " bottles of beer on the wall, "
               +^ toString count +^ " bottles of beer." in
  let count := count - 1 in
  let line2 := "Take one down and pass it around, " +^ toString count
               +^ " bottles of beer on the wall." in
  let line3 := toString count +^ " bottles of beer on the wall, "
               +^ toString count +^ " bottles of beer." in
  let count := count - 1 in
  let line4 := "Take one down and pass it around, " +^ toString count
               +^ " bottle" +^ (if 1 <? count then "s" else "")
               +^ " of beer on the wall." in
  ([line1; line2; line3; line4], count).

Fixpoint bottles_loop (fuel : nat) (count : Z) : option (list string) :=
  match fuel with
  | O => None
  | S fuel =>
      if 1 <? count then
        let '(lines, count) := bottles_turn count in
        option_map (app lines) (bottles_loop fuel count)
      else Some []
  end.

Definition get99BottlesOfBeer (fuel : nat) : option (list string) :=
  option_map
    (fun lines =>
       lines ++
       ["1 bottle of beer on the wall, 1 bottle of beer.";
        "Take one down and pass it around, no more bottles of beer on the wall.";
        "No more bottles of beer on the wall, no more bottles of beer.";
        "Go to the store and buy some more, 99 bottles of beer on the wall."])
    (bottles_loop fuel 99).

(** The song: [n] bottles in words, the two lines of the verse for [n]
    bottles, and the numbers from [n] down to 1. *)
Definition bottles (n : Z) : string :=
  if n =? 0 then "no more bottles"
  else toString n +^ " bottle" +^ (if n =? 1 then "" else "s").

Definition verse (n : Z) : list string :=
  [bottles n +^ " of beer on the wall, " +^ bottles n +^ " of beer.";
   "Take one down and pass it around, " +^ bottles (n - 1) +^ " of beer on the wall."].

Fixpoint countdown (n : nat) : list Z :=
  match n with
  | O => []
  | S m => Z.of_nat n :: countdown m
  end.

(** * The other katas of [10-katas-1-tasks.js] *)

(** ** expandBraces *)

(** Characters other than braces and then a closing brace at the start of
    [s]: the text before the closing brace. *)
Fixpoint group_body (s : string) : option string :=
  match s with
  | "" => None
  | String c rest =>
      if (c =? "}")%char then Some ""
      else if (c =? "{")%char then None
      else option_map (String c) (group_body rest)
  end.

(** The pattern of [str.match] at the start of [s], an opening brace, the
    captured characters other than braces and a closing brace: [matched[0]]
    and [matched[1]]. *)
Definition match_at (s : string) : option (string * string) :=
  match s with
  | "" => None
  | String c rest =>
      if (c =? "{")%char
      then option_map (fun inner => ("{" +^ inner +^ "}", inner)) (group_body rest)
      else None
  end.

(** [str.match] with this pattern: the leftmost match, [None] for [null]. *)
Fixpoint String_match (s : string) : option (string * string) :=
  match match_at s with
  | Some matched => Some matched
  | None =>
      match s with
      | "" => None
      | String _ rest => String_match rest
      end
  end.

(** [s.split(',')]. *)
Fixpoint String_split (s : string) : list string :=
  match s with
  | "" => [""]
  | String c rest =>
      if (c =? ",")%char then "" :: String_split rest
      else
        match String_split rest with
        | piece :: pieces => String c piece :: pieces
        | [] => [String c ""]
        end
  end.

(** What is left of [s] after the prefix [p]. *)
Fixpoint strip_prefix (p s : string) : option string :=
  match p, s with
  | "", _ => Some s
  | String a p', String b s' => if (a =? b)%char then strip_prefix p' s' else None
  | String _ _, "" => None
  end.

(** The text before and after the first occurrence of [pat] in [s]. *)
Fixpoint String_search (pat s : string) : option (string * string) :=
  match strip_prefix pat s with
  | Some after => Some ("", after)
  | None =>
      match s with
      | "" => None
      | String c rest =>
          option_map (fun ba => (String c (fst ba), snd ba)) (String_search pat rest)
      end
  end.

(** The replacement text of [String.prototype.replace] for a string pattern:
    [$$] is a dollar, [$&] the matched text, [$`] the text before the match,
    [$'] the text after it; with no capture, every other [$] stays. *)
Fixpoint GetSubstitution (matched before after replacement : string) : string :=
  match replacement with
  | "" => ""
  | String c rest =>
      if (c =? "$")%char then
        match rest with
        | "" => String c ""
        | String d rest' =>
            if (d =? "$")%char then
              String "$" (GetSubstitution matched before after rest')
            else if (d =? "&")%char then
              matched +^ GetSubstitution matched before after rest'
            else if (d =? "`")%char then
              before +^ GetSubstitution matched before after rest'
            else if (d =? "'")%char then
              after +^ GetSubstitution matched before after rest'
            else String c (GetSubstitution matched before after rest)
        end
      else String c (GetSubstitution matched before after rest)
  end.

(** [str.replace(pat, replacement)] for strings [pat] and [replacement]. *)
Definition String_replace (str pat replacement : string) : string :=
  match String_search pat str with
  | None => str
  | Some (before, after) =>
      before +^ GetSubstitution pat before after replacement +^ after
  end.

(** [appeared.includes(str)]. *)
Definition Array_includes (appeared : list string) (str : string) : bool :=
  existsb (String.eqb str) appeared.

(** The [while] loop of [expandBraces]: the values it yields. The stack
    [toExpand] is held with its top, the end of the array, at the head. *)
Fixpoint expand_loop (fuel : nat) (toExpand appeared : list string)
  : option (list string) :=
  match fuel with
  | O => None
  | S fuel =>
      match toExpand with
      | [] => Some []
      | str :: toExpand =>
          match String_match str with
          | Some matched =>
              let replacementArr := String_split (snd matched) in
              let toExpand :=
                fold_left
                  (fun toExpand replacement =>
                     String_replace str (fst matched) replacement :: toExpand)
                  replacementArr toExpand in
              expand_loop fuel toExpand appeared
          | None =>
              if Array_includes appeared str then expand_loop fuel toExpand appeared
              else option_map (cons str)
                     (expand_loop fuel toExpand (appeared ++ [str]))
          end
      end
  end.

Definition expandBraces (fuel : nat) (str : string) : option (list string) :=
  expand_loop fuel [str] [].

(** How often the character [c] occurs in [s]. *)
Fixpoint occurrences (c : ascii) (s : string) : nat :=
  match s with
  | "" => O
  | String d rest => ((if (d =? c)%char then 1 else 0) + occurrences c rest)%nat
  end.

(** Brace expansion by hand: [expansion s t] when [t] comes from [s] by
    replacing, any number of times, a group [{...}] that holds no brace by
    one of its comma-separated alternatives. *)
Inductive expansion : string -> string -> Prop :=
| expansion_done (s : string) : expansion s s
| expansion_step (before inner alt after t : string) :
    occurrences "{" inner = O -> occurrences "}" inner = O ->
    In alt (String_split inner) ->
    expansion (before +^ alt +^ after) t ->
    expansion (before +^ "{" +^ inner +^ "}" +^ after) t.

(** A bound on the turns of the loop for a string with [opens] opening
    braces and at most [commas] commas. *)
Fixpoint expand_turns (commas opens : nat) : nat :=
  match opens with
  | O => 1
  | S opens => (1 + (commas + 1) * expand_turns commas opens)%nat
  end.

(** [s] holds a group: braces around characters that are not braces. *)
Definition has_group (s : string) : Prop :=
  exists before inner after,
    occurrences "{" inner = O /\ occurrences "}" inner = O /\
    s = before +^ "{" +^ inner +^ "}" +^ after.

(** The turns of the loop a stack of strings needs at most. *)
Definition stack_turns (commas : nat) (toExpand : list string) : nat :=
  foldr Nat.add O
    (map (fun s => expand_turns commas (occurrences "{" s)) toExpand).

(** ** getZigZagMatrix *)

(** One turn of the [for] loop after the assignment: where [i] and [j] go. *)
Definition zigzag_step (n : nat) (ij : nat * nat) : nat * nat :=
  let '(i, j) := ij in
  if Nat.even (i + j) then
    let '(i, j) := if (j + 1 <? n)%nat then (i, (j + 1)%nat) else ((i + 2)%nat, j) in
    let i := if (0 <? i)%nat then (i - 1)%nat else i in
    (i, j)
  else
    let '(i, j) := if (i + 1 <? n)%nat then ((i + 1)%nat, j) else (i, (j + 2)%nat) in
    let j := if (0 <? j)%nat then (j - 1)%nat else j in
    (i, j).

(** [result[i][j] = value]: a [TypeError], here [None], when [result[i]] is
    [undefined]; a row grows when [j] is beyond its end. *)
Definition matrix_assign (result : list (list jsnum)) (i j value : nat)
  : option (list (list jsnum)) :=
  match result !! i with
  | Some row => Some (<[i := array_assign None j (Some value) row]> result)
  | None => None
  end.

(** The [for] loop over [value], with [count] values still to write. *)
Fixpoint zigzag_loop (n count value : nat) (result : list (list jsnum))
    (ij : nat * nat) : option (list (list jsnum)) :=
  match count with
  | O => Some result
  | S count =>
      match matrix_assign result (fst ij) (snd ij) value with
      | Some result => zigzag_loop n count (S value) result (zigzag_step n ij)
      | None => None
      end
  end.

(** Rows of holes, as [new Array(n)] makes them, for a dimension [n] whose
    square a double counts exactly, [n * n <= 2 ^ 53]. *)
Definition getZigZagMatrix (n : nat) : option (list (list jsnum)) :=
  zigzag_loop n (n * n) 0 (replicate n (replicate n None)) (0, 0)%nat.

(** The cells before the diagonal [d] of a matrix that is large enough:
    [0 + 1 + ... + d]. *)
Fixpoint triangle (d : nat) : nat :=
  match d with
  | O => O
  | S d' => (triangle d' + d)%nat
  end.

(** The place of the cell in row [i] and column [j] on the zigzag path
    through an [n] by [n] matrix: the diagonals [i + j] one after the other,
    those with an even sum upwards and the others downwards; counted from
    the start of the path up to the main diagonal, from its end past it. *)
Definition zigzag_index (n i j : nat) : nat :=
  let d := (i + j)%nat in
  if (d <? n)%nat then (triangle d + (if Nat.even d then j else i))%nat
  else (n * n - 1
        - (triangle (2 * (n - 1) - d)
           + (if Nat.even d then n - 1 - j else n - 1 - i)))%nat.

(** The list [f 0, f 1, ..., f (n - 1)]. *)
Definition tabulate {A} (f : nat -> A) (n : nat) : list A := map f (seq 0 n).

(** The matrix once the values below [value] are written: the cells whose
    place on the path is below [value] hold their place, the others are
    holes. *)
Definition zigzag_row (n value i : nat) : list jsnum :=
  tabulate
    (fun j => if (zigzag_index n i j <? value)%nat
              then Some (zigzag_index n i j) else None)
    n.

Definition zigzag_written (n value : nat) : list (list jsnum) :=
  tabulate (zigzag_row n value) n.

(** The whole matrix: every cell holds its place on the path. *)
Definition zigzag_matrix (n : nat) : list (list jsnum) :=
  tabulate (fun i => tabulate (fun j => Some (zigzag_index n i j)) n) n.

(** [matrix[i][j]], when the cell is there. *)
Definition matrix_read (matrix : list (list jsnum)) (i j : nat) : option jsnum :=
  match matrix !! i with
  | Some row => row !! j
  | None => None
  end.

(** ** createCompassPoints *)

(** A point [{abbreviation, azimuth}]. The azimuths are multiples of a
    quarter of a degree, which doubles hold exactly: a rational number. *)
Record CompassPoint := {
  abbreviation : string;
  azimuth : Q
}.

Definition sides : list string := ["N"; "E"; "S"; "W"].

(** [sides[i]]. *)
Definition sides_at (i : nat) : string := nth i sides "undefined".

(** The [switch] on [compassPoint]; [abbreviation] is what the variable held
    before. *)
Definition compass_switch (curSide nextSide midSide : string) (compassPoint : nat)
    (abbreviation : string) : string :=
  match compassPoint with
  | 0%nat => curSide
  | 1%nat => curSide +^ "b" +^ nextSide
  | 2%nat => curSide +^ midSide
  | 3%nat => midSide +^ "b" +^ curSide
  | 4%nat => midSide
  | 5%nat => midSide +^ "b" +^ nextSide
  | 6%nat => nextSide +^ midSide
  | 7%nat => nextSide +^ "b" +^ curSide
  | _ => abbreviation
  end.

(** The inner loop from [compassPoint] on, [count] turns: the points pushed
    and the abbreviation left in the variable. *)
Fixpoint compass_inner (count compassPoint side : nat)
    (curSide nextSide midSide abbreviation : string) : list CompassPoint * string :=
  match count with
  | O => ([], abbreviation)
  | S count =>
      let abbreviation :=
        compass_switch curSide nextSide midSide compassPoint abbreviation in
      let point :=
        {| abbreviation := abbreviation;
           azimuth := (inject_Z (Z.of_nat (side * 8 + compassPoint)) * (1125 # 100))%Q |} in
      let '(points, abbreviation) :=
        compass_inner count (S compassPoint) side curSide nextSide midSide abbreviation in
      (point :: points, abbreviation)
  end.

(** The outer loop from [side] on, [count] turns. *)
Fixpoint compass_outer (count side : nat) (abbreviation : string) : list CompassPoint :=
  match count with
  | O => []
  | S count =>
      let curSide := sides_at side in
      let nextSide := sides_at ((side + 1) mod length sides) in
      let midSide := if (side mod 2 =? 0)%nat then curSide +^ nextSide
                     else nextSide +^ curSide in
      let '(points, abbreviation) :=
        compass_inner 8 0 side curSide nextSide midSide abbreviation in
      points ++ compass_outer count (S side) abbreviation
  end.

Definition createCompassPoints : list CompassPoint :=
  compass_outer (length sides) 0 "undefined".

(** The point on the other side of the compass rose: north and south, east
    and west change places. *)
Definition opposite_letter (c : ascii) : ascii :=
  if (c =? "N")%char then "S"
  else if (c =? "S")%char then "N"
  else if (c =? "E")%char then "W"
  else if (c =? "W")%char then "E"
  else c.

Fixpoint map_letters (f : ascii -> ascii) (s : string) : string :=
  match s with
  | "" => ""
  | String c rest => String (f c) (map_letters f rest)
  end.

(** No string occurs twice in [l]. *)
Fixpoint all_distinct (l : list string) : bool :=
  match l with
  | [] => true
  | x :: l => negb (existsb (String.eqb x) l) && all_distinct l
  end.

(** ** The range of the numbers *)

(** The integers a double holds exactly and prints in full, from
    [Number.MIN_SAFE_INTEGER] to [Number.MAX_SAFE_INTEGER]: on them [-], [==]
    and [toString] are those of the integers. *)
Definition safe_integer (z : Z) : Prop := - (2 ^ 53 - 1) <= z <= 2 ^ 53 - 1.

(** An array index.  A write at a key from [2 ^ 32 - 1] on makes a plain
    property, which [length] and [for-of] do not see. *)
Definition array_index (i : nat) : Prop := Z.of_nat i < 2 ^ 32 - 1.

(** Both values of the tile are array indices. *)
Definition tile_indexed (d : domino) : Prop :=
  array_index (fst d) /\ array_index (snd d).

(** * Properties *)

(** ** Strings and arrays *)

Lemma append_nil_r (s : string) : s +^ "" = s.
Proof. induction s as [|c s IH]; simpl; [reflexivity | now rewrite IH]. Qed.

Lemma append_assoc (s t u : string) : s +^ t +^ u = s +^ (t +^ u).
Proof. induction s as [|c s IH]; simpl; [reflexivity | now rewrite IH]. Qed.

(** The accumulating [forEach] of [stringify] appends the mapped elements in
    order. *)
Lemma forEach_append (f : string -> string) (l : list string) (acc : string) :
  forEach l (fun result v => result +^ f v) acc = acc +^ join (map f l).
Proof.
  unfold forEach. revert acc.
  induction l as [|x l IH]; intros acc; simpl.
  - now rewrite append_nil_r.
  - rewrite IH. apply append_assoc.
Qed.


Lemma fragment_name_rank (f : Fragment) :
  indexOf SELECTORS (fragment_name f) = fragment_rank f.
Proof. destruct f; reflexivity. Qed.

Lemma errors_differ : OrderViolationError <> DuplicateFragmentError.
Proof. discriminate. Qed.

(** ** [stringify] against the rendering rule *)

(** The string [stringify] builds before it looks at the combinator. *)
Lemma stringify_fragments (h : heap) (s : Selector) :
  (let result := "" in
   let result :=
     if truthy (element_val s) then result +^ str (element_val s) else result in
   let result :=
     if truthy (id_val s) then result +^ ("#" +^ str (id_val s)) else result in
   let result := forEach (array h (classes s)) (fun result v => result +^ ("." +^ v)) result in
   let result := forEach (array h (attributes s)) (fun result v => result +^ ("[" +^ v +^ "]")) result in
   let result := forEach (array h (pseudoClasses s)) (fun result v => result +^ (":" +^ v)) result in
   if truthy (pseudoElement_val s)
   then result +^ ("::" +^ str (pseudoElement_val s)) else result)
  = fragments_rule truthy h s.
Proof.
  cbv zeta. unfold fragments_rule, fragments_text.
  rewrite (forEach_append (fun v => "." +^ v)).
  rewrite (forEach_append (fun v => "[" +^ v +^ "]")).
  rewrite (forEach_append (fun v => ":" +^ v)).
  destruct (truthy (element_val s)), (truthy (id_val s)),
    (truthy (pseudoElement_val s));
    rewrite ?append_nil_r; reflexivity.
Qed.

(** One unfolding of [stringify], with the accumulated prefix named. *)
Lemma stringify_unfold (fuel : nat) (this : oref) (h : heap) :
  Selector.stringify (S fuel) this h =
  let s := deref h this in
  if truthy (combinator s)
  then
    match selector2 s with
    | Some next =>
        match Selector.stringify fuel next h with
        | Some (rest, h') =>
            Some (fragments_rule truthy h s +^ (" " +^ str (combinator s) +^ " " +^ rest), h')
        | None => None
        end
    | None => Some (fragments_rule truthy h s, h)
    end
  else Some (fragments_rule truthy h s, h).
Proof.
  cbn [Selector.stringify]. cbv zeta.
  pose proof (stringify_fragments h (deref h this)) as E. cbv zeta in E.
  rewrite E. reflexivity.
Qed.

(** [stringify] assigns to no property: the heap it returns is the one it
    was given. *)
Lemma stringify_heap (fuel : nat) (this : oref) (h h' : heap) (r : string) :
  Selector.stringify fuel this h = Some (r, h') -> h' = h.
Proof.
  revert this r h'. induction fuel as [|fuel IH]; intros this r h' H.
  - discriminate H.
  - rewrite stringify_unfold in H. cbv zeta in H.
    destruct (truthy (combinator (deref h this))); [|congruence].
    destruct (selector2 (deref h this)) as [next|]; [|congruence].
    destruct (Selector.stringify fuel next h) as [[rest h'']|] eqn:E; [|discriminate].
    apply IH in E. congruence.
Qed.

(** More fuel does not change a result. *)
Lemma stringify_mono (fuel fuel' : nat) (this : oref) (h : heap) (res : string * heap) :
  (fuel <= fuel')%nat ->
  Selector.stringify fuel this h = Some res ->
  Selector.stringify fuel' this h = Some res.
Proof.
  revert fuel' this res. induction fuel as [|fuel IH]; intros fuel' this res Hle H.
  - discriminate H.
  - destruct fuel' as [|fuel']; [lia|].
    rewrite stringify_unfold in *. cbv zeta in *.
    destruct (truthy (combinator (deref h this))); [|assumption].
    destruct (selector2 (deref h this)) as [next|]; [|assumption].
    destruct (Selector.stringify fuel next h) as [res'|] eqn:E; [|discriminate].
    rewrite (IH fuel' next res'); [assumption | lia | assumption].
Qed.

(** C1, as amended: for every heap, every instance and every bound on the
    depth of the recursion, [stringify] yields a result exactly when the
    rendering rule does, and then it is the rule's string, character for
    character: the element, [#] and the id, [.] and each class in insertion
    order, each attribute in insertion order between [[] and []], [:] and each
    pseudo-class in insertion order, [::] and the pseudo-element, and, when
    combinator and right operand are both set, a space, the combinator, a
    space and the rendering of the right operand.  Here a string field counts
    as set when it holds a non-empty string. *)
Theorem stringify_render_rule (fuel : nat) (h : heap) (this : oref) :
  Selector.stringify fuel this h =
  option_map (fun r => (r, h)) (render_rule truthy fuel h this).
Proof.
  revert this. induction fuel as [|fuel IH]; intros this.
  - reflexivity.
  - rewrite stringify_unfold. cbn [render_rule]. cbv zeta.
    destruct (truthy (combinator (deref h this))); [|reflexivity].
    destruct (selector2 (deref h this)) as [next|]; [|reflexivity].
    rewrite IH.
    destruct (render_rule truthy fuel h next) as [rest|]; [|reflexivity].
    cbn [option_map]. now rewrite !append_assoc.
Qed.

(** C1, as stated, fails: after [id('')] the field [id_val] is set (to the
    empty string), the rule read with "set" as "not null" gives ["#"], and
    [stringify] gives the empty string. *)
Lemma stringify_render_rule_counterexample :
  let h := snd (cssSelectorBuilder.id "" empty_heap) in
  id_val (deref h 0%nat) = Some "" /\
  render_rule is_set 1 h 0%nat = Some "#" /\
  Selector.stringify 1 0%nat h = Some ("", h) /\
  Selector.stringify 1 0%nat h <> option_map (fun r => (r, h)) (render_rule is_set 1 h 0%nat).
Proof. cbv zeta. split_and!; try discriminate; vm_compute; reflexivity. Qed.

(** ** The store *)

Lemma allocated_lt (h : heap) (r : oref) :
  allocated h r = true <-> (r < length (objs h))%nat.
Proof. unfold allocated. apply Nat.ltb_lt. Qed.

Lemma allocated_lookup (h : heap) (r : oref) :
  allocated h r = true -> objs h !! r = Some (deref h r).
Proof. intros H%allocated_lt. now apply list_lookup_lookup_total_lt. Qed.

Lemma lookup_deref (h : heap) (r : oref) (s : Selector) :
  objs h !! r = Some s -> deref h r = s /\ allocated h r = true.
Proof.
  intros H. split.
  - now apply list_lookup_total_correct.
  - apply allocated_lt. eapply lookup_lt_Some, H.
Qed.

Lemma deref_store_eq (h : heap) (r : oref) (s : Selector) :
  allocated h r = true -> deref (store r s h) r = s.
Proof. intros H%allocated_lt. now apply list_lookup_total_insert_eq. Qed.

Lemma deref_store_ne (h : heap) (r r' : oref) (s : Selector) :
  r <> r' -> deref (store r s h) r' = deref h r'.
Proof. intros H. now apply list_lookup_total_insert_ne. Qed.

Lemma allocated_store (h : heap) (r r' : oref) (s : Selector) :
  allocated (store r s h) r' = allocated h r'.
Proof. unfold allocated, store. simpl. now rewrite length_insert. Qed.

Lemma allocated_store_array (h : heap) (a : aref) (l : list string) (r : oref) :
  allocated (store_array a l h) r = allocated h r.
Proof. reflexivity. Qed.

(** Writing back what is already there changes nothing. *)
Lemma store_deref (h : heap) (r : oref) : store r (deref h r) h = h.
Proof.
  destruct h as [os ars]. unfold store, deref. simpl. f_equal.
  apply list_insert_id'. intros H. now apply list_lookup_lookup_total_lt.
Qed.

Lemma set_index_of_selector_same (s : Selector) :
  set_index_of_selector (index_of_selector s) s = s.
Proof. now destruct s. Qed.

Lemma new_Selector_deref (h : heap) :
  deref (snd (new_Selector h)) (length (objs h)) =
  mkSelector 0 null null (length (arrs h)) (S (length (arrs h)))
    (S (S (length (arrs h)))) null SELECTORS null None.
Proof.
  unfold deref. simpl. rewrite lookup_total_app_r by lia.
  now rewrite Nat.sub_diag.
Qed.

Lemma new_Selector_allocated (h : heap) :
  allocated (snd (new_Selector h)) (length (objs h)) = true.
Proof. apply allocated_lt. simpl. rewrite length_app. simpl. lia. Qed.

(** ** The methods, one equation each *)

Lemma check_order_eq (this : oref) (curr_elem : string) (h : heap) :
  Selector.check_order this curr_elem h =
  let s := deref h this in
  if index_of_selector s >? indexOf (selectors s) curr_elem
  then (Throw OrderViolationError, h)
  else (Normal tt,
        store this (set_index_of_selector (indexOf (selectors s) curr_elem) s) h).
Proof.
  unfold Selector.check_order, bind, get. cbv zeta.
  now destruct (_ >? _).
Qed.

Ltac method_eq :=
  intros; unfold single_call, push_call, bind, get, modify, push, ret, throw;
  rewrite check_order_eq; cbv zeta;
  destruct (_ >? _); cbv beta iota; [reflexivity|];
  try match goal with
      | |- context [truthy ?v] => destruct (truthy v)
      end;
  reflexivity.

Lemma element_eq this value h :
  Selector.element this value h =
  single_call "element" element_val set_element_val this value h.
Proof. unfold Selector.element. method_eq. Qed.

Lemma id_eq this value h :
  Selector.id this value h = single_call "id" id_val set_id_val this value h.
Proof. unfold Selector.id. method_eq. Qed.

Lemma pseudoElement_eq this value h :
  Selector.pseudoElement this value h =
  single_call "pseudoElement" pseudoElement_val set_pseudoElement_val this value h.
Proof. unfold Selector.pseudoElement. method_eq. Qed.

Lemma class_eq this value h :
  Selector.class this value h = push_call "class" classes this value h.
Proof. unfold Selector.class. method_eq. Qed.

Lemma attr_eq this value h :
  Selector.attr this value h = push_call "attr" attributes this value h.
Proof. unfold Selector.attr. method_eq. Qed.

Lemma pseudoClass_eq this value h :
  Selector.pseudoClass this value h =
  push_call "pseudoClass" pseudoClasses this value h.
Proof. unfold Selector.pseudoClass. method_eq. Qed.

Lemma combine_eq this selector1 c selector2 h :
  Selector.combine this selector1 c selector2 h =
  let s := deref h this in
  if index_of_selector s >? indexOf (selectors s) "combine"
  then (Throw OrderViolationError, h)
  else
    let h1 := store this (set_index_of_selector (indexOf (selectors s) "combine") s) h in
    let h2 := snd (Object_assign this selector1 h1) in
    let h3 := store this (set_combinator (Some c) (deref h2 this)) h2 in
    (Normal this, store this (set_selector2 (Some selector2) (deref h3 this)) h3).
Proof.
  unfold Selector.combine, bind, modify, ret. rewrite check_order_eq. cbv zeta.
  destruct (_ >? _); reflexivity.
Qed.

Lemma store_store (h : heap) (r : oref) (s s' : Selector) :
  store r s (store r s' h) = store r s h.
Proof. unfold store. simpl. now rewrite list_insert_insert_eq. Qed.

(** ** Well-formedness is preserved *)

Lemma refs_ok_lengths (h h' : heap) (s : Selector) :
  (length (objs h) <= length (objs h'))%nat ->
  (length (arrs h) <= length (arrs h'))%nat ->
  refs_ok h s -> refs_ok h' s.
Proof.
  intros Ho Ha [H1 H2 H3 H4]. split; try lia.
  intros next E. specialize (H4 next E). lia.
Qed.

Lemma heap_wf_deref (h : heap) (r : oref) :
  heap_wf h -> allocated h r = true ->
  Selector_ok (deref h r) /\ refs_ok h (deref h r).
Proof. intros Hwf H. apply (Hwf r), allocated_lookup, H. Qed.

Lemma heap_wf_store (h : heap) (r : oref) (s : Selector) :
  heap_wf h -> Selector_ok s -> refs_ok h s -> heap_wf (store r s h).
Proof.
  intros Hwf Hok Hrefs r' s' Hl. unfold store in Hl. simpl in Hl.
  apply list_lookup_insert_Some in Hl as [(-> & <- & Hlt) | (Hne & Hl)].
  - split; [assumption|].
    eapply refs_ok_lengths; [| |exact Hrefs]; simpl; rewrite ?length_insert; lia.
  - destruct (Hwf _ _ Hl) as [? Hr]. split; [assumption|].
    eapply refs_ok_lengths; [| |exact Hr]; simpl; rewrite ?length_insert; lia.
Qed.

Lemma heap_wf_store_array (h : heap) (a : aref) (l : list string) :
  heap_wf h -> heap_wf (store_array a l h).
Proof.
  intros Hwf r s Hl. destruct (Hwf _ _ Hl) as [? Hr]. split; [assumption|].
  eapply refs_ok_lengths; [| |exact Hr]; simpl; rewrite ?length_insert; lia.
Qed.

Lemma heap_wf_empty : heap_wf empty_heap.
Proof. intros r s H. destruct r; discriminate H. Qed.

Lemma heap_wf_new (h : heap) : heap_wf h -> heap_wf (snd (new_Selector h)).
Proof.
  intros Hwf r s Hl. simpl in Hl.
  apply lookup_app_Some in Hl as [Hl | [Hle Hl]].
  - destruct (Hwf _ _ Hl) as [? Hr]. split; [assumption|].
    eapply refs_ok_lengths; [| |exact Hr]; simpl; rewrite length_app; lia.
  - destruct (r - length (objs h))%nat as [|n] eqn:E; [|destruct n; discriminate Hl].
    injection Hl as <-. split.
    + split; simpl; try reflexivity; try lia; discriminate.
    + split; simpl; rewrite ?length_app; simpl; try lia. discriminate.
Qed.

Lemma Selector_ok_set_index (s : Selector) (r : Z) :
  Selector_ok s -> index_of_selector s <= r <= 6 ->
  Selector_ok (set_index_of_selector r s).
Proof.
  intros [H1 H2 H3 H4] Hr. split; simpl; auto; try lia.
  - intros E. specialize (H3 E). lia.
  - intros E. specialize (H4 E). lia.
Qed.

Lemma refs_ok_set_index (h : heap) (s : Selector) (r : Z) :
  refs_ok h s -> refs_ok h (set_index_of_selector r s).
Proof. intros [H1 H2 H3 H4]. now split. Qed.

(** ** Fragment calls on a well-formed heap *)

Lemma invoke_eq (f : Fragment) (this : oref) (value : string) (h : heap) :
  allocated h this = true ->
  selectors (deref h this) = SELECTORS ->
  invoke f this value h =
  if index_of_selector (deref h this) >? fragment_rank f
  then (Throw OrderViolationError, h)
  else fragment_body f this value h.
Proof.
  intros Ha Hs.
  assert (E : indexOf (selectors (deref h this)) (fragment_name f) = fragment_rank f)
    by (rewrite Hs; apply fragment_name_rank).
  unfold fragment_body, checked.
  destruct f; cbn [invoke];
    rewrite ?element_eq, ?id_eq, ?pseudoElement_eq, ?class_eq, ?attr_eq,
      ?pseudoClass_eq;
    unfold single_call, push_call; cbv zeta; cbn [fragment_name] in E;
    rewrite E; cbn [fragment_rank];
    destruct (_ >? _); try reflexivity;
    rewrite deref_store_eq by assumption; rewrite ?store_store; reflexivity.
Qed.

Lemma heap_wf_invoke (f : Fragment) (this : oref) (value : string) (h : heap) :
  heap_wf h -> allocated h this = true ->
  heap_wf (snd (invoke f this value h)).
Proof.
  intros Hwf Ha.
  destruct (heap_wf_deref h this Hwf Ha) as [Hok Hrefs].
  rewrite invoke_eq by (assumption || apply Hok).
  destruct (Z.gtb_spec (index_of_selector (deref h this)) (fragment_rank f)) as [Hgt|Hle];
    [assumption|].
  assert (Hc : Selector_ok (checked f (deref h this))).
  { apply Selector_ok_set_index; [assumption|]. destruct f; simpl in *; lia. }
  assert (Hr : refs_ok h (checked f (deref h this)))
    by now apply refs_ok_set_index.
  assert (Hi : index_of_selector (checked f (deref h this)) = fragment_rank f)
    by reflexivity.
  destruct Hc as [C1 C2 C3 C4]. destruct Hr as [R1 R2 R3 R4].
  unfold fragment_body. cbv zeta.
  destruct f;
    repeat match goal with
           | |- context [truthy ?v] => destruct (truthy v) eqn:?
           end;
    cbn [snd];
    try apply heap_wf_store_array;
    apply heap_wf_store; try assumption;
    split; simpl in *; auto; try lia; intros; lia.
Qed.

Lemma Selector_eta (s : Selector) :
  mkSelector (index_of_selector s) (element_val s) (id_val s) (classes s)
    (attributes s) (pseudoClasses s) (pseudoElement_val s) (selectors s)
    (combinator s) (selector2 s) = s.
Proof. now destruct s. Qed.

(** [combine] on a live receiver whose kind sequence is the constructor's:
    the receiver becomes a copy of the left operand, cursor included, with
    the combinator and the right operand written over the copied ones. *)
Lemma combine_result (this selector1 : oref) (c : string) (selector2 : oref) (h : heap) :
  allocated h this = true ->
  selectors (deref h this) = SELECTORS ->
  index_of_selector (deref h this) <= 6 ->
  Selector.combine this selector1 c selector2 h =
  (Normal this,
   store this
     (set_selector2 (Some selector2)
        (set_combinator (Some c) (combine_source this selector1 h))) h).
Proof.
  intros Ha Hs Hle. rewrite combine_eq. cbv zeta. rewrite Hs.
  change (indexOf SELECTORS "combine") with 6.
  destruct (Z.gtb_spec (index_of_selector (deref h this)) 6) as [Hgt|_]; [lia|].
  unfold Object_assign. cbn [snd]. rewrite Selector_eta.
  rewrite !deref_store_eq by (rewrite ?allocated_store; assumption).
  now rewrite !store_store.
Qed.

Lemma combine_source_ne (this selector1 : oref) (h : heap) :
  this <> selector1 -> combine_source this selector1 h = deref h selector1.
Proof. intros H. unfold combine_source. now rewrite deref_store_ne. Qed.

Lemma heap_wf_combine (this selector1 : oref) (c : string) (selector2 : oref) (h : heap) :
  heap_wf h -> allocated h this = true -> allocated h selector1 = true ->
  allocated h selector2 = true ->
  heap_wf (snd (Selector.combine this selector1 c selector2 h)).
Proof.
  intros Hwf Ha H1 H2.
  destruct (heap_wf_deref h this Hwf Ha) as [Hok Hrefs].
  pose proof (ok_index _ Hok) as Hi.
  rewrite combine_result by (assumption || apply Hok || lia).
  cbn [snd]. unfold combine_source.
  set (h1 := store this (set_index_of_selector 6 (deref h this)) h).
  assert (Hwf1 : heap_wf h1).
  { apply heap_wf_store; [assumption| |now apply refs_ok_set_index].
    apply Selector_ok_set_index; [assumption|lia]. }
  assert (H1' : allocated h1 selector1 = true)
    by (unfold h1; now rewrite allocated_store).
  destruct (heap_wf_deref h1 selector1 Hwf1 H1') as [[S1 S2 S3 S4] [R1 R2 R3 R4]].
  apply heap_wf_store; [assumption| |].
  - split; simpl; assumption.
  - split; simpl; try assumption.
    intros next [= <-]. now apply allocated_lt.
Qed.

Lemma heap_wf_exec_call (c : call) (h h' : heap) :
  heap_wf h -> exec_call c h = Some h' -> heap_wf h'.
Proof.
  intros Hwf H. destruct c as [|f this v|this l c r]; simpl in H.
  - injection H as <-. now apply heap_wf_new.
  - destruct (allocated h this) eqn:Ha; [|discriminate].
    injection H as <-. now apply heap_wf_invoke.
  - destruct (allocated h this) eqn:Ha; [|discriminate].
    destruct (allocated h l) eqn:Hl; [|discriminate].
    destruct (allocated h r) eqn:Hr; [|discriminate].
    injection H as <-. now apply heap_wf_combine.
Qed.

Lemma heap_wf_exec (cs : list call) (h h' : heap) :
  heap_wf h -> exec cs h = Some h' -> heap_wf h'.
Proof.
  revert h. induction cs as [|c cs IH]; intros h Hwf H; simpl in H.
  - now injection H as <-.
  - destruct (exec_call c h) as [h1|] eqn:E; [|discriminate].
    eapply IH; [|exact H]. eapply heap_wf_exec_call; eassumption.
Qed.

(** Every heap a program can reach is well formed. *)
Lemma reachable_wf (h : heap) : reachable h -> heap_wf h.
Proof. intros [cs H]. eapply heap_wf_exec; [apply heap_wf_empty | exact H]. Qed.

(** ** The ordering check *)










(** ** Errors leave the heap as it was *)

Lemma single_field_checked (f : Fragment) (field : Selector -> jsval) (s : Selector) :
  single_field f = Some field -> field (checked f s) = field s.
Proof. destruct f; intros [= <-]; reflexivity. Qed.

(** When a fragment call throws after a passed ordering check, the cursor
    already was the rank of the kind. *)
Lemma fragment_body_throw (f : Fragment) (this : oref) (value : string) (h : heap) (e : JsError) :
  Selector_ok (deref h this) ->
  index_of_selector (deref h this) <= fragment_rank f ->
  fst (fragment_body f this value h) = Throw e ->
  e = DuplicateFragmentError /\
  (exists field, single_field f = Some field /\ truthy (field (deref h this)) = true) /\
  snd (fragment_body f this value h) = h.
Proof.
  intros [H1 H2 H3 H4] Hle. unfold fragment_body. cbv zeta.
  destruct f; try discriminate;
    match goal with
    | |- context [truthy ?v] => destruct (truthy v) eqn:Et
    end;
    try discriminate; intros [= <-]; cbn [snd]; simpl in Et, Hle;
    (split; [reflexivity|]); (split; [eexists; split; [reflexivity|exact Et]|]);
    unfold checked; simpl;
    match goal with
    | |- store _ (set_index_of_selector ?r _) _ = _ =>
        replace r with (index_of_selector (deref h this)) by (try specialize (H3 Et); try specialize (H4 Et); lia)
    end;
    now rewrite set_index_of_selector_same, store_deref.
Qed.

(** A fragment call that throws on a live instance of a well-formed heap
    leaves the heap as it was. *)
Lemma invoke_throw (h : heap) (this : oref) (f : Fragment)
    (value : string) (e : JsError) :
  heap_wf h -> allocated h this = true ->
  fst (invoke f this value h) = Throw e ->
  snd (invoke f this value h) = h.
Proof.
  intros Hwf Ha.
  destruct (heap_wf_deref h this Hwf Ha) as [Hok Hrefs].
  rewrite invoke_eq by (assumption || apply Hok).
  destruct (Z.gtb_spec (index_of_selector (deref h this)) (fragment_rank f)) as [Hgt|Hle].
  - reflexivity.
  - intros E. now apply (fragment_body_throw f this value h e Hok Hle E).
Qed.

(** C10: on every instance of every reachable heap, a fragment call
    ([element], [id], [class], [attr], [pseudoClass], [pseudoElement]) that
    throws leaves the whole heap, hence the receiver's fields, its arrays, its
    combinator, its right operand and its cursor, exactly as before the call.
    The order error is thrown before any write; the duplicate error is thrown
    after the ordering check has written the cursor, and that write stores the
    value the cursor already had. *)
Theorem fragment_error_atomic (h : heap) (this : oref) (f : Fragment)
    (value : string) (e : JsError) :
  reachable h -> allocated h this = true ->
  fst (invoke f this value h) = Throw e ->
  snd (invoke f this value h) = h /\
  (e = OrderViolationError \/
   e = DuplicateFragmentError /\
   index_of_selector (deref h this) = fragment_rank f).
Proof.
  intros Hreach Ha.
  pose proof (reachable_wf h Hreach) as Hwf.
  destruct (heap_wf_deref h this Hwf Ha) as [Hok Hrefs].
  rewrite invoke_eq by (assumption || apply Hok).
  destruct (Z.gtb_spec (index_of_selector (deref h this)) (fragment_rank f)) as [Hgt|Hle].
  - intros [= <-]. split; [reflexivity|now left].
  - intros E.
    destruct (fragment_body_throw f this value h e Hok Hle E) as (-> & (field & Ef & Et) & Eh).
    split; [assumption|]. right. split; [reflexivity|].
    destruct Hok as [H1 H2 H3 H4].
    destruct f; try discriminate Ef; injection Ef as <-; simpl in *;
      try specialize (H3 Et); try specialize (H4 Et); lia.
Qed.

Lemma fragment_error_atomic_witness :
  let h := heap_after [CNew; CFragment FElement 0%nat "div"; CFragment FId 0%nat "main"] in
  reachable h /\ allocated h 0%nat = true /\
  fst (invoke FId 0%nat "other" h) = Throw DuplicateFragmentError /\
  snd (invoke FId 0%nat "other" h) = h.
Proof.
  intros h.
  assert (Hr : reachable h)
    by (exists [CNew; CFragment FElement 0%nat "div"; CFragment FId 0%nat "main"]; reflexivity).
  assert (Ha : allocated h 0%nat = true) by reflexivity.
  assert (Ht : fst (invoke FId 0%nat "other" h) = Throw DuplicateFragmentError) by reflexivity.
  split_and!; try assumption.
  apply (fragment_error_atomic h 0%nat FId "other" DuplicateFragmentError Hr Ha Ht).
Defined.

(** ** Single occurrence *)

(** C3, as amended: on every instance of every reachable heap, when the field
    of [element], [id] or [pseudoElement] holds a non-empty string, a further
    call of that method throws and changes nothing: it throws the order error
    when the cursor is beyond the rank of the kind (the ordering check runs
    first), and the duplicate error otherwise.  So no fragment call replaces a
    non-empty element, id or pseudo-element. *)
Theorem single_occurrence (h : heap) (this : oref) (f : Fragment)
    (field : Selector -> jsval) (value : string) :
  reachable h -> allocated h this = true ->
  single_field f = Some field ->
  truthy (field (deref h this)) = true ->
  fst (invoke f this value h) =
    Throw (if index_of_selector (deref h this) >? fragment_rank f
           then OrderViolationError else DuplicateFragmentError) /\
  snd (invoke f this value h) = h /\
  forall g value', field (deref (snd (invoke g this value' h)) this) = field (deref h this).
Proof.
  intros Hreach Ha Ef Et.
  pose proof (reachable_wf h Hreach) as Hwf.
  destruct (heap_wf_deref h this Hwf Ha) as [Hok Hrefs].
  assert (E1 : fst (invoke f this value h) =
    Throw (if index_of_selector (deref h this) >? fragment_rank f
           then OrderViolationError else DuplicateFragmentError)).
  { rewrite invoke_eq by (assumption || apply Hok).
    destruct (_ >? _); [reflexivity|].
    unfold fragment_body. cbv zeta.
    destruct f; try discriminate Ef; injection Ef as <-;
      unfold checked;
      cbn [set_index_of_selector element_val id_val pseudoElement_val];
      rewrite Et; reflexivity. }
  split_and!; [exact E1| |].
  - eapply invoke_throw; eassumption.
  - intros g value'.
    destruct (fst (invoke g this value' h)) as [r|e] eqn:Eg.
    + rewrite invoke_eq in * by (assumption || apply Hok).
      destruct (Z.gtb_spec (index_of_selector (deref h this)) (fragment_rank g)) as [Hgt|Hle];
        [discriminate Eg|].
      unfold fragment_body in *. cbv zeta in *.
      destruct Hok as [H1 H2 H3 H4].
      destruct g, f; try discriminate Ef; injection Ef as <-;
        unfold checked in *;
        cbn [set_index_of_selector element_val id_val pseudoElement_val] in *;
        rewrite ?Et in *; try discriminate Eg;
        repeat match goal with
               | |- context [truthy ?v] => destruct (truthy v)
               end;
        cbn [snd];
        try change (deref (store_array ?a ?l ?h') this) with (deref h' this);
        rewrite ?deref_store_eq by assumption; try reflexivity;
        simpl in *; try specialize (H3 Et); try specialize (H4 Et); lia.
    + now rewrite (invoke_throw h this g value' e Hwf Ha Eg).
Qed.

Lemma single_occurrence_witness :
  let h := heap_after [CNew; CFragment FElement 0%nat "div"; CFragment FId 0%nat "main"] in
  reachable h /\ allocated h 0%nat = true /\
  truthy (id_val (deref h 0%nat)) = true /\
  fst (Selector.id 0%nat "other" h) = Throw DuplicateFragmentError.
Proof.
  intros h.
  assert (Hr : reachable h)
    by (exists [CNew; CFragment FElement 0%nat "div"; CFragment FId 0%nat "main"]; reflexivity).
  assert (Ha : allocated h 0%nat = true) by reflexivity.
  assert (Ht : truthy (id_val (deref h 0%nat)) = true) by reflexivity.
  split_and!; try assumption.
  apply (single_occurrence h 0%nat FId id_val "other" Hr Ha eq_refl Ht).
Defined.

(** C3, as stated, fails twice.  After [element('a').id('b')] the element is
    set and a second [element] call throws the order error, not the duplicate
    error.  After [element('')] the element is set (to the empty string) and a
    second [element] call returns normally and replaces it. *)
Lemma single_occurrence_counterexample :
  (let h := heap_after [CNew; CFragment FElement 0%nat "a"; CFragment FId 0%nat "b"] in
   element_val (deref h 0%nat) = Some "a" /\
   fst (Selector.element 0%nat "c" h) = Throw OrderViolationError /\
   fst (Selector.element 0%nat "c" h) <> Throw DuplicateFragmentError) /\
  (let h := heap_after [CNew; CFragment FElement 0%nat ""] in
   element_val (deref h 0%nat) = Some "" /\
   fst (Selector.element 0%nat "a" h) = Normal 0%nat /\
   element_val (deref (snd (Selector.element 0%nat "a" h)) 0%nat) = Some "a").
Proof. split; cbv zeta; split_and!; (reflexivity || discriminate). Qed.

(** ** Rendering in a grown heap *)

Lemma extends_refl (h : heap) : extends h h.
Proof. exists [], []. now rewrite !app_nil_r. Qed.

Lemma extends_trans (h1 h2 h3 : heap) : extends h1 h2 -> extends h2 h3 -> extends h1 h3.
Proof.
  intros (o1 & a1 & E1 & E2) (o2 & a2 & E3 & E4).
  exists (o1 ++ o2), (a1 ++ a2). rewrite E3, E4, E1, E2. now rewrite <- !app_assoc.
Qed.

Lemma extends_deref (h h' : heap) (r : oref) :
  extends h h' -> allocated h r = true -> deref h' r = deref h r.
Proof.
  intros (os & ars & E & _) Ha%allocated_lt. unfold deref. rewrite E.
  now apply lookup_total_app_l.
Qed.

Lemma extends_allocated (h h' : heap) (r : oref) :
  extends h h' -> allocated h r = true -> allocated h' r = true.
Proof.
  intros (os & ars & E & _) Ha%allocated_lt. apply allocated_lt.
  rewrite E, length_app. lia.
Qed.

Lemma extends_array (h h' : heap) (a : aref) :
  extends h h' -> (a < length (arrs h))%nat -> array h' a = array h a.
Proof.
  intros (os & ars & _ & E) Ha. unfold array. rewrite E.
  now apply lookup_total_app_l.
Qed.

Lemma extends_fragments (set : jsval -> bool) (h h' : heap) (s : Selector) :
  extends h h' -> refs_ok h s -> fragments_rule set h' s = fragments_rule set h s.
Proof.
  intros He [H1 H2 H3 _]. unfold fragments_rule.
  now rewrite !(extends_array h h') by assumption.
Qed.

Lemma extends_render_rule (set : jsval -> bool) (fuel : nat) (h h' : heap) (r : oref) :
  heap_wf h -> extends h h' -> allocated h r = true ->
  render_rule set fuel h' r = render_rule set fuel h r.
Proof.
  intros Hwf He. revert r. induction fuel as [|fuel IH]; intros r Ha; [reflexivity|].
  destruct (heap_wf_deref h r Hwf Ha) as [_ Hrefs].
  cbn [render_rule]. cbv zeta.
  rewrite (extends_deref h h') by assumption.
  rewrite (extends_fragments set h h') by assumption.
  destruct (set (combinator (deref h r))); [|reflexivity].
  destruct (selector2 (deref h r)) as [next|] eqn:En; [|reflexivity].
  rewrite IH; [reflexivity|].
  apply allocated_lt, (ok_selector2 _ _ Hrefs), En.
Qed.

(** Objects of a well-formed heap render the same after the heap has grown. *)
Lemma extends_stringify (fuel : nat) (h h' : heap) (r : oref) (res : string) :
  heap_wf h -> extends h h' -> allocated h r = true ->
  Selector.stringify fuel r h = Some (res, h) ->
  Selector.stringify fuel r h' = Some (res, h').
Proof.
  intros Hwf He. revert r res.
  induction fuel as [|fuel IH]; intros r res Ha H; [discriminate H|].
  destruct (heap_wf_deref h r Hwf Ha) as [_ Hrefs].
  rewrite stringify_unfold in *. cbv zeta in *.
  rewrite (extends_deref h h') by assumption.
  rewrite (extends_fragments truthy h h') by assumption.
  destruct (truthy (combinator (deref h r))); [|congruence].
  destruct (selector2 (deref h r)) as [next|] eqn:En; [|congruence].
  destruct (Selector.stringify fuel next h) as [[rest h1]|] eqn:E; [|discriminate].
  pose proof (stringify_heap _ _ _ _ _ E) as ->.
  rewrite (IH next rest); [congruence| |exact E].
  apply allocated_lt, (ok_selector2 _ _ Hrefs), En.
Qed.

Lemma stringify_one (this : oref) (h h' : heap) (res : string) :
  Selector.stringify 1 this h = Some (res, h') ->
  res = fragments_rule truthy h (deref h this).
Proof.
  rewrite stringify_unfold. cbv zeta.
  destruct (truthy (combinator (deref h this))); [|congruence].
  destruct (selector2 (deref h this)); [discriminate|congruence].
Qed.

Lemma truthy_Some (c : string) : c <> "" -> truthy (Some c) = true.
Proof. destruct c; [congruence|reflexivity]. Qed.

(** ** The facade's [combine] *)

(** The instance [cssSelectorBuilder.combine] returns: a new object holding a
    copy of the left operand's properties, with the combinator and the right
    operand written over the copied ones. *)
Lemma facade_combine_result (h : heap) (selector1 : oref) (c : string) (selector2 : oref) :
  allocated h selector1 = true ->
  cssSelectorBuilder.combine selector1 c selector2 h =
  (Normal (length (objs h)),
   mkHeap
     (objs h ++ [set_selector2 (Some selector2)
                   (set_combinator (Some c) (deref h selector1))])
     (arrs h ++ [[]; []; []])).
Proof.
  intros H1. unfold cssSelectorBuilder.combine, bind.
  cbn [new_Selector]. cbv zeta.
  set (init := mkSelector 0 null null _ _ _ null SELECTORS null None).
  set (h0 := mkHeap (objs h ++ [init]) _).
  assert (Ha0 : allocated h0 (length (objs h)) = true).
  { apply allocated_lt. unfold h0. simpl. rewrite length_app. simpl. lia. }
  assert (Ed : deref h0 (length (objs h)) = init).
  { unfold deref, h0. simpl. rewrite lookup_total_app_r by lia.
    now rewrite Nat.sub_diag. }
  rewrite combine_result; try assumption; try (rewrite Ed; reflexivity || (simpl; lia)).
  f_equal. rewrite combine_source_ne by (apply allocated_lt in H1; lia).
  assert (E1 : deref h0 selector1 = deref h selector1).
  { unfold deref, h0. simpl. apply lookup_total_app_l. now apply allocated_lt. }
  rewrite E1. unfold store, h0. simpl. f_equal.
  replace (length (objs h)) with (length (objs h) + 0)%nat at 1 by lia.
  now rewrite insert_app_r.
Qed.

Lemma facade_combine_extends (h : heap) (selector1 : oref) (c : string) (selector2 : oref) :
  allocated h selector1 = true ->
  extends h (snd (cssSelectorBuilder.combine selector1 c selector2 h)).
Proof. intros H1. rewrite facade_combine_result by assumption. simpl. eexists _, _. eauto. Qed.

Lemma facade_combine_deref (h : heap) (selector1 : oref) (c : string) (selector2 : oref) :
  allocated h selector1 = true ->
  deref (snd (cssSelectorBuilder.combine selector1 c selector2 h)) (length (objs h)) =
  set_selector2 (Some selector2) (set_combinator (Some c) (deref h selector1)).
Proof.
  intros H1. rewrite facade_combine_result by assumption. unfold deref. simpl.
  rewrite lookup_total_app_r by lia. now rewrite Nat.sub_diag.
Qed.

(** Rendering the instance the facade's [combine] returns, for a non-empty
    combinator. *)
Lemma facade_combine_render (h : heap) (left_op : oref) (c : string)
    (right_op : oref) (n : nat) (rest : string) :
  heap_wf h -> allocated h left_op = true -> allocated h right_op = true ->
  c <> "" ->
  Selector.stringify n right_op h = Some (rest, h) ->
  let h' := snd (cssSelectorBuilder.combine left_op c right_op h) in
  Selector.stringify (S n) (length (objs h)) h' =
  Some (fragments_rule truthy h (deref h left_op) +^ " " +^ c +^ " " +^ rest, h').
Proof.
  intros Hwf H1 H2 Hc Hr h'.
  pose proof (facade_combine_extends h left_op c right_op H1) as He. fold h' in He.
  destruct (heap_wf_deref h left_op Hwf H1) as [_ Hrefs].
  pose proof (facade_combine_deref h left_op c right_op H1) as Ed. fold h' in Ed.
  rewrite stringify_unfold. cbv zeta. rewrite !Ed.
  cbn [combinator selector2 set_selector2 set_combinator str].
  rewrite (truthy_Some c Hc).
  rewrite (extends_stringify n h h' right_op rest) by assumption.
  f_equal. f_equal.
  change (fragments_rule truthy h' (set_selector2 _ (set_combinator _ ?s)))
    with (fragments_rule truthy h' s).
  rewrite (extends_fragments truthy h h') by assumption.
  now rewrite !append_assoc.
Qed.

Lemma exec_app (cs1 cs2 : list call) (h : heap) :
  exec (cs1 ++ cs2) h =
  match exec cs1 h with
  | Some h1 => exec cs2 h1
  | None => None
  end.
Proof.
  revert h. induction cs1 as [|c cs1 IH]; intros h; simpl; [reflexivity|].
  destruct (exec_call c h); [apply IH|reflexivity].
Qed.

Lemma reachable_exec (cs : list call) (h h' : heap) :
  reachable h -> exec cs h = Some h' -> reachable h'.
Proof. intros [cs0 H0] H. exists (cs0 ++ cs). now rewrite exec_app, H0. Qed.

Lemma facade_combine_steps (h : heap) (left_op : oref) (c : string) (right_op : oref) :
  allocated h left_op = true -> allocated h right_op = true ->
  exec [CNew; CCombine (length (objs h)) left_op c right_op] h =
  Some (snd (cssSelectorBuilder.combine left_op c right_op h)).
Proof.
  intros H1 H2.
  assert (He : extends h (snd (new_Selector h))) by (simpl; eexists _, _; eauto).
  cbn [exec exec_call].
  rewrite (extends_allocated h _ left_op He H1), (extends_allocated h _ right_op He H2).
  now rewrite new_Selector_allocated.
Qed.

Lemma facade_combine_reachable (h : heap) (left_op : oref) (c : string) (right_op : oref) :
  reachable h -> allocated h left_op = true -> allocated h right_op = true ->
  reachable (snd (cssSelectorBuilder.combine left_op c right_op h)).
Proof.
  intros Hr H1 H2.
  apply (reachable_exec [CNew; CCombine (length (objs h)) left_op c right_op] h);
    [assumption|now apply facade_combine_steps].
Qed.

(** C4, as amended: for every two instances [left_op] and [right_op] of a
    reachable heap and every non-empty combinator, the facade's
    [combine(left_op, symbol, right_op)] returns a new instance whose element,
    id, classes, attributes, pseudo-classes and pseudo-element are those of
    [left_op] (the three arrays are the very arrays of [left_op]), whose
    combinator is [symbol] and whose right operand is [right_op]; the operands
    themselves are unchanged.  It renders as the fragments of [left_op], a
    space, [symbol], a space and the rendering of [right_op]; when [left_op]
    has no rendered right operand of its own, that is the rendering of
    [left_op], a space, [symbol], a space and the rendering of [right_op]. *)
Theorem combine_render (h : heap) (left_op right_op : oref) (symbol : string)
    (n : nat) (rendered_right : string) :
  reachable h -> allocated h left_op = true -> allocated h right_op = true ->
  symbol <> "" ->
  Selector.stringify n right_op h = Some (rendered_right, h) ->
  let b := length (objs h) in
  let h' := snd (cssSelectorBuilder.combine left_op symbol right_op h) in
  fst (cssSelectorBuilder.combine left_op symbol right_op h) = Normal b /\
  (element_val (deref h' b) = element_val (deref h left_op) /\
   id_val (deref h' b) = id_val (deref h left_op) /\
   classes (deref h' b) = classes (deref h left_op) /\
   attributes (deref h' b) = attributes (deref h left_op) /\
   pseudoClasses (deref h' b) = pseudoClasses (deref h left_op) /\
   pseudoElement_val (deref h' b) = pseudoElement_val (deref h left_op) /\
   array h' (classes (deref h' b)) = array h (classes (deref h left_op)) /\
   array h' (attributes (deref h' b)) = array h (attributes (deref h left_op)) /\
   array h' (pseudoClasses (deref h' b)) = array h (pseudoClasses (deref h left_op))) /\
  combinator (deref h' b) = Some symbol /\
  selector2 (deref h' b) = Some right_op /\
  deref h' left_op = deref h left_op /\
  deref h' right_op = deref h right_op /\
  Selector.stringify (S n) b h' =
    Some (fragments_rule truthy h (deref h left_op) +^ " " +^ symbol +^ " " +^ rendered_right, h') /\
  (forall rendered_left,
     Selector.stringify 1 left_op h = Some (rendered_left, h) ->
     Selector.stringify (S n) b h' =
       Some (rendered_left +^ " " +^ symbol +^ " " +^ rendered_right, h')).
Proof.
  intros Hreach H1 H2 Hs Hr b h'.
  pose proof (reachable_wf h Hreach) as Hwf.
  pose proof (facade_combine_extends h left_op symbol right_op H1) as He. fold h' in He.
  pose proof (facade_combine_deref h left_op symbol right_op H1) as Ed.
  fold h' b in Ed.
  destruct (heap_wf_deref h left_op Hwf H1) as [_ [R1 R2 R3 _]].
  pose proof (facade_combine_render h left_op symbol right_op n rendered_right
                Hwf H1 H2 Hs Hr) as Hrender.
  cbv zeta in Hrender. fold h' b in Hrender.
  split_and!; rewrite ?Ed; try reflexivity.
  - now rewrite facade_combine_result.
  - now apply extends_array.
  - now apply extends_array.
  - now apply extends_array.
  - now apply extends_deref.
  - now apply extends_deref.
  - exact Hrender.
  - intros rendered_left Hl. apply stringify_one in Hl. now rewrite Hl.
Qed.

(** The documented example: [combine(element('div').id('main'), '+',
    element('table').id('data'))] renders as [div#main + table#data]. *)
Lemma combine_render_witness :
  let h := heap_after [CNew; CFragment FElement 0%nat "div"; CFragment FId 0%nat "main";
                      CNew; CFragment FElement 1%nat "table"; CFragment FId 1%nat "data"] in
  let h' := snd (cssSelectorBuilder.combine 0%nat "+" 1%nat h) in
  reachable h /\ allocated h 0%nat = true /\ allocated h 1%nat = true /\ "+" <> "" /\
  Selector.stringify 1 0%nat h = Some ("div#main", h) /\
  Selector.stringify 1 1%nat h = Some ("table#data", h) /\
  Selector.stringify 2 2%nat h' = Some ("div#main + table#data", h').
Proof.
  intros h h'.
  assert (Hr : reachable h)
    by (exists [CNew; CFragment FElement 0%nat "div"; CFragment FId 0%nat "main";
                CNew; CFragment FElement 1%nat "table"; CFragment FId 1%nat "data"];
        vm_compute; reflexivity).
  assert (H0 : allocated h 0%nat = true) by reflexivity.
  assert (H1 : allocated h 1%nat = true) by reflexivity.
  assert (Hs : "+" <> "") by discriminate.
  assert (Hl : Selector.stringify 1 0%nat h = Some ("div#main", h))
    by (vm_compute; reflexivity).
  assert (Hright : Selector.stringify 1 1%nat h = Some ("table#data", h))
    by (vm_compute; reflexivity).
  split_and!; try assumption.
  apply (combine_render h 0%nat 1%nat "+" 1%nat "table#data" Hr H0 H1 Hs Hright).
Defined.

(** C4, as stated, fails when the left operand is itself a combined selector:
    [combine(combine(a, '+', b), '>', c)] renders as [a > c], because the
    combinator and right operand copied from the left operand are overwritten.
    It also fails for the empty combinator, which renders nothing after the
    left operand's fragments. *)
Lemma combine_render_counterexample :
  let h := heap_after [CNew; CFragment FElement 0%nat "a";
                      CNew; CFragment FElement 1%nat "b";
                      CNew; CFragment FElement 2%nat "c";
                      CNew; CCombine 3%nat 0%nat "+" 1%nat] in
  (let h' := snd (cssSelectorBuilder.combine 3%nat ">" 2%nat h) in
   Selector.stringify 2 3%nat h = Some ("a + b", h) /\
   Selector.stringify 1 2%nat h = Some ("c", h) /\
   fst (cssSelectorBuilder.combine 3%nat ">" 2%nat h) = Normal 4%nat /\
   Selector.stringify 3 4%nat h' = Some ("a > c", h') /\
   "a > c" <> "a + b" +^ " " +^ ">" +^ " " +^ "c") /\
  (let h' := snd (cssSelectorBuilder.combine 0%nat "" 2%nat h) in
   fst (cssSelectorBuilder.combine 0%nat "" 2%nat h) = Normal 4%nat /\
   Selector.stringify 3 4%nat h' = Some ("a", h') /\
   "a" <> "a" +^ " " +^ "" +^ " " +^ "c").
Proof. cbv zeta. split_and!; try discriminate; vm_compute; reflexivity. Qed.

(** ** Any string as combinator *)

Lemma facade_combine_normal (h : heap) (left_op : oref) (c : string) (right_op : oref) :
  fst (cssSelectorBuilder.combine left_op c right_op h) = Normal (length (objs h)).
Proof.
  unfold cssSelectorBuilder.combine, bind.
  change (new_Selector h) with (Normal (length (objs h)), snd (new_Selector h)).
  cbv iota beta.
  rewrite combine_result; [reflexivity|apply new_Selector_allocated| |];
    rewrite new_Selector_deref; simpl; (reflexivity || lia).
Qed.

(** C5, as amended: [combine] accepts every string as combinator without
    validating it and without throwing, through the facade on any heap and as
    a method on any instance of a reachable heap, and stores it as given.
    Every non-empty combinator appears verbatim in the rendering, between the
    fragments of the left operand and the rendering of the right operand, with
    one space before and one after. *)
Theorem combine_any_symbol (h : heap) (left_op right_op : oref) (symbol : string) :
  let b := length (objs h) in
  let h' := snd (cssSelectorBuilder.combine left_op symbol right_op h) in
  fst (cssSelectorBuilder.combine left_op symbol right_op h) = Normal b /\
  (forall this, reachable h -> allocated h this = true ->
     fst (Selector.combine this left_op symbol right_op h) = Normal this /\
     combinator (deref (snd (Selector.combine this left_op symbol right_op h)) this)
       = Some symbol) /\
  (reachable h -> allocated h left_op = true -> allocated h right_op = true ->
     combinator (deref h' b) = Some symbol /\
     (symbol <> "" ->
      forall n rendered_right,
        Selector.stringify n right_op h = Some (rendered_right, h) ->
        Selector.stringify (S n) b h' =
          Some (fragments_rule truthy h (deref h left_op)
                +^ " " +^ symbol +^ " " +^ rendered_right, h'))).
Proof.
  intros b h'. split_and!.
  - apply facade_combine_normal.
  - intros this Hreach Ha.
    destruct (heap_wf_deref h this (reachable_wf h Hreach) Ha) as [Hok _].
    pose proof (ok_index _ Hok).
    rewrite combine_result by (assumption || apply Hok || lia).
    cbn [fst snd]. now rewrite deref_store_eq.
  - intros Hreach H1 H2. split.
    + unfold h', b. now rewrite facade_combine_deref.
    + intros Hs n rendered_right Hr.
      now apply facade_combine_render; [apply reachable_wf|..].
Qed.

Lemma combine_any_symbol_witness :
  let h := heap_after [CNew; CFragment FElement 0%nat "ul"; CNew; CFragment FElement 1%nat "li"] in
  let h' := snd (cssSelectorBuilder.combine 0%nat "<=>" 1%nat h) in
  reachable h /\ allocated h 0%nat = true /\ allocated h 1%nat = true /\ "<=>" <> "" /\
  Selector.stringify 1 1%nat h = Some ("li", h) /\
  Selector.stringify 2 2%nat h' = Some ("ul <=> li", h').
Proof.
  intros h h'.
  assert (Hr : reachable h)
    by (exists [CNew; CFragment FElement 0%nat "ul"; CNew; CFragment FElement 1%nat "li"];
        vm_compute; reflexivity).
  assert (H0 : allocated h 0%nat = true) by reflexivity.
  assert (H1 : allocated h 1%nat = true) by reflexivity.
  assert (Hs : "<=>" <> "") by discriminate.
  assert (Hright : Selector.stringify 1 1%nat h = Some ("li", h))
    by (vm_compute; reflexivity).
  split_and!; try assumption.
  exact (proj2 (proj2 (proj2 (combine_any_symbol h 0%nat 1%nat "<=>")) Hr H0 H1)
           Hs 1%nat "li" Hright).
Defined.

(** C5, as stated, fails for the empty string: [combine(element('a'), '',
    element('b'))] is accepted, but the rendering is [a]: neither the
    combinator with its two spaces nor the right operand appears. *)
Lemma combine_any_symbol_counterexample :
  let h := heap_after [CNew; CFragment FElement 0%nat "a"; CNew; CFragment FElement 1%nat "b"] in
  let h' := snd (cssSelectorBuilder.combine 0%nat "" 1%nat h) in
  Selector.stringify 1 0%nat h = Some ("a", h) /\
  Selector.stringify 1 1%nat h = Some ("b", h) /\
  fst (cssSelectorBuilder.combine 0%nat "" 1%nat h) = Normal 2%nat /\
  combinator (deref h' 2%nat) = Some "" /\
  selector2 (deref h' 2%nat) = Some 1%nat /\
  Selector.stringify 2 2%nat h' = Some ("a", h') /\
  "a" <> "a" +^ " " +^ "" +^ " " +^ "b".
Proof. cbv zeta. split_and!; try discriminate; vm_compute; reflexivity. Qed.

(** ** The cursor after [combine] *)

(** The instance returned by the facade's [combine] has the cursor of its
    left operand, not the rank of ["combine"]. *)
Lemma facade_combine_cursor (h : heap) (left_op : oref) (symbol : string) (right_op : oref) :
  allocated h left_op = true ->
  index_of_selector
    (deref (snd (cssSelectorBuilder.combine left_op symbol right_op h)) (length (objs h)))
  = index_of_selector (deref h left_op).
Proof. intros H1. now rewrite facade_combine_deref. Qed.

(** C6 does not hold of the code.  [combine] runs the ordering check for
    ["combine"], which writes rank 6 into the cursor, and then
    [Object.assign] overwrites the cursor with the left operand's: after
    [combine(element('div'), '+', element('p'))] the cursor is 0, [id('x')]
    returns normally and the selector renders as [div#x + p]. *)
Theorem combine_not_terminal :
  let h := heap_after [CNew; CFragment FElement 0%nat "div";
                      CNew; CFragment FElement 1%nat "p"] in
  let h1 := snd (cssSelectorBuilder.combine 0%nat "+" 1%nat h) in
  let h2 := snd (Selector.id 2%nat "x" h1) in
  fst (cssSelectorBuilder.combine 0%nat "+" 1%nat h) = Normal 2%nat /\
  index_of_selector (deref h1 2%nat) = 0 /\
  fst (Selector.id 2%nat "x" h1) = Normal 2%nat /\
  Selector.stringify 2 2%nat h2 = Some ("div#x + p", h2).
Proof. cbv zeta. split_and!; vm_compute; reflexivity. Qed.

(** ** Spacing and nesting *)

(** C7, as amended: whenever [stringify] renders a combinator, that is for
    a non-empty combinator and a right operand, the result is the fragments
    of the instance, one space, the combinator, one space and the rendering of
    the right operand, whatever the combinator is; for the descendant
    combinator, itself a space, that is three consecutive spaces between the
    two renderings.  And [combine(A, op1, combine(B, op2, C))], for non-empty
    [op1] and [op2] and for [A] and [B] without right operands of their own,
    renders as the rendering of [A], [op1], the rendering of [B], [op2] and
    the rendering of [C], each combinator between single spaces. *)
Theorem combinator_spacing (h : heap) (A B C : oref) (op1 op2 : string)
    (n : nat) (rA rB rC : string) :
  reachable h ->
  allocated h A = true -> allocated h B = true -> allocated h C = true ->
  op1 <> "" -> op2 <> "" ->
  Selector.stringify 1 A h = Some (rA, h) ->
  Selector.stringify 1 B h = Some (rB, h) ->
  Selector.stringify n C h = Some (rC, h) ->
  (forall this c next m rest,
     combinator (deref h this) = Some c -> c <> "" ->
     selector2 (deref h this) = Some next ->
     Selector.stringify m next h = Some (rest, h) ->
     Selector.stringify (S m) this h =
       Some (fragments_rule truthy h (deref h this) +^ " " +^ c +^ " " +^ rest, h) /\
     (c = " " ->
      Selector.stringify (S m) this h =
        Some (fragments_rule truthy h (deref h this) +^ "   " +^ rest, h))) /\
  (let nested :=
     inner <- cssSelectorBuilder.combine B op2 C ;;
     cssSelectorBuilder.combine A op1 inner in
   let outer := S (length (objs h)) in
   fst (nested h) = Normal outer /\
   Selector.stringify (S (S n)) outer (snd (nested h)) =
     Some (rA +^ " " +^ op1 +^ " " +^ rB +^ " " +^ op2 +^ " " +^ rC, snd (nested h))).
Proof.
  intros Hreach HA HB HC H1 H2 HrA HrB HrC. split.
  - intros this c next m rest Ec Hc En Hr.
    assert (E : Selector.stringify (S m) this h =
      Some (fragments_rule truthy h (deref h this) +^ " " +^ c +^ " " +^ rest, h)).
    { rewrite stringify_unfold. cbv zeta. rewrite Ec, En, Hr.
      rewrite (truthy_Some c Hc). cbn [str]. now rewrite !append_assoc. }
    split; [exact E|]. intros ->. rewrite E. now rewrite !append_assoc.
  - cbv zeta. unfold bind.
    pose proof (reachable_wf h Hreach) as Hwf.
    pose proof (facade_combine_normal h B op2 C) as E1.
    pose proof (facade_combine_render h B op2 C n rC Hwf HB HC H2 HrC) as R1.
    pose proof (facade_combine_extends h B op2 C HB) as He.
    pose proof (facade_combine_reachable h B op2 C Hreach HB HC) as Hreach1.
    cbv zeta in R1.
    rewrite (surjective_pairing (cssSelectorBuilder.combine B op2 C h)), E1.
    set (h1 := snd (cssSelectorBuilder.combine B op2 C h)) in *.
    assert (Hlen : length (objs h1) = S (length (objs h))).
    { unfold h1. rewrite facade_combine_result by assumption. simpl.
      rewrite length_app. simpl. lia. }
    assert (HA1 : allocated h1 A = true) by now apply (extends_allocated h).
    assert (Hin : allocated h1 (length (objs h)) = true)
      by (apply allocated_lt; lia).
    pose proof (reachable_wf h1 Hreach1) as Hwf1.
    pose proof (facade_combine_normal h1 A op1 (length (objs h))) as E2.
    pose proof (facade_combine_render h1 A op1 (length (objs h)) (S n) _
                  Hwf1 HA1 Hin H1 R1) as R2.
    cbv zeta in R2. rewrite Hlen in E2, R2.
    split; [exact E2|]. rewrite R2. f_equal. f_equal.
    apply stringify_one in HrA, HrB. subst rA rB.
    rewrite (extends_deref h h1) by assumption.
    rewrite (extends_fragments truthy h h1)
      by (assumption || apply (heap_wf_deref h A Hwf HA)).
    now rewrite !append_assoc.
Qed.

Lemma combinator_spacing_witness :
  let h := heap_after documented_operands in
  let nested :=
    inner <- cssSelectorBuilder.combine 1%nat "~" 4%nat ;;
    cssSelectorBuilder.combine 0%nat "+" inner in
  reachable h /\
  Selector.stringify 1 0%nat h = Some ("div#main.container.draggable", h) /\
  Selector.stringify 1 1%nat h = Some ("table#data", h) /\
  Selector.stringify 2 4%nat h =
    Some ("tr:nth-of-type(even)   td:nth-of-type(even)", h) /\
  Selector.stringify 4 6%nat (snd (nested h)) =
    Some ("div#main.container.draggable + table#data ~ tr:nth-of-type(even)   td:nth-of-type(even)",
          snd (nested h)).
Proof.
  intros h nested.
  assert (Hr : reachable h) by (exists documented_operands; vm_compute; reflexivity).
  assert (HA : Selector.stringify 1 0%nat h = Some ("div#main.container.draggable", h))
    by (vm_compute; reflexivity).
  assert (HB : Selector.stringify 1 1%nat h = Some ("table#data", h))
    by (vm_compute; reflexivity).
  assert (HC : Selector.stringify 2 4%nat h =
                 Some ("tr:nth-of-type(even)   td:nth-of-type(even)", h))
    by (vm_compute; reflexivity).
  split_and!; try assumption.
  assert (H1 : "+" <> "") by discriminate.
  assert (H2 : "~" <> "") by discriminate.
  exact (proj2 (proj2 (combinator_spacing h 0%nat 1%nat 4%nat "+" "~" 2%nat _ _ _
                         Hr eq_refl eq_refl eq_refl H1 H2 HA HB HC))).
Defined.

(** C7 as stated does not hold of the code.  With the left operand [a + b],
    itself a combined selector, [combine(a + b, '>', combine(B, '~', C))]
    renders as [a > B ~ C]: the nesting is not rendered as constructed.  And
    the empty combinator is not surrounded by spaces: [combine(B, '', C)]
    renders as [B]. *)
Lemma combinator_spacing_counterexample :
  let h := facade_heap_after
             [FStart FElement "a"; FStart FElement "b"; FCombine 0%nat "+" 1%nat;
              FStart FElement "B"; FStart FElement "C"] in
  let nested :=
    inner <- cssSelectorBuilder.combine 3%nat "~" 4%nat ;;
    cssSelectorBuilder.combine 2%nat ">" inner in
  let blank := cssSelectorBuilder.combine 3%nat "" 4%nat in
  Selector.stringify 2 2%nat h = Some ("a + b", h) /\
  Selector.stringify 1 3%nat h = Some ("B", h) /\
  Selector.stringify 1 4%nat h = Some ("C", h) /\
  fst (nested h) = Normal 6%nat /\
  Selector.stringify 4 6%nat (snd (nested h)) = Some ("a > B ~ C", snd (nested h)) /\
  fst (blank h) = Normal 5%nat /\
  Selector.stringify 3 5%nat (snd (blank h)) = Some ("B", snd (blank h)).
Proof. cbv zeta. split_and!; vm_compute; reflexivity. Qed.

(** ** [stringify] returns *)

Lemma chain_ends_stringify (n : nat) (h : heap) (this : oref) :
  chain_ends n h this = true ->
  exists result, Selector.stringify n this h = Some (result, h).
Proof.
  revert this. induction n as [|n IH]; intros this H; [discriminate H|].
  cbn [chain_ends] in H. cbv zeta in H.
  rewrite stringify_unfold. cbv zeta.
  destruct (truthy (combinator (deref h this))); [|eauto].
  destruct (selector2 (deref h this)) as [next|]; [|eauto].
  destruct (IH next H) as [rest ->]. eauto.
Qed.

Lemma chain_ends_mono (n m : nat) (h : heap) (this : oref) :
  (n <= m)%nat -> chain_ends n h this = true -> chain_ends m h this = true.
Proof.
  revert m this. induction n as [|n IH]; intros m this Hle H; [discriminate H|].
  destruct m as [|m]; [lia|]. cbn [chain_ends] in *. cbv zeta in *.
  destruct (truthy (combinator (deref h this))); [|reflexivity].
  destruct (selector2 (deref h this)) as [next|]; [|reflexivity].
  apply IH; [lia|assumption].
Qed.

(** When right operands are older than the instances that refer to them,
    every chain ends. *)
Lemma older_chain_ends (h : heap) (this : oref) :
  older_operands h -> chain_ends (S this) h this = true.
Proof.
  intros Hold. induction this as [this IH] using lt_wf_ind.
  cbn [chain_ends]. cbv zeta.
  destruct (truthy (combinator (deref h this))) eqn:Et; [|reflexivity].
  destruct (selector2 (deref h this)) as [next|] eqn:En; [|reflexivity].
  destruct (objs h !! this) as [s|] eqn:El.
  - apply lookup_deref in El as [Ed _]. subst s.
    assert (Hlt : (next < this)%nat).
    { apply (Hold this (deref h this) next); [|exact En].
      apply list_lookup_lookup_total. unfold deref in *.
      destruct (objs h !! this) eqn:E'; [eauto|].
      rewrite list_lookup_total_alt, E' in Et. discriminate Et. }
    apply (chain_ends_mono (S next)); [lia|]. now apply IH.
  - unfold deref in Et. rewrite list_lookup_total_alt, El in Et. discriminate Et.
Qed.

(** A fragment call rewrites at most the receiver, and keeps its right
    operand. *)
Lemma invoke_objs (f : Fragment) (this : oref) (value : string) (h : heap) :
  allocated h this = true -> selectors (deref h this) = SELECTORS ->
  exists s',
    objs (snd (invoke f this value h)) = <[this := s']> (objs h) /\
    selector2 s' = selector2 (deref h this).
Proof.
  intros Ha Hs. rewrite invoke_eq by assumption.
  destruct (_ >? _).
  - exists (deref h this). split; [|reflexivity]. cbn [snd]. symmetry.
    apply list_insert_id, allocated_lookup, Ha.
  - unfold fragment_body. cbv zeta.
    destruct f;
      repeat match goal with
             | |- context [truthy ?v] => destruct (truthy v)
             end;
      cbn [snd]; eexists; (split; [reflexivity|reflexivity]).
Qed.

Lemma older_operands_invoke (f : Fragment) (this : oref) (value : string) (h : heap) :
  heap_wf h -> allocated h this = true -> older_operands h ->
  older_operands (snd (invoke f this value h)).
Proof.
  intros Hwf Ha Hold.
  destruct (heap_wf_deref h this Hwf Ha) as [Hok _].
  destruct (invoke_objs f this value h Ha (ok_selectors _ Hok)) as (s' & Eo & E2).
  intros r s next Hl En. rewrite Eo in Hl.
  apply list_lookup_insert_Some in Hl as [(-> & <- & Hlt) | (Hne & Hl)].
  - apply (Hold r (deref h r) next); [now apply allocated_lookup|congruence].
  - now apply (Hold r s next).
Qed.

Lemma older_operands_new (h : heap) :
  older_operands h -> older_operands (snd (new_Selector h)).
Proof.
  intros Hold r s next Hl En. simpl in Hl.
  apply lookup_app_Some in Hl as [Hl | [Hle Hl]]; [now apply (Hold r s next)|].
  destruct (r - length (objs h))%nat as [|k]; [|destruct k; discriminate Hl].
  injection Hl as <-. discriminate En.
Qed.

Lemma older_operands_facade_combine (h : heap) (left_op : oref) (c : string) (right_op : oref) :
  allocated h left_op = true -> allocated h right_op = true ->
  older_operands h ->
  older_operands (snd (cssSelectorBuilder.combine left_op c right_op h)).
Proof.
  intros H1 H2 Hold r s next Hl En.
  rewrite facade_combine_result in Hl by assumption. simpl in Hl.
  apply lookup_app_Some in Hl as [Hl | [Hle Hl]]; [now apply (Hold r s next)|].
  destruct (r - length (objs h))%nat as [|k]; [|destruct k; discriminate Hl].
  injection Hl as <-. simpl in En. injection En as <-.
  apply allocated_lt in H2. lia.
Qed.

Lemma facade_start_eq (f : Fragment) (value : string) (h : heap) :
  facade_start f value h = invoke f (length (objs h)) value (snd (new_Selector h)).
Proof. destruct f; reflexivity. Qed.

Lemma facade_call_invariant (c : facade_call) (h h' : heap) :
  heap_wf h /\ older_operands h -> exec_facade_call c h = Some h' ->
  heap_wf h' /\ older_operands h'.
Proof.
  intros [Hwf Hold] H. destruct c as [f v|f this v|l c r]; simpl in H.
  - injection H as <-. rewrite facade_start_eq. split.
    + apply heap_wf_invoke; [now apply heap_wf_new|apply new_Selector_allocated].
    + apply older_operands_invoke;
        [now apply heap_wf_new|apply new_Selector_allocated|now apply older_operands_new].
  - destruct (allocated h this) eqn:Ha; [|discriminate]. injection H as <-.
    split; [now apply heap_wf_invoke|now apply older_operands_invoke].
  - destruct (allocated h l) eqn:Hl; [|discriminate].
    destruct (allocated h r) eqn:Hr; [|discriminate]. injection H as <-.
    split; [|now apply older_operands_facade_combine].
    apply (heap_wf_exec [CNew; CCombine (length (objs h)) l c r] h);
      [assumption|now apply facade_combine_steps].
Qed.

Lemma facade_reachable_older (h : heap) : facade_reachable h -> older_operands h.
Proof.
  intros [cs H].
  assert (Hinv : heap_wf empty_heap /\ older_operands empty_heap).
  { split; [apply heap_wf_empty|]. intros r s next Hl. destruct r; discriminate Hl. }
  revert H Hinv. generalize empty_heap. induction cs as [|c cs IH]; intros h0 H Hinv.
  - injection H as <-. apply Hinv.
  - simpl in H. destruct (exec_facade_call c h0) as [h1|] eqn:E; [|discriminate].
    apply (IH h1 H). eapply facade_call_invariant; eassumption.
Qed.

(** C8, as amended: for every heap and every instance whose chain of rendered
    right operands ends, [stringify] returns a string, the heap it leaves is
    the heap it was given, and the string is the same for every sufficient
    bound on the recursion depth and for every repetition of the call.  The
    chain ends for every instance of a heap built with the facade's entry
    points, its [combine] and chained fragment calls. *)
Theorem stringify_total (h : heap) (this : oref) (n : nat) :
  (facade_reachable h -> chain_ends (S this) h this = true) /\
  (chain_ends n h this = true ->
   exists result,
     forall fuel, (n <= fuel)%nat ->
       Selector.stringify fuel this h = Some (result, h) /\
       forall fuel', (n <= fuel')%nat ->
         match Selector.stringify fuel this h with
         | Some (_, h1) => Selector.stringify fuel' this h1 = Some (result, h)
         | None => False
         end).
Proof.
  split.
  - intros Hf. now apply older_chain_ends, facade_reachable_older.
  - intros H. destruct (chain_ends_stringify n h this H) as [result E].
    exists result. intros fuel Hle.
    pose proof (stringify_mono n fuel this h _ Hle E) as E1.
    split; [exact E1|]. intros fuel' Hle'. rewrite E1.
    exact (stringify_mono n fuel' this h _ Hle' E).
Qed.

Lemma stringify_total_witness :
  let h := facade_heap_after
             [FStart FElement "tr"; FChain FPseudoClass 0%nat "nth-of-type(even)";
              FStart FElement "td"; FChain FPseudoClass 1%nat "nth-of-type(even)";
              FCombine 0%nat " " 1%nat] in
  facade_reachable h /\
  chain_ends 3 h 2%nat = true /\
  Selector.stringify 7 2%nat h =
    Some ("tr:nth-of-type(even)   td:nth-of-type(even)", h).
Proof.
  intros h.
  assert (Hf : facade_reachable h).
  { exists [FStart FElement "tr"; FChain FPseudoClass 0%nat "nth-of-type(even)";
            FStart FElement "td"; FChain FPseudoClass 1%nat "nth-of-type(even)";
            FCombine 0%nat " " 1%nat].
    vm_compute. reflexivity. }
  pose proof (proj1 (stringify_total h 2%nat 3) Hf) as Hc.
  split_and!; [exact Hf|exact Hc|].
  destruct (proj2 (stringify_total h 2%nat 3) Hc) as [result Hres].
  destruct (Hres 7%nat ltac:(lia)) as [E _].
  rewrite E. f_equal. f_equal.
  assert (E2 : Selector.stringify 7 2%nat h =
                 Some ("tr:nth-of-type(even)   td:nth-of-type(even)", h))
    by (vm_compute; reflexivity).
  congruence.
Defined.

(** C8, as stated, fails: an instance can be its own right operand.  After
    [s = element('a')] and [s.combine(s, '+', s)], [stringify] on [s] calls
    itself on [s] without end, so it returns no string for any bound on the
    recursion depth. *)
Lemma stringify_total_counterexample :
  let h := heap_after [CNew; CFragment FElement 0%nat "a"; CCombine 0%nat 0%nat "+" 0%nat] in
  reachable h /\
  selector2 (deref h 0%nat) = Some 0%nat /\
  forall fuel, Selector.stringify fuel 0%nat h = None.
Proof.
  intros h. split_and!.
  - exists [CNew; CFragment FElement 0%nat "a"; CCombine 0%nat 0%nat "+" 0%nat].
    vm_compute. reflexivity.
  - vm_compute. reflexivity.
  - intros fuel. induction fuel as [|fuel IH]; [reflexivity|].
    rewrite stringify_unfold. cbv zeta.
    replace (deref h 0%nat) with
      (mkSelector 6 (Some "a") null 0%nat 1%nat 2%nat null SELECTORS (Some "+") (Some 0%nat))
      by (vm_compute; reflexivity).
    cbn [combinator selector2 truthy]. now rewrite IH.
Qed.

(** ** Fragment chains on a builder *)

Lemma array_store_array_eq (h : heap) (a : aref) (l : list string) :
  (a < length (arrs h))%nat -> array (store_array a l h) a = l.
Proof. intros H. now apply list_lookup_total_insert_eq. Qed.

Lemma array_store_array_ne (h : heap) (a a' : aref) (l : list string) :
  a <> a' -> array (store_array a l h) a' = array h a'.
Proof. intros H. now apply list_lookup_total_insert_ne. Qed.

Lemma owns_new (h : heap) :
  owns (snd (new_Selector h)) (length (objs h))
    (mkSelector 0 null null (length (arrs h)) (S (length (arrs h)))
       (S (S (length (arrs h)))) null SELECTORS null None) [] [] [].
Proof.
  split; try (simpl; rewrite ?length_app; simpl; lia).
  - apply new_Selector_allocated.
  - apply new_Selector_deref.
  - reflexivity.
  - unfold array. simpl. rewrite lookup_total_app_r by lia.
    now rewrite Nat.sub_diag.
  - unfold array. simpl. rewrite lookup_total_app_r by lia.
    now replace (S (length (arrs h)) - length (arrs h))%nat with 1%nat by lia.
  - unfold array. simpl. rewrite lookup_total_app_r by lia.
    now replace (S (S (length (arrs h))) - length (arrs h))%nat with 2%nat by lia.
Qed.

Lemma invoke_owns (f : Fragment) (value : string) (h : heap) (n : oref)
    (s : Selector) (cs ats ps : list string) :
  owns h n s cs ats ps -> accepts f s = true ->
  fst (invoke f n value h) = Normal n /\
  owns (snd (invoke f n value h)) n (apply_fragment f value s)
    (pushed f FClass value cs) (pushed f FAttr value ats)
    (pushed f FPseudoClass value ps).
Proof.
  intros [Ha Ed Es Hc Hat Hp (D1 & D2 & D3) Ecs Eats Eps] Hacc.
  apply andb_prop in Hacc as [Hle Hfield]. apply Z.leb_le in Hle.
  rewrite invoke_eq by (assumption || now rewrite Ed).
  rewrite Ed.
  destruct (Z.gtb_spec (index_of_selector s) (fragment_rank f)) as [Hgt|_]; [lia|].
  unfold fragment_body. cbv zeta. rewrite Ed.
  destruct f; cbn [single_field] in Hfield;
    try (apply negb_true_iff in Hfield;
         unfold checked;
         cbn [set_index_of_selector element_val id_val pseudoElement_val];
         rewrite Hfield);
    cbn [fst snd apply_fragment pushed]; (split; [reflexivity|]);
    split;
    cbn [store store_array objs arrs checked set_index_of_selector
           set_element_val set_id_val set_pseudoElement_val
           classes attributes pseudoClasses selectors];
    rewrite ?length_insert; try assumption; try (split_and!; assumption);
    try (rewrite ?allocated_store_array, ?allocated_store; exact Ha);
    try (apply (deref_store_eq h n _ Ha));
    try match goal with
        | |- deref (store_array ?a ?l ?h') n = _ =>
            change (deref (store_array a l h') n) with (deref h' n);
            apply (deref_store_eq h n _ Ha)
        end;
    try (rewrite <- Ecs; first
           [ now apply list_lookup_total_insert_eq
           | now apply list_lookup_total_insert_ne ]);
    try (rewrite <- Eats; first
           [ now apply list_lookup_total_insert_eq
           | now apply list_lookup_total_insert_ne ]);
    try (rewrite <- Eps; first
           [ now apply list_lookup_total_insert_eq
           | now apply list_lookup_total_insert_ne ]).
Qed.

Lemma owns_stringify (h : heap) (n : oref) (s : Selector) (cs ats ps : list string)
    (fuel : nat) :
  owns h n s cs ats ps -> truthy (combinator s) = false ->
  Selector.stringify (S fuel) n h = Some (fragments_text truthy s cs ats ps, h).
Proof.
  intros [Ha Ed Es Hc Hat Hp _ Ecs Eats Eps] Hcomb.
  rewrite stringify_unfold. cbv zeta. rewrite Ed, Hcomb.
  unfold fragments_rule. now rewrite Ecs, Eats, Eps.
Qed.

(** ** The documented chains *)

(** C9: on every heap, [element('a').attr('href$=".png"').pseudoClass('focus')]
    returns a new instance that renders as [a[href$=".png"]:focus], and
    [id('main').class('container').class('editable')] returns a new instance
    that renders as [#main.container.editable]; each facade entry point
    creates the instance and applies its fragment to it. *)
Theorem facade_examples (h : heap) :
  (let chain :=
     s <- cssSelectorBuilder.element "a" ;;
     s <- Selector.attr s ("href$=" +^ dquote +^ ".png" +^ dquote) ;;
     Selector.pseudoClass s "focus" in
   fst (chain h) = Normal (length (objs h)) /\
   forall fuel,
     Selector.stringify (S fuel) (length (objs h)) (snd (chain h)) =
     Some ("a[href$=" +^ dquote +^ ".png" +^ dquote +^ "]:focus", snd (chain h))) /\
  (let chain :=
     s <- cssSelectorBuilder.id "main" ;;
     s <- Selector.class s "container" ;;
     Selector.class s "editable" in
   fst (chain h) = Normal (length (objs h)) /\
   forall fuel,
     Selector.stringify (S fuel) (length (objs h)) (snd (chain h)) =
     Some ("#main.container.editable", snd (chain h))).
Proof.
  pose proof (owns_new h) as O0.
  set (n := length (objs h)) in *.
  set (h0 := snd (new_Selector h)) in *.
  split; cbv zeta.
  - destruct (invoke_owns FElement "a" _ _ _ _ _ _ O0 eq_refl) as [E1 O1].
    destruct (invoke_owns FAttr ("href$=" +^ dquote +^ ".png" +^ dquote)
                _ _ _ _ _ _ O1 eq_refl) as [E2 O2].
    destruct (invoke_owns FPseudoClass "focus" _ _ _ _ _ _ O2 eq_refl) as [E3 O3].
    cbn [invoke] in *.
    unfold cssSelectorBuilder.element, bind.
    change (new_Selector h) with (Normal n, h0). cbv iota beta.
    rewrite (surjective_pairing (Selector.element n "a" h0)), E1. cbv iota beta.
    rewrite (surjective_pairing (Selector.attr n _ _)), E2. cbv iota beta.
    split; [exact E3|]. intros fuel.
    now rewrite (owns_stringify _ _ _ _ _ _ fuel O3 eq_refl).
  - destruct (invoke_owns FId "main" _ _ _ _ _ _ O0 eq_refl) as [E1 O1].
    destruct (invoke_owns FClass "container" _ _ _ _ _ _ O1 eq_refl) as [E2 O2].
    destruct (invoke_owns FClass "editable" _ _ _ _ _ _ O2 eq_refl) as [E3 O3].
    cbn [invoke] in *.
    unfold cssSelectorBuilder.id, bind.
    change (new_Selector h) with (Normal n, h0). cbv iota beta.
    rewrite (surjective_pairing (Selector.id n "main" h0)), E1. cbv iota beta.
    rewrite (surjective_pairing (Selector.class n _ _)), E2. cbv iota beta.
    split; [exact E3|]. intros fuel.
    now rewrite (owns_stringify _ _ _ _ _ _ fuel O3 eq_refl).
Qed.

(** * Properties of the lazy sequences *)

(** ** [mergeSortedSequences] *)

Lemma merge_lists_nil_r (l1 : list Z) : merge_lists l1 [] = l1.
Proof. now destruct l1. Qed.

Lemma merge_lists_cons (x y : Z) (l1 l2 : list Z) :
  merge_lists (x :: l1) (y :: l2) =
  if x <? y then x :: merge_lists l1 (y :: l2) else y :: merge_lists (x :: l1) l2.
Proof. reflexivity. Qed.

(** The loop, started on the heads of two lists, yields their merge. *)
Lemma merge_loop_lists (l1 l2 : list Z) (fuel : nat) :
  (length l1 + length l2 < fuel)%nat ->
  merge_loop fuel (fst (Iterator.next l1)) (fst (Iterator.next l2))
    (snd (Iterator.next l1)) (snd (Iterator.next l2))
  = Some (map Some (merge_lists l1 l2)).
Proof.
  revert l1 l2. induction fuel as [|fuel IH]; intros l1 l2 Hlt; [lia|].
  destruct l1 as [|x l1], l2 as [|y l2].
  - reflexivity.
  - pose proof (IH [] l2 ltac:(simpl in *; lia)) as E.
    cbn [merge_loop Iterator.next fst snd Iterator.done Iterator.value negb orb js_lt] in *.
    rewrite (surjective_pairing (Iterator.next l2)), E.
    destruct l2; reflexivity.
  - pose proof (IH l1 [] ltac:(simpl in *; lia)) as E.
    cbn [merge_loop Iterator.next fst snd Iterator.done Iterator.value negb orb js_lt] in *.
    rewrite (surjective_pairing (Iterator.next l1)), E.
    rewrite merge_lists_nil_r. reflexivity.
  - rewrite merge_lists_cons.
    cbn [merge_loop Iterator.next fst snd Iterator.done Iterator.value negb orb js_lt].
    destruct (x <? y); cbn [orb].
    + rewrite (surjective_pairing (Iterator.next l1)).
      pose proof (IH l1 (y :: l2) ltac:(simpl in *; lia)) as E.
      cbn [Iterator.next fst snd] in E. rewrite E. reflexivity.
    + rewrite (surjective_pairing (Iterator.next l2)).
      pose proof (IH (x :: l1) l2 ltac:(simpl in *; lia)) as E.
      cbn [Iterator.next fst snd] in E. rewrite E. reflexivity.
Qed.

Lemma merge_lists_perm (l1 l2 : list Z) : Permutation (merge_lists l1 l2) (l1 ++ l2).
Proof.
  revert l2. induction l1 as [|x l1 IH1]; intros l2.
  - now destruct l2.
  - induction l2 as [|y l2 IH2].
    + now rewrite merge_lists_nil_r, app_nil_r.
    + rewrite merge_lists_cons. destruct (x <? y).
      * simpl. now rewrite IH1.
      * rewrite IH2. apply (Permutation_middle (x :: l1) l2 y).
Qed.

Lemma merge_lists_sublist_l (l1 l2 : list Z) : sublist l1 (merge_lists l1 l2).
Proof.
  revert l2. induction l1 as [|x l1 IH1]; intros l2.
  - apply sublist_nil_l.
  - induction l2 as [|y l2 IH2].
    + now rewrite merge_lists_nil_r.
    + rewrite merge_lists_cons. destruct (x <? y).
      * now apply sublist_skip.
      * now apply sublist_cons.
Qed.

Lemma merge_lists_sublist_r (l1 l2 : list Z) : sublist l2 (merge_lists l1 l2).
Proof.
  revert l2. induction l1 as [|x l1 IH1]; intros l2.
  - now destruct l2.
  - induction l2 as [|y l2 IH2].
    + apply sublist_nil_l.
    + rewrite merge_lists_cons. destruct (x <? y).
      * now apply sublist_cons.
      * now apply sublist_skip.
Qed.

Lemma merge_lists_HdRel (a : Z) (l1 l2 : list Z) :
  HdRel Z.le a l1 -> HdRel Z.le a l2 -> HdRel Z.le a (merge_lists l1 l2).
Proof.
  intros H1 H2. destruct l1 as [|x l1], l2 as [|y l2]; try assumption.
  rewrite merge_lists_cons. destruct (x <? y); constructor;
    [now inversion H1 | now inversion H2].
Qed.

Lemma merge_lists_sorted (l1 l2 : list Z) :
  Sorted Z.le l1 -> Sorted Z.le l2 -> Sorted Z.le (merge_lists l1 l2).
Proof.
  revert l2. induction l1 as [|x l1 IH1]; intros l2 H1 H2.
  - now destruct l2.
  - induction l2 as [|y l2 IH2].
    + now rewrite merge_lists_nil_r.
    + rewrite merge_lists_cons.
      inversion H1 as [|? ? S1 R1]; inversion H2 as [|? ? S2 R2]; subst.
      destruct (Z.ltb_spec x y).
      * constructor; [now apply IH1|].
        apply merge_lists_HdRel; [assumption|]. constructor. lia.
      * constructor; [now apply IH2|].
        apply merge_lists_HdRel; [|assumption]. constructor. lia.
Qed.

(** X1: on two finite sources, whatever their order, [mergeSortedSequences]
    yields every value of both sources exactly once (a permutation of their
    concatenation), never [undefined], and keeps the values of each source in
    their original order. *)
Theorem mergeSortedSequences_interleaves (source1 source2 : list Z) (fuel : nat) :
  (length source1 + length source2 < fuel)%nat ->
  exists out,
    mergeSortedSequences fuel source1 source2 = Some (map Some out) /\
    Permutation out (source1 ++ source2) /\
    sublist source1 out /\ sublist source2 out.
Proof.
  intros Hfuel. exists (merge_lists source1 source2). split_and!.
  - unfold mergeSortedSequences.
    rewrite (surjective_pairing (Iterator.next source1)).
    rewrite (surjective_pairing (Iterator.next source2)).
    now apply merge_loop_lists.
  - apply merge_lists_perm.
  - apply merge_lists_sublist_l.
  - apply merge_lists_sublist_r.
Qed.

Lemma mergeSortedSequences_interleaves_witness :
  (length [1; 3; 5]%Z + length [-1]%Z < 5)%nat /\
  exists out,
    mergeSortedSequences 5 [1; 3; 5] [-1] = Some (map Some out) /\
    Permutation out ([1; 3; 5] ++ [-1]) /\
    sublist [1; 3; 5] out /\ sublist [-1] out.
Proof.
  assert (H : (length [1; 3; 5]%Z + length [-1]%Z < 5)%nat) by (simpl; lia).
  split; [exact H|].
  exact (mergeSortedSequences_interleaves [1; 3; 5] [-1] 5 H).
Defined.

(** X2: when both sources are sorted, the merged sequence is sorted. *)
Theorem mergeSortedSequences_sorted (source1 source2 : list Z) (fuel : nat) :
  (length source1 + length source2 < fuel)%nat ->
  Sorted Z.le source1 -> Sorted Z.le source2 ->
  exists out,
    mergeSortedSequences fuel source1 source2 = Some (map Some out) /\
    Sorted Z.le out.
Proof.
  intros Hfuel H1 H2. exists (merge_lists source1 source2). split.
  - unfold mergeSortedSequences.
    rewrite (surjective_pairing (Iterator.next source1)).
    rewrite (surjective_pairing (Iterator.next source2)).
    now apply merge_loop_lists.
  - now apply merge_lists_sorted.
Qed.

Lemma mergeSortedSequences_sorted_witness :
  (length [1; 3; 5]%Z + length [2; 4; 6]%Z < 7)%nat /\
  Sorted Z.le [1; 3; 5] /\ Sorted Z.le [2; 4; 6] /\
  exists out, mergeSortedSequences 7 [1; 3; 5] [2; 4; 6] = Some (map Some out) /\
              Sorted Z.le out.
Proof.
  assert (H : (length [1; 3; 5]%Z + length [2; 4; 6]%Z < 7)%nat) by (simpl; lia).
  assert (S1 : Sorted Z.le [1; 3; 5]) by (repeat constructor; lia).
  assert (S2 : Sorted Z.le [2; 4; 6]) by (repeat constructor; lia).
  split_and!; [exact H|exact S1|exact S2|].
  exact (mergeSortedSequences_sorted [1; 3; 5] [2; 4; 6] 7 H S1 S2).
Defined.

(** ** Trees *)

(** Induction on a tree with the property available for every child. *)
Lemma Tree_induction {A} (P : Tree A -> Prop) :
  (forall a, P (Node a None)) ->
  (forall a cs, Forall P cs -> P (Node a (Some cs))) ->
  forall t, P t.
Proof.
  intros Hleaf Hnode.
  fix IH 1. intros [a [cs|]]; [|apply Hleaf].
  apply Hnode. induction cs as [|c cs IHcs]; constructor; [apply IH|exact IHcs].
Qed.

Lemma depth_steps_eq {A} (t : Tree A) :
  depth_steps t = S (foldr Nat.add O (map (fun c => S (depth_steps c)) (child_nodes t))).
Proof. now destruct t as [a [cs|]]. Qed.

Lemma preorder_eq {A} (t : Tree A) :
  preorder t = t :: flat_map preorder (child_nodes t).
Proof. now destruct t as [a [cs|]]. Qed.

(** The loop with the record [(node, child_i)] on top of the stack yields the
    depth-first order of the children from [child_i] on, then goes on with the
    rest of the stack. *)
Lemma depth_loop_frame {A} (node : Tree A) (done todo : list (Tree A))
    (rest : list (Tree A * nat)) (fuel : nat) (out : list (Tree A)) :
  children node = Some (done ++ todo) ->
  Forall (fun c => forall rest fuel out,
            depth_loop fuel rest = Some out ->
            depth_loop (depth_steps c + fuel) ((c, O) :: rest)
            = Some (flat_map preorder (child_nodes c) ++ out)) todo ->
  depth_loop fuel rest = Some out ->
  depth_loop (S (foldr Nat.add O (map (fun c => S (depth_steps c)) todo)) + fuel)
    ((node, length done) :: rest)
  = Some (flat_map preorder todo ++ out).
Proof.
  intros Hc Htodo. revert done Hc fuel out.
  induction Htodo as [|c todo Hchild _ IH]; intros done Hc fuel out Hrest.
  - cbn [map foldr Nat.add depth_loop plus]. rewrite Hc.
    rewrite app_nil_r, lookup_ge_None_2 by lia. exact Hrest.
  - cbn [map foldr flat_map].
    change (S (S (depth_steps c) + ?x) + fuel)%nat
      with (S (S (depth_steps c) + x + fuel)).
    cbn [depth_loop]. rewrite Hc.
    rewrite (list_lookup_middle done todo c (length done) eq_refl).
    replace (S (depth_steps c) + foldr Nat.add 0%nat (map (fun c0 => S (depth_steps c0)) todo) + fuel)%nat
      with (depth_steps c + (S (foldr Nat.add 0%nat (map (fun c0 => S (depth_steps c0)) todo)) + fuel))%nat
      by lia.
    rewrite (Hchild ((node, S (length done)) :: rest) _
               (flat_map preorder todo ++ out)).
    + cbn [option_map]. rewrite preorder_eq. now rewrite <- !app_assoc.
    + specialize (IH (done ++ [c])).
      rewrite length_app, Nat.add_1_r in IH. apply IH; [|assumption].
      now rewrite <- app_assoc.
Qed.

Lemma depth_loop_node {A} (t : Tree A) :
  forall rest fuel out,
    depth_loop fuel rest = Some out ->
    depth_loop (depth_steps t + fuel) ((t, O) :: rest)
    = Some (flat_map preorder (child_nodes t) ++ out).
Proof.
  induction t as [a|a cs IH] using Tree_induction; intros rest fuel out Hrest.
  - cbn. exact Hrest.
  - apply (depth_loop_frame (Node a (Some cs)) [] cs rest fuel out eq_refl IH Hrest).
Qed.

Lemma depth_steps_size {A} (t : Tree A) : (S (depth_steps t) = 2 * tree_size t)%nat.
Proof.
  induction t as [a|a cs IH] using Tree_induction; [reflexivity|].
  cbn [depth_steps tree_size].
  assert (E : (foldr Nat.add O (map (fun c => S (depth_steps c)) cs)
               = 2 * foldr Nat.add O (map tree_size cs))%nat).
  { induction IH as [|c cs Hc _ IHcs]; [reflexivity|]. cbn [map foldr]. lia. }
  lia.
Qed.

Lemma depth_loop_mono {A} (fuel fuel' : nat) (stack : list (Tree A * nat))
    (out : list (Tree A)) :
  (fuel <= fuel')%nat -> depth_loop fuel stack = Some out ->
  depth_loop fuel' stack = Some out.
Proof.
  revert fuel' stack out. induction fuel as [|fuel IH]; intros fuel' stack out Hle H;
    [discriminate H|].
  destruct fuel' as [|fuel']; [lia|]. cbn [depth_loop] in *.
  destruct stack as [|[node ci] rest]; [assumption|].
  destruct (children node) as [cs|]; [|apply IH; [lia|assumption]].
  destruct (cs !! ci) as [c|]; [|apply IH; [lia|assumption]].
  destruct (depth_loop fuel _) as [o|] eqn:E; [|discriminate H].
  now rewrite (IH fuel' _ o ltac:(lia) E).
Qed.

(** X3: [depthTraversalTree] yields the nodes of the tree in depth-first
    order, the root first and then each child's subtree in turn, and
    it finishes: [2 * size] iterations of its loop are enough. *)
Theorem depthTraversalTree_preorder {A} (root : Tree A) (fuel : nat) :
  (2 * tree_size root <= fuel)%nat ->
  depthTraversalTree fuel root = Some (preorder root).
Proof.
  intros Hfuel. unfold depthTraversalTree.
  rewrite (depth_loop_mono (depth_steps root + 1) fuel [(root, O)]
             (flat_map preorder (child_nodes root) ++ [])).
  - cbn [option_map]. now rewrite app_nil_r, preorder_eq.
  - pose proof (depth_steps_size root). lia.
  - now apply depth_loop_node.
Qed.

Lemma depthTraversalTree_preorder_witness :
  (2 * tree_size documented_tree <= 16)%nat /\
  option_map (map label) (depthTraversalTree 16 documented_tree)
  = Some [1; 2; 3; 4; 5; 6; 7; 8]%nat.
Proof.
  assert (H : (2 * tree_size documented_tree <= 16)%nat) by (vm_compute; lia).
  split; [exact H|].
  rewrite (depthTraversalTree_preorder documented_tree 16 H). reflexivity.
Defined.

Lemma breadth_for_of_eq {A} (nodes : list (Tree A)) (queue : list (list (Tree A))) :
  breadth_for_of nodes queue = (nodes, queue ++ omap children nodes).
Proof.
  revert queue. induction nodes as [|node nodes IH]; intros queue.
  - cbn. now rewrite app_nil_r.
  - cbn [breadth_for_of]. rewrite IH. cbn [omap list_omap].
    destruct (children node) as [cs|]; [|reflexivity].
    now rewrite <- app_assoc.
Qed.

Lemma breadth_loop_eq {A} (fuel : nat) (nodes : list (Tree A))
    (queue : list (list (Tree A))) :
  breadth_loop (S fuel) (nodes :: queue) =
  option_map (app nodes) (breadth_loop fuel (queue ++ omap children nodes)).
Proof. cbn [breadth_loop]. now rewrite breadth_for_of_eq. Qed.

Lemma omap_app {A B} (f : A -> option B) (l1 l2 : list A) :
  omap f (l1 ++ l2) = omap f l1 ++ omap f l2.
Proof.
  induction l1 as [|x l1 IH]; [reflexivity|]. cbn [app omap list_omap].
  rewrite IH. now destruct (f x).
Qed.

(** Processing the arrays [a] at the front of the queue yields their nodes
    and leaves their children arrays at the back. *)
Lemma breadth_loop_app {A} (a b : list (list (Tree A))) (fuel : nat) :
  breadth_loop (length a + fuel) (a ++ b) =
  option_map (app (concat a)) (breadth_loop fuel (b ++ next_queue a)).
Proof.
  revert b. induction a as [|nodes a IH]; intros b.
  - cbn. rewrite app_nil_r. now destruct (breadth_loop fuel b).
  - cbn [length plus app]. rewrite breadth_loop_eq, <- app_assoc, IH.
    unfold next_queue. cbn [concat]. rewrite omap_app, <- !app_assoc.
    destruct (breadth_loop fuel _); [|reflexivity].
    cbn [option_map]. now rewrite <- app_assoc.
Qed.

Lemma breadth_loop_mono {A} (fuel fuel' : nat) (queue : list (list (Tree A)))
    (out : list (Tree A)) :
  (fuel <= fuel')%nat -> breadth_loop fuel queue = Some out ->
  breadth_loop fuel' queue = Some out.
Proof.
  revert fuel' queue out. induction fuel as [|fuel IH]; intros fuel' queue out Hle H;
    [discriminate H|].
  destruct fuel' as [|fuel']; [lia|].
  destruct queue as [|nodes queue]; [assumption|].
  rewrite breadth_loop_eq in *.
  destruct (breadth_loop fuel _) as [o|] eqn:E; [|discriminate H].
  now rewrite (IH fuel' _ o ltac:(lia) E).
Qed.

Lemma concat_next_queue {A} (queue : list (list (Tree A))) :
  concat (next_queue queue) = flat_map child_nodes (concat queue).
Proof.
  unfold next_queue. induction (concat queue) as [|t l IH]; [reflexivity|].
  cbn [omap list_omap flat_map]. unfold child_nodes at 1.
  destruct (children t) as [cs|]; cbn [concat]; now rewrite IH.
Qed.

Lemma flat_map_flat_map {A B C} (f : A -> list B) (g : B -> list C) (l : list A) :
  flat_map g (flat_map f l) = flat_map (fun x => flat_map g (f x)) l.
Proof.
  induction l as [|x l IH]; [reflexivity|]. cbn [flat_map].
  now rewrite flat_map_app, IH.
Qed.

Lemma flat_map_map {A B C} (f : B -> list C) (g : A -> B) (l : list A) :
  flat_map f (map g l) = flat_map (fun x => f (g x)) l.
Proof. induction l as [|x l IH]; [reflexivity|]. cbn. now rewrite IH. Qed.

Lemma at_depth_S {A} (d : nat) (forest : list (Tree A)) :
  flat_map (at_depth (S d)) forest = flat_map (at_depth d) (flat_map child_nodes forest).
Proof. now rewrite flat_map_flat_map. Qed.

Lemma height_children {A} (t c : Tree A) :
  In c (child_nodes t) -> (height c < height t)%nat.
Proof.
  destruct t as [a [cs|]]; [|intros []]. cbn [child_nodes children height].
  induction cs as [|c' cs IH]; intros Hin; [destruct Hin|].
  cbn [map foldr]. destruct Hin as [->|Hin]; [lia|].
  specialize (IH Hin). lia.
Qed.

Lemma at_depth_beyond {A} (d : nat) (t : Tree A) :
  (height t < d)%nat -> at_depth d t = [].
Proof.
  revert t. induction d as [|d IH]; intros t Hlt; [lia|].
  cbn [at_depth]. pose proof (height_children t) as Hc.
  induction (child_nodes t) as [|c cs IHcs]; [reflexivity|].
  cbn [flat_map]. rewrite IH.
  - apply IHcs. intros c' Hin. apply Hc. now right.
  - specialize (Hc c (or_introl eq_refl)). lia.
Qed.

Lemma omap_children_leaves {A} (forest : list (Tree A)) :
  Forall (fun t => (height t <= 0)%nat) forest -> omap children forest = [].
Proof.
  induction 1 as [|t l Ht _ IHl]; [reflexivity|].
  cbn [omap list_omap]. destruct t as [a [cs|]]; [cbn in Ht; lia|exact IHl].
Qed.

Lemma at_depth_0 {A} (forest : list (Tree A)) : flat_map (at_depth 0) forest = forest.
Proof. induction forest as [|t l IH]; [reflexivity|]. cbn. now f_equal. Qed.

(** The breadth-first loop on a queue whose trees have height at most [H]
    yields the levels of the forest in the queue, one after the other. *)
Lemma breadth_loop_levels {A} (H : nat) (queue : list (list (Tree A))) :
  Forall (fun t => (height t <= H)%nat) (concat queue) ->
  breadth_loop (breadth_steps H queue) queue =
  Some (flat_map (fun d => flat_map (at_depth d) (concat queue)) (seq 0 (S H))).
Proof.
  revert queue. induction H as [|H IH]; intros queue Hh.
  - cbn [breadth_steps seq flat_map].
    pose proof (breadth_loop_app queue [] 1) as E.
    rewrite app_nil_r in E. rewrite E. cbn [app].
    unfold next_queue. rewrite (omap_children_leaves _ Hh).
    cbn [app breadth_loop option_map]. now rewrite !app_nil_r, at_depth_0.
  - cbn [breadth_steps].
    pose proof (breadth_loop_app queue [] (breadth_steps H (next_queue queue))) as E.
    rewrite app_nil_r in E. rewrite E. cbn [app].
    rewrite IH.
    + cbn [option_map]. f_equal.
      change (seq 0 (S (S H))) with (0%nat :: seq 1 (S H)).
      cbn [flat_map]. rewrite at_depth_0. f_equal.
      rewrite <- seq_shift, concat_next_queue, flat_map_map.
      apply flat_map_ext. intros d. symmetry. apply at_depth_S.
    + rewrite concat_next_queue. apply List.Forall_forall. intros c Hin.
      apply in_flat_map in Hin as (t & Ht & Hc).
      rewrite List.Forall_forall in Hh. specialize (Hh t Ht).
      pose proof (height_children t c Hc). lia.
Qed.

Lemma forest_size_app {A} (f1 f2 : list (Tree A)) :
  forest_size (f1 ++ f2) = (forest_size f1 + forest_size f2)%nat.
Proof.
  unfold forest_size. induction f1 as [|t f1 IH]; [reflexivity|].
  cbn [app map foldr]. rewrite IH. lia.
Qed.

Lemma tree_size_eq {A} (t : Tree A) : tree_size t = S (forest_size (child_nodes t)).
Proof. now destruct t as [a [cs|]]. Qed.

Lemma forest_size_step {A} (forest : list (Tree A)) :
  forest_size forest = (length forest + forest_size (flat_map child_nodes forest))%nat.
Proof.
  induction forest as [|t l IH]; [reflexivity|].
  cbn [flat_map length]. rewrite forest_size_app.
  change (forest_size (t :: l)) with (tree_size t + forest_size l)%nat.
  rewrite tree_size_eq, IH. lia.
Qed.

Lemma length_omap_le {A B} (f : A -> option B) (l : list A) :
  (length (omap f l) <= length l)%nat.
Proof.
  induction l as [|x l IH]; [reflexivity|]. cbn [omap list_omap].
  destruct (f x); simpl; lia.
Qed.

Lemma breadth_steps_bound {A} (H : nat) (queue : list (list (Tree A))) :
  (breadth_steps H queue <= length queue + forest_size (concat queue) + 1)%nat.
Proof.
  revert queue. induction H as [|H IH]; intros queue; cbn [breadth_steps]; [lia|].
  specialize (IH (next_queue queue)).
  rewrite concat_next_queue in IH.
  pose proof (length_omap_le children (concat queue)) as Hl.
  fold (next_queue queue) in Hl.
  rewrite (forest_size_step (concat queue)). lia.
Qed.

(** X4: [breadthTraversalTree] yields the nodes of the tree level by level,
    the root first, each level from left to right, and it finishes: two more
    iterations of its loop than the tree has nodes are enough. *)
Theorem breadthTraversalTree_level_order {A} (root : Tree A) (fuel : nat) :
  (tree_size root + 2 <= fuel)%nat ->
  breadthTraversalTree fuel root = Some (level_order root).
Proof.
  intros Hle. unfold breadthTraversalTree.
  apply (breadth_loop_mono (breadth_steps (height root) [[root]]) fuel).
  - pose proof (breadth_steps_bound (height root) [[root]]) as Hb.
    cbn [concat length app] in Hb. unfold forest_size in Hb.
    cbn [map foldr] in Hb. lia.
  - rewrite breadth_loop_levels by (repeat constructor).
    unfold level_order. f_equal. apply flat_map_ext. intros d.
    cbn. now rewrite app_nil_r.
Qed.

Lemma breadthTraversalTree_level_order_witness :
  (tree_size documented_wide_tree + 2 <= 10)%nat /\
  option_map (map label) (breadthTraversalTree 10 documented_wide_tree)
  = Some [1; 2; 3; 4; 5; 6; 7; 8]%nat.
Proof.
  assert (H : (tree_size documented_wide_tree + 2 <= 10)%nat) by (vm_compute; lia).
  split; [exact H|].
  rewrite (breadthTraversalTree_level_order documented_wide_tree 10 H). reflexivity.
Defined.

Lemma preorder_forest_perm {A} (forest : list (Tree A)) :
  Permutation (flat_map preorder forest)
    (forest ++ flat_map preorder (flat_map child_nodes forest)).
Proof.
  induction forest as [|t l IH]; [reflexivity|].
  cbn [flat_map]. rewrite flat_map_app, preorder_eq, IH.
  cbn [app]. constructor.
  rewrite !app_assoc. apply Permutation_app_tail, Permutation_app_comm.
Qed.

Lemma levels_preorder_perm {A} (H : nat) (forest : list (Tree A)) :
  Forall (fun t => (height t <= H)%nat) forest ->
  Permutation (flat_map (fun d => flat_map (at_depth d) forest) (seq 0 (S H)))
    (flat_map preorder forest).
Proof.
  revert forest. induction H as [|H IH]; intros forest Hh.
  - cbn [seq flat_map]. rewrite at_depth_0, app_nil_r, preorder_forest_perm.
    assert (E : flat_map child_nodes forest = []).
    { induction Hh as [|t l Ht _ IHl]; [reflexivity|].
      cbn [flat_map]. rewrite IHl. destruct t as [a [cs|]]; [cbn in Ht; lia|reflexivity]. }
    rewrite E. cbn. now rewrite app_nil_r.
  - change (seq 0 (S (S H))) with (0%nat :: seq 1 (S H)).
    cbn [flat_map]. rewrite at_depth_0, <- seq_shift, flat_map_map.
    rewrite preorder_forest_perm. apply Permutation_app_head.
    rewrite (flat_map_ext _ _ (fun d => at_depth_S d forest)).
    apply IH.
    apply List.Forall_forall. intros c Hin.
    {
      apply in_flat_map in Hin as (t & Ht & Hc).
      rewrite List.Forall_forall in Hh. specialize (Hh t Ht).
      pose proof (height_children t c Hc). lia. }
Qed.

Lemma depthTraversalTree_returns {A} (root : Tree A) (fuel : nat) (out : list (Tree A)) :
  depthTraversalTree fuel root = Some out -> out = preorder root.
Proof.
  unfold depthTraversalTree. intros H.
  destruct (depth_loop fuel [(root, O)]) as [o|] eqn:E; [|discriminate H].
  injection H as <-.
  pose proof (depth_loop_node root [] 1 [] eq_refl) as E'.
  apply (depth_loop_mono _ (fuel + (depth_steps root + 1))) in E; [|lia].
  apply (depth_loop_mono _ (fuel + (depth_steps root + 1))) in E'; [|lia].
  rewrite E in E'. injection E' as ->. now rewrite app_nil_r, preorder_eq.
Qed.

Lemma breadth_loop_root {A} (root : Tree A) :
  breadth_loop (breadth_steps (height root) [[root]]) [[root]] = Some (level_order root).
Proof.
  rewrite breadth_loop_levels by (repeat constructor).
  unfold level_order. f_equal. apply flat_map_ext. intros d.
  cbn. now rewrite app_nil_r.
Qed.

Lemma breadthTraversalTree_returns {A} (root : Tree A) (fuel : nat) (out : list (Tree A)) :
  breadthTraversalTree fuel root = Some out -> out = level_order root.
Proof.
  unfold breadthTraversalTree. intros E.
  pose proof (breadth_loop_root root) as E'.
  apply (breadth_loop_mono _ (fuel + breadth_steps (height root) [[root]])) in E; [|lia].
  apply (breadth_loop_mono _ (fuel + breadth_steps (height root) [[root]])) in E'; [|lia].
  congruence.
Qed.

Lemma length_preorder {A} (root : Tree A) : length (preorder root) = tree_size root.
Proof.
  induction root as [a|a cs IH] using Tree_induction; [reflexivity|].
  cbn [preorder tree_size length]. f_equal.
  induction IH as [|c cs Hc _ IHcs]; [reflexivity|].
  cbn [flat_map map foldr]. rewrite length_app. lia.
Qed.

(** X5: the two traversals yield the same nodes, each as often as the other:
    whenever both finish, the breadth-first sequence is a permutation of the
    depth-first one, and both have as many entries as the tree has nodes. *)
Theorem traversals_same_nodes {A} (root : Tree A) (fuel fuel' : nat)
    (depth breadth : list (Tree A)) :
  depthTraversalTree fuel root = Some depth ->
  breadthTraversalTree fuel' root = Some breadth ->
  Permutation breadth depth /\
  length depth = tree_size root /\ length breadth = tree_size root.
Proof.
  intros ->%depthTraversalTree_returns ->%breadthTraversalTree_returns.
  assert (Hp : Permutation (level_order root) (preorder root)).
  { unfold level_order.
    pose proof (levels_preorder_perm (height root) [root]) as Hl.
    cbn [flat_map] in Hl. rewrite app_nil_r in Hl. rewrite <- Hl by (repeat constructor).
    rewrite (flat_map_ext _ _ (fun d => app_nil_r (at_depth d root))). reflexivity. }
  split_and!; [exact Hp|apply length_preorder|].
  rewrite Hp. apply length_preorder.
Qed.

Lemma traversals_same_nodes_witness :
  depthTraversalTree 16 documented_tree = Some (preorder documented_tree) /\
  breadthTraversalTree 10 documented_tree = Some (level_order documented_tree) /\
  Permutation (level_order documented_tree) (preorder documented_tree).
Proof.
  assert (H1 : depthTraversalTree 16 documented_tree = Some (preorder documented_tree))
    by (vm_compute; reflexivity).
  assert (H2 : breadthTraversalTree 10 documented_tree = Some (level_order documented_tree))
    by (vm_compute; reflexivity).
  split_and!; [exact H1|exact H2|].
  apply (traversals_same_nodes documented_tree 16 10 _ _ H1 H2).
Defined.

(** ** Chains of fragment calls *)

Lemma join_app (l1 l2 : list string) : join (l1 ++ l2) = join l1 +^ join l2.
Proof.
  unfold join. induction l1 as [|x l1 IH]; [reflexivity|].
  cbn [app foldr fold_right]. rewrite IH. now rewrite append_assoc.
Qed.

Lemma join_map_snoc (f : string -> string) (l : list string) (x : string) :
  join (map f (l ++ [x])) = join (map f l) +^ f x.
Proof. rewrite map_app, join_app. cbn. now rewrite append_nil_r. Qed.

(** A fragment call that returns was accepted. *)
Lemma invoke_normal_accepts (f : Fragment) (value : string) (h : heap) (n : oref)
    (s : Selector) (cs ats ps : list string) (r : oref) :
  owns h n s cs ats ps ->
  fst (invoke f n value h) = Normal r -> accepts f s = true.
Proof.
  intros [Ha Ed Es _ _ _ _ _ _ _] H.
  rewrite invoke_eq in H by (assumption || now rewrite Ed). rewrite Ed in H.
  unfold accepts. destruct (Z.gtb_spec (index_of_selector s) (fragment_rank f)) as [Hgt|Hle];
    [discriminate H|].
  apply andb_true_intro. split; [now apply Z.leb_le|].
  unfold fragment_body, checked in H. cbv zeta in H. rewrite Ed in H.
  destruct f; cbn [single_field]; try reflexivity;
    cbn [set_index_of_selector element_val id_val pseudoElement_val] in H;
    match goal with
    | |- negb (truthy ?v) = true => destruct (truthy v); [discriminate H|reflexivity]
    end.
Qed.

(** An accepted fragment call appends its text to the rendering of the
    fragments. *)
Lemma apply_fragment_text (f : Fragment) (value : string) (s : Selector)
    (cs ats ps : list string) :
  beyond_cursor_empty s cs ats ps -> accepts f s = true ->
  beyond_cursor_empty (apply_fragment f value s)
    (pushed f FClass value cs) (pushed f FAttr value ats)
    (pushed f FPseudoClass value ps) /\
  fragments_text truthy (apply_fragment f value s)
    (pushed f FClass value cs) (pushed f FAttr value ats)
    (pushed f FPseudoClass value ps)
  = fragments_text truthy s cs ats ps +^ fragment_text (f, value).
Proof.
  intros [B1 B2 B3 B4 B5 B6 B7] Hacc.
  apply andb_prop in Hacc as [Hle Hfield]. apply Z.leb_le in Hle.
  destruct f; cbn [fragment_rank single_field] in Hle, Hfield;
    try apply negb_true_iff in Hfield.
  - (* element *)
    rewrite (B2 ltac:(lia)), (B3 ltac:(lia)), (B4 ltac:(lia)).
    split.
    + split; cbn; intros; try reflexivity; try lia;
        first [apply B1; lia | apply B5; lia | exact B7].
    + unfold fragments_text. cbn.
      rewrite Hfield, (B1 ltac:(lia)), (B5 ltac:(lia)).
      destruct value; cbn; now rewrite ?append_nil_r.
  - (* id *)
    rewrite (B2 ltac:(lia)), (B3 ltac:(lia)), (B4 ltac:(lia)).
    split.
    + split; cbn; intros; try reflexivity; try lia;
        first [apply B5; lia | exact B7].
    + unfold fragments_text. cbn.
      rewrite Hfield, (B5 ltac:(lia)).
      destruct value; cbn; now rewrite ?append_nil_r.
  - (* class *)
    rewrite (B3 ltac:(lia)), (B4 ltac:(lia)).
    split.
    + split; cbn; intros; try reflexivity; try lia;
        first [apply B5; lia | exact B7].
    + unfold fragments_text. cbn [pushed apply_fragment checked set_index_of_selector
        element_val id_val pseudoElement_val fragment_text map join fold_right].
      rewrite (B5 ltac:(lia)), (join_map_snoc (fun c => "." +^ c)).
      now rewrite !append_nil_r, !append_assoc.
  - (* attr *)
    rewrite (B4 ltac:(lia)).
    split.
    + split; cbn; intros; try reflexivity; try lia;
        first [apply B5; lia | exact B7].
    + unfold fragments_text. cbn [pushed apply_fragment checked set_index_of_selector
        element_val id_val pseudoElement_val fragment_text map join fold_right].
      rewrite (B5 ltac:(lia)), (join_map_snoc (fun a => "[" +^ a +^ "]")).
      now rewrite !append_nil_r, !append_assoc.
  - (* pseudoClass *)
    split.
    + split; cbn; intros; try reflexivity; try lia;
        first [apply B5; lia | exact B7].
    + unfold fragments_text. cbn [pushed apply_fragment checked set_index_of_selector
        element_val id_val pseudoElement_val fragment_text map join fold_right].
      rewrite (B5 ltac:(lia)), (join_map_snoc (fun p => ":" +^ p)).
      now rewrite !append_nil_r, !append_assoc.
  - (* pseudoElement *)
    split.
    + split; cbn; intros; try reflexivity; try lia; exact B7.
    + unfold fragments_text. cbn.
      rewrite Hfield.
      destruct value; cbn; now rewrite ?append_nil_r.
Qed.

Lemma chain_calls_owns (fs : list (Fragment * string)) (h h' : heap) (n this : oref)
    (s : Selector) (cs ats ps : list string) :
  owns h n s cs ats ps -> beyond_cursor_empty s cs ats ps ->
  chain_calls fs n h = (Normal this, h') ->
  this = n /\
  exists s' cs' ats' ps',
    owns h' n s' cs' ats' ps' /\ beyond_cursor_empty s' cs' ats' ps' /\
    fragments_text truthy s' cs' ats' ps'
    = fragments_text truthy s cs ats ps +^ join (map fragment_text fs).
Proof.
  revert h s cs ats ps. induction fs as [|[f value] fs IH]; intros h s cs ats ps Ho Hb H.
  - injection H as <- <-. split; [reflexivity|].
    exists s, cs, ats, ps. split_and!; try assumption.
    cbn. now rewrite append_nil_r.
  - cbn [chain_calls] in H. unfold bind in H.
    destruct (invoke f n value h) as [[r|e] h1] eqn:E; [|discriminate H].
    assert (Hacc : accepts f s = true).
    { apply (invoke_normal_accepts f value h n s cs ats ps r Ho). now rewrite E. }
    destruct (invoke_owns f value h n s cs ats ps Ho Hacc) as [Er Ho1].
    rewrite E in Er, Ho1. cbn [fst snd] in Er, Ho1. injection Er as ->.
    destruct (apply_fragment_text f value s cs ats ps Hb Hacc) as [Hb1 Et].
    destruct (IH h1 _ _ _ _ Ho1 Hb1 H) as (-> & s' & cs' & ats' & ps' & Ho' & Hb' & Et').
    split; [reflexivity|]. exists s', cs', ats', ps'. split_and!; try assumption.
    rewrite Et', Et. cbn [map]. change (join (?x :: ?l)) with (x +^ join l).
    now rewrite append_assoc.
Qed.

(** X6: whenever a chain of fragment calls on a new instance goes through
    without an error, the instance renders as the concatenation, in call
    order, of what each call contributes: the element value, [#] and the id,
    [.] and the class, the attribute between brackets, [:] and the
    pseudo-class, [::] and the pseudo-element (nothing for an empty id or
    pseudo-element). *)
Theorem chain_renders_in_call_order (h h' : heap) (fs : list (Fragment * string))
    (this : oref) :
  (this0 <- new_Selector ;; chain_calls fs this0) h = (Normal this, h') ->
  this = length (objs h) /\
  forall fuel,
    Selector.stringify (S fuel) this h' = Some (join (map fragment_text fs), h').
Proof.
  unfold bind. change (new_Selector h) with (Normal (length (objs h)), snd (new_Selector h)).
  cbv iota beta. intros H.
  assert (Hb : beyond_cursor_empty
                 (mkSelector 0 null null (length (arrs h)) (S (length (arrs h)))
                    (S (S (length (arrs h)))) null SELECTORS null None) [] [] [])
    by (split; cbn; intros; (reflexivity || lia)).
  destruct (chain_calls_owns fs _ h' _ this _ _ _ _ (owns_new h) Hb H)
    as (-> & s' & cs' & ats' & ps' & Ho' & Hb' & Et').
  split; [reflexivity|]. intros fuel.
  rewrite (owns_stringify _ _ _ _ _ _ fuel Ho' (bce_combinator _ _ _ _ Hb')).
  rewrite Et'. reflexivity.
Qed.

Lemma chain_renders_in_call_order_witness :
  let fs := [(FElement, "div"); (FId, "main"); (FClass, "container");
             (FClass, "draggable"); (FAttr, "lang"); (FPseudoElement, "after")] in
  let run := (this0 <- new_Selector ;; chain_calls fs this0) empty_heap in
  run = (Normal 0%nat, snd run) /\
  Selector.stringify 1 0%nat (snd run)
  = Some ("div#main.container.draggable[lang]::after", snd run).
Proof.
  intros fs run.
  assert (H : run = (Normal 0%nat, snd run)) by (vm_compute; reflexivity).
  split; [exact H|].
  exact (proj2 (chain_renders_in_call_order empty_heap (snd run) fs 0%nat H) O).
Defined.

(** ** Sharing between a combined selector and its left operand *)

(** X7: [combine] copies the left operand's array references, not the
    arrays: a class added to the selector the facade's [combine] returned is
    added to the left operand as well, whose own properties stay as they
    were. *)
Theorem combine_shares_arrays (h : heap) (left_op right_op : oref) (symbol value : string) :
  reachable h -> allocated h left_op = true -> allocated h right_op = true ->
  index_of_selector (deref h left_op) <= 2 ->
  let call := (b <- cssSelectorBuilder.combine left_op symbol right_op ;;
               Selector.class b value) h in
  fst call = Normal (length (objs h)) /\
  deref (snd call) left_op = deref h left_op /\
  array (snd call) (classes (deref (snd call) left_op))
  = array h (classes (deref h left_op)) ++ [value].
Proof.
  intros Hreach H1 H2 Hle. cbv zeta.
  pose proof (reachable_wf h Hreach) as Hwf.
  destruct (heap_wf_deref h left_op Hwf H1) as [Hok [R1 R2 R3 R4]].
  unfold bind. rewrite facade_combine_result by assumption. cbv iota beta.
  set (s := set_selector2 (Some right_op) (set_combinator (Some symbol) (deref h left_op))).
  set (h1 := mkHeap (objs h ++ [s]) (arrs h ++ [[]; []; []])).
  assert (Hb : allocated h1 (length (objs h)) = true).
  { apply allocated_lt. unfold h1. simpl. rewrite length_app. simpl. lia. }
  assert (Ed : deref h1 (length (objs h)) = s).
  { unfold deref, h1. simpl. rewrite lookup_total_app_r by lia.
    now rewrite Nat.sub_diag. }
  assert (El : deref h1 left_op = deref h left_op).
  { unfold deref, h1. simpl. apply lookup_total_app_l. now apply allocated_lt. }
  change (Selector.class ?x ?v) with (invoke FClass x v).
  rewrite invoke_eq by (assumption || (rewrite Ed; apply Hok)).
  rewrite Ed. cbn [fragment_rank]. change (index_of_selector s) with (index_of_selector (deref h left_op)).
  destruct (Z.gtb_spec (index_of_selector (deref h left_op)) 2) as [Hgt|_]; [lia|].
  unfold fragment_body. cbv zeta. rewrite Ed.
  change (classes (checked FClass s)) with (classes (deref h left_op)).
  cbn [fst snd]. split_and!; [reflexivity| |].
  - change (deref (store_array ?a ?l ?h') left_op) with (deref h' left_op).
    rewrite deref_store_ne by (apply allocated_lt in H1; lia). exact El.
  - change (deref (store_array ?a ?l ?h') left_op) with (deref h' left_op).
    rewrite deref_store_ne by (apply allocated_lt in H1; lia). rewrite El.
    rewrite array_store_array_eq.
    + f_equal. unfold array, h1. simpl. now apply lookup_total_app_l.
    + unfold h1. simpl. rewrite length_app. lia.
Qed.

Lemma combine_shares_arrays_witness :
  let h := heap_after [CNew; CFragment FElement 0%nat "div"; CNew; CFragment FElement 1%nat "p"] in
  let call := (b <- cssSelectorBuilder.combine 0%nat "+" 1%nat ;;
               Selector.class b "x") h in
  reachable h /\ index_of_selector (deref h 0%nat) <= 2 /\
  Selector.stringify 1 0%nat h = Some ("div", h) /\
  Selector.stringify 1 0%nat (snd call) = Some ("div.x", snd call) /\
  array (snd call) (classes (deref (snd call) 0%nat))
  = array h (classes (deref h 0%nat)) ++ ["x"].
Proof.
  intros h call.
  assert (Hr : reachable h)
    by (exists [CNew; CFragment FElement 0%nat "div"; CNew; CFragment FElement 1%nat "p"];
        vm_compute; reflexivity).
  assert (Hle : index_of_selector (deref h 0%nat) <= 2) by (vm_compute; discriminate).
  split_and!; [exact Hr|exact Hle|vm_compute; reflexivity|vm_compute; reflexivity|].
  exact (proj2 (proj2 (combine_shares_arrays h 0%nat 1%nat "+" "x" Hr eq_refl eq_refl Hle))).
Defined.

Lemma extends_store (h h' : heap) (r : oref) (s : Selector) :
  extends h h' -> (length (objs h) <= r)%nat -> extends h (store r s h').
Proof.
  intros (os & ars & Eo & Ea) Hle. exists (<[(r - length (objs h))%nat := s]> os), ars.
  unfold store. cbn [objs arrs]. split; [|exact Ea].
  rewrite Eo. now apply insert_app_r_alt.
Qed.

Lemma extends_store_array (h h' : heap) (a : aref) (l : list string) :
  extends h h' -> (length (arrs h) <= a)%nat -> extends h (store_array a l h').
Proof.
  intros (os & ars & Eo & Ea) Hle. exists os, (<[(a - length (arrs h))%nat := l]> ars).
  unfold store_array. cbn [objs arrs]. split; [exact Eo|].
  rewrite Ea. now apply insert_app_r_alt.
Qed.

Lemma facade_start_extends (f : Fragment) (value : string) (h : heap) :
  extends h (snd (facade_start f value h)).
Proof.
  rewrite facade_start_eq.
  rewrite invoke_eq by (apply new_Selector_allocated || now rewrite new_Selector_deref).
  rewrite new_Selector_deref. cbn [index_of_selector].
  assert (He : extends h (snd (new_Selector h))) by (simpl; eexists _, _; eauto).
  destruct f; cbn [fragment_rank Z.gtb Z.compare];
    unfold fragment_body; cbv zeta; rewrite new_Selector_deref;
    cbn [checked set_index_of_selector element_val id_val pseudoElement_val truthy null
           classes attributes pseudoClasses fragment_rank snd];
    repeat first [ apply extends_store_array; [|lia]
                 | apply extends_store; [|lia] ];
    exact He.
Qed.

(** X8: building another selector through the facade, with an entry point or
    with [combine], changes no existing instance and no existing array: every
    selector there was renders as before. *)
Theorem facade_leaves_others (h : heap) (r : oref) (n : nat) (rendered : string) :
  reachable h -> allocated h r = true ->
  Selector.stringify n r h = Some (rendered, h) ->
  (forall f value,
     let h' := snd (facade_start f value h) in
     deref h' r = deref h r /\
     Selector.stringify n r h' = Some (rendered, h')) /\
  (forall left_op symbol right_op,
     allocated h left_op = true ->
     let h' := snd (cssSelectorBuilder.combine left_op symbol right_op h) in
     deref h' r = deref h r /\
     Selector.stringify n r h' = Some (rendered, h')).
Proof.
  intros Hreach Ha Hr. pose proof (reachable_wf h Hreach) as Hwf. split.
  - intros f value h'. pose proof (facade_start_extends f value h) as He.
    split; [now apply extends_deref|now apply (extends_stringify n h)].
  - intros left_op symbol right_op H1 h'.
    pose proof (facade_combine_extends h left_op symbol right_op H1) as He.
    split; [now apply extends_deref|now apply (extends_stringify n h)].
Qed.

Lemma facade_leaves_others_witness :
  let h := heap_after [CNew; CFragment FElement 0%nat "div"; CFragment FClass 0%nat "a"] in
  reachable h /\ allocated h 0%nat = true /\
  Selector.stringify 1 0%nat h = Some ("div.a", h) /\
  Selector.stringify 1 0%nat (snd (cssSelectorBuilder.class "b" h))
  = Some ("div.a", snd (cssSelectorBuilder.class "b" h)).
Proof.
  intros h.
  assert (Hr : reachable h)
    by (exists [CNew; CFragment FElement 0%nat "div"; CFragment FClass 0%nat "a"];
        vm_compute; reflexivity).
  assert (Hs : Selector.stringify 1 0%nat h = Some ("div.a", h)) by (vm_compute; reflexivity).
  split_and!; [exact Hr|reflexivity|exact Hs|].
  exact (proj2 (proj1 (facade_leaves_others h 0%nat 1 "div.a" Hr eq_refl Hs) FClass "b")).
Defined.

(** * Properties of the katas *)

(** ** [extractRanges] *)

Lemma extend_run_spec (curMax : Z) (nums : list Z) :
  let (m, rest) := extend_run curMax nums in
  curMax <= m /\
  nums = seqZ (curMax + 1) (m - curMax) ++ rest /\
  (length rest <= length nums)%nat /\
  (forall x rest', rest = x :: rest' -> x - m <> 1).
Proof.
  revert curMax. induction nums as [|x nums IH]; intros curMax; cbn [extend_run].
  - rewrite Z.sub_diag. split_and!; try reflexivity; try lia. discriminate.
  - destruct (Z.eqb_spec (x - curMax) 1) as [E|E].
    + specialize (IH x). destruct (extend_run x nums) as [m rest].
      destruct IH as (Hle & En & Hlen & Hmax). split_and!; try assumption.
      * lia.
      * replace (m - curMax) with (Z.succ (m - x)) by lia.
        rewrite seqZ_cons by lia. cbn [app]. f_equal; [lia|].
        replace (Z.succ (curMax + 1)) with (x + 1) by lia.
        now replace (Z.pred (Z.succ (m - x))) with (m - x) by lia.
      * simpl. lia.
    + rewrite Z.sub_diag. split_and!; try reflexivity; try lia.
      intros y rest' [= <- <-]. exact E.
Qed.

Lemma push_range_render (curMin curMax : Z) (resultsArr : list string) :
  curMin <= curMax ->
  push_range curMin curMax resultsArr = resultsArr ++ render_range (curMin, curMax).
Proof.
  intros Hle. unfold push_range, render_range. cbn [fst snd].
  destruct (curMax - curMin) as [|p|p] eqn:E; [reflexivity| |lia].
  destruct p; try reflexivity. now rewrite <- app_assoc.
Qed.

Lemma extract_loop_ranges (fuel : nat) (nums : list Z) (resultsArr : list string) :
  (length nums < fuel)%nat ->
  extract_loop fuel nums resultsArr
  = Some (resultsArr ++ flat_map render_range (ranges_of fuel nums), []).
Proof.
  revert nums resultsArr. induction fuel as [|fuel IH]; intros nums resultsArr Hlt; [lia|].
  destruct nums as [|curMin nums1]; cbn [extract_loop ranges_of flat_map].
  - now rewrite app_nil_r.
  - pose proof (extend_run_spec curMin nums1) as Hs.
    destruct (extend_run curMin nums1) as [curMax nums2].
    destruct Hs as (Hle & _ & Hlen & _). cbn [fst snd].
    rewrite IH by (simpl in Hlt; lia).
    now rewrite push_range_render, <- app_assoc.
Qed.

Lemma ranges_of_expand (fuel : nat) (nums : list Z) :
  (length nums < fuel)%nat ->
  flat_map expand_range (ranges_of fuel nums) = nums.
Proof.
  revert nums. induction fuel as [|fuel IH]; intros nums Hlt; [lia|].
  destruct nums as [|curMin nums1]; [reflexivity|]. cbn [ranges_of flat_map].
  pose proof (extend_run_spec curMin nums1) as Hs.
  destruct (extend_run curMin nums1) as [curMax nums2].
  destruct Hs as (Hle & En & Hlen & _). cbn [fst snd].
  rewrite IH by (simpl in Hlt; lia).
  unfold expand_range. cbn [fst snd].
  replace (curMax - curMin + 1) with (Z.succ (curMax - curMin)) by lia.
  rewrite seqZ_cons by lia. cbn [app]. f_equal.
  etransitivity; [|symmetry; exact En]. f_equal. f_equal; lia.
Qed.

(** Neighbouring ranges cannot be joined: the longest runs were taken. *)
Lemma ranges_of_maximal (fuel : nat) (nums : list Z) (i : nat) (r r' : Z * Z) :
  ranges_of fuel nums !! i = Some r ->
  ranges_of fuel nums !! S i = Some r' ->
  fst r <= snd r /\ fst r' - snd r <> 1.
Proof.
  revert nums i. induction fuel as [|fuel IH]; intros nums i H1 H2; [discriminate H1|].
  destruct nums as [|curMin nums1]; [discriminate H1|]. cbn [ranges_of] in H1, H2.
  pose proof (extend_run_spec curMin nums1) as Hs.
  destruct (extend_run curMin nums1) as [curMax nums2].
  destruct Hs as (Hle & _ & _ & Hmax). cbn [fst snd] in *.
  destruct i as [|i].
  - injection H1 as <-. cbn [fst snd]. split; [exact Hle|].
    cbn in H2. destruct fuel as [|fuel]; [discriminate H2|].
    destruct nums2 as [|x nums3]; [discriminate H2|].
    cbn in H2. injection H2 as <-. cbn [fst]. now apply (Hmax x nums3).
  - exact (IH nums2 i H1 H2).
Qed.

(** X9: [extractRanges] returns the comma-separated rendering of a list of
    ranges of consecutive integers that expands to exactly the given list,
    in order.  A range is written alone when it has one number, as two
    comma-separated numbers when it has two, and as [first-last] from three
    numbers on; neighbouring ranges could not have been joined.  The call
    empties the caller's array.  The numbers are integers that a double
    holds exactly. *)
Theorem extractRanges_ranges (nums : list Z) (fuel : nat) :
  List.Forall safe_integer nums ->
  (length nums < fuel)%nat ->
  exists ranges,
    extractRanges fuel nums
    = Some (String.concat "," (flat_map render_range ranges), []) /\
    flat_map expand_range ranges = nums /\
    (forall r, In r ranges -> fst r <= snd r) /\
    (forall i r r', ranges !! i = Some r -> ranges !! S i = Some r' ->
                    fst r' - snd r <> 1).
Proof.
  intros _ Hlt. exists (ranges_of fuel nums). split_and!.
  - unfold extractRanges. now rewrite extract_loop_ranges.
  - now apply ranges_of_expand.
  - clear Hlt. revert nums. induction fuel as [|fuel IH]; intros nums r Hin; [destruct Hin|].
    destruct nums as [|curMin nums1]; [destruct Hin|]. cbn [ranges_of] in Hin.
    pose proof (extend_run_spec curMin nums1) as Hs.
    destruct (extend_run curMin nums1) as [curMax nums2].
    destruct Hs as (Hle & _). destruct Hin as [<-|Hin]; [exact Hle|].
    exact (IH nums2 r Hin).
  - intros i r r' H1 H2. exact (proj2 (ranges_of_maximal fuel nums i r r' H1 H2)).
Qed.

Lemma extractRanges_ranges_witness :
  List.Forall safe_integer [0; 1; 2; 5; 7; 8; 9] /\
  (length [0; 1; 2; 5; 7; 8; 9]%Z < 8)%nat /\
  extractRanges 8 [0; 1; 2; 5; 7; 8; 9] = Some ("0-2,5,7-9", []) /\
  exists ranges,
    extractRanges 8 [0; 1; 2; 5; 7; 8; 9]
    = Some (String.concat "," (flat_map render_range ranges), []) /\
    flat_map expand_range ranges = [0; 1; 2; 5; 7; 8; 9].
Proof.
  assert (H : (length [0; 1; 2; 5; 7; 8; 9]%Z < 8)%nat) by (simpl; lia).
  assert (Hs : List.Forall safe_integer [0; 1; 2; 5; 7; 8; 9])
    by (repeat (apply List.Forall_cons; [unfold safe_integer; lia|]);
        apply List.Forall_nil).
  split_and!; [exact Hs|exact H|vm_compute; reflexivity|].
  destruct (extractRanges_ranges [0; 1; 2; 5; 7; 8; 9] 8 Hs H) as (ranges & E1 & E2 & _).
  exists ranges. split; assumption.
Defined.

(** ** [canDominoesMakeRow] *)

Lemma count_value_snoc (v : nat) (l : list domino) (d : domino) :
  count_value v (l ++ [d]) = (count_value v l + count_on v d)%nat.
Proof.
  unfold count_value. induction l as [|x l IH]; cbn [app map foldr]; [lia|].
  rewrite IH. lia.
Qed.

Lemma has_double_snoc (v : nat) (l : list domino) (d : domino) :
  has_double v (l ++ [d])
  = has_double v l || ((fst d =? v)%nat && (snd d =? v)%nat).
Proof. unfold has_double. rewrite existsb_app. cbn. now rewrite orb_false_r. Qed.

(** With every value at most 6 the arrays keep their seven entries: the
    counts of the values and the doubles seen. *)
Lemma count_dominoes_in_range (dominoes : list domino) :
  forallb in_range dominoes = true ->
  fold_left count_domino dominoes (replicate 7 (Some O), replicate 7 false)
  = (map (fun i => Some (count_value i dominoes)) (seq 0 7),
     map (fun i => has_double i dominoes) (seq 0 7)).
Proof.
  induction dominoes as [|d l IH] using rev_ind; intros Hr; [reflexivity|].
  rewrite forallb_app in Hr. apply andb_prop in Hr as [Hl Hd].
  rewrite fold_left_app, (IH Hl). cbn [fold_left].
  cbn [map seq forallb] in *. rewrite andb_true_r in Hd.
  rewrite !count_value_snoc, !has_double_snoc.
  generalize (count_value 0 l) (count_value 1 l) (count_value 2 l) (count_value 3 l)
    (count_value 4 l) (count_value 5 l) (count_value 6 l).
  generalize (has_double 0 l) (has_double 1 l) (has_double 2 l) (has_double 3 l)
    (has_double 4 l) (has_double 5 l) (has_double 6 l).
  intros b0 b1 b2 b3 b4 b5 b6 c0 c1 c2 c3 c4 c5 c6.
  destruct d as [x y]. unfold in_range in Hd. cbn [fst snd] in Hd.
  apply andb_prop in Hd as [Hx Hy]. apply Nat.ltb_lt in Hx, Hy.
  destruct x as [|[|[|[|[|[|[|x]]]]]]]; try lia;
    destruct y as [|[|[|[|[|[|[|y]]]]]]]; try lia;
    cbn; rewrite ?Nat.add_0_r, ?orb_false_r, ?orb_true_r;
    repeat f_equal; lia.
Qed.

Lemma count_assign_nan_beyond (i : nat) (valuesCount : list jsnum) :
  (7 <= length valuesCount)%nat -> nan_beyond valuesCount ->
  let valuesCount' :=
    array_assign None i (js_succ (array_read None i valuesCount)) valuesCount in
  (7 <= length valuesCount')%nat /\ nan_beyond valuesCount' /\
  (In None valuesCount -> In None valuesCount') /\
  ((7 <= i)%nat -> In None valuesCount').
Proof.
  intros Hlen Hnan. cbv zeta. unfold array_assign, array_read, nan_beyond, jsnum in *.
  destruct (Nat.ltb_spec i (length valuesCount)) as [Hlt|Hge].
  - destruct (lookup_lt_is_Some_2 valuesCount i Hlt) as [x Ex]. rewrite Ex.
    split_and!.
    + now rewrite length_insert.
    + intros j y Hy Hj. apply list_lookup_insert_Some in Hy as [(-> & <- & _)|(_ & Hy)].
      * now rewrite (Hnan j x Ex Hj).
      * exact (Hnan j y Hy Hj).
    + intros Hin. apply list_elem_of_In, list_elem_of_lookup in Hin as [j Hj].
      apply list_elem_of_In, list_elem_of_lookup.
      destruct (decide (i = j)) as [->|Hne].
      * exists j. rewrite list_lookup_insert_eq by assumption.
        rewrite Ex in Hj. now injection Hj as ->.
      * exists j. now rewrite list_lookup_insert_ne.
    + intros Hi. apply list_elem_of_In, list_elem_of_lookup. exists i.
      rewrite list_lookup_insert_eq by assumption. now rewrite (Hnan i x Ex Hi).
  - rewrite (lookup_ge_None_2 valuesCount i Hge). cbn [js_succ].
    split_and!.
    + rewrite length_app. lia.
    + intros j y Hy Hj. apply lookup_app_Some in Hy as [Hy|[_ Hy]];
        [exact (Hnan j y Hy Hj)|].
      apply lookup_app_Some in Hy as [Hy|[_ Hy]].
      * now apply lookup_replicate in Hy as [-> _].
      * destruct (_ - _ - _)%nat as [|k]; [now injection Hy as <-|].
        destruct k; discriminate Hy.
    + intros Hin. apply in_or_app. now left.
    + intros _. apply in_or_app. right. apply in_or_app. right. now left.
Qed.

Lemma count_domino_nan_beyond (state : list jsnum * list bool) (d : domino) :
  (7 <= length (fst state))%nat -> nan_beyond (fst state) ->
  (7 <= length (fst (count_domino state d)))%nat /\
  nan_beyond (fst (count_domino state d)) /\
  (In None (fst state) -> In None (fst (count_domino state d))) /\
  (in_range d = false -> In None (fst (count_domino state d))).
Proof.
  destruct state as [vc de]. cbn [fst]. intros Hlen Hnan.
  unfold count_domino. cbv zeta. cbn [fst].
  destruct (count_assign_nan_beyond (fst d) vc Hlen Hnan) as (L1 & N1 & I1 & O1).
  cbv zeta in *.
  set (vc1 := array_assign None (fst d) (js_succ (array_read None (fst d) vc)) vc) in *.
  destruct (count_assign_nan_beyond (snd d) vc1 L1 N1) as (L2 & N2 & I2 & O2).
  cbv zeta in *. split_and!; try assumption.
  - intros Hin. apply I2, I1, Hin.
  - unfold in_range. intros Hr. apply andb_false_iff in Hr as [Hr|Hr];
      apply Nat.ltb_ge in Hr; [apply I2, O1, Hr|apply O2, Hr].
Qed.

Lemma count_dominoes_out_of_range (dominoes : list domino) (state : list jsnum * list bool) :
  (7 <= length (fst state))%nat -> nan_beyond (fst state) ->
  In None (fst state) \/ forallb in_range dominoes = false ->
  In None (fst (fold_left count_domino dominoes state)).
Proof.
  revert state. induction dominoes as [|d l IH]; intros state Hlen Hnan Hor.
  - destruct Hor as [Hin|Hf]; [exact Hin|discriminate Hf].
  - cbn [fold_left].
    destruct (count_domino_nan_beyond state d Hlen Hnan) as (L & N & I & O).
    apply IH; try assumption.
    destruct Hor as [Hin|Hf]; [left; now apply I|].
    cbn [forallb] in Hf. apply andb_false_iff in Hf as [Hf|Hf]; [left; now apply O|now right].
Qed.

Lemma oddCount_nan (valuesCount : list jsnum) (acc : jsnum) :
  In None valuesCount \/ acc = None ->
  forEach valuesCount js_add_mod2 acc = None.
Proof.
  unfold forEach. revert acc. induction valuesCount as [|x l IH]; intros acc Hor.
  - destruct Hor as [[]| ->]. reflexivity.
  - cbn [fold_left]. apply IH. destruct Hor as [[->|Hin]| ->].
    + right. now destruct acc.
    + now left.
    + now right.
Qed.

(** The decision of [canDominoesMakeRow], for every list of tiles. *)
Lemma canDominoesMakeRow_verdict (dominoes : list domino) :
  canDominoesMakeRow dominoes = dominoes_verdict dominoes.
Proof.
  unfold canDominoesMakeRow, dominoes_verdict. cbv zeta.
  destruct (forallb in_range dominoes) eqn:Hr.
  - rewrite (count_dominoes_in_range dominoes Hr). cbn [andb].
    cbn [map seq length existsb array_read lookup list_lookup js_eq forEach fold_left
           js_add_mod2 foldr].
    generalize (count_value 0 dominoes) (count_value 1 dominoes) (count_value 2 dominoes)
      (count_value 3 dominoes) (count_value 4 dominoes) (count_value 5 dominoes)
      (count_value 6 dominoes).
    intros c0 c1 c2 c3 c4 c5 c6.
    replace (0 + c0 mod 2 + c1 mod 2 + c2 mod 2 + c3 mod 2 + c4 mod 2 + c5 mod 2 + c6 mod 2)%nat
      with (c0 mod 2 + (c1 mod 2 + (c2 mod 2 + (c3 mod 2 + (c4 mod 2 + (c5 mod 2 + (c6 mod 2 + 0)))))))%nat
      by lia.
    match goal with
    | |- (if ?b then false else if ?c then true else false) = _ =>
        destruct b; [reflexivity|]; now destruct c
    end.
  - cbn [andb].
    pose proof (count_dominoes_out_of_range dominoes (replicate 7 (Some O), replicate 7 false)
                  ltac:(cbn; lia)) as Hnan.
    destruct (fold_left count_domino dominoes _) as [vc de].
    cbn [fst] in Hnan.
    rewrite (oddCount_nan vc (Some O)).
    + cbn. now destruct (existsb _ _).
    + left. apply Hnan; [|now right].
      intros i x Hx Hi. apply lookup_replicate in Hx as [_ Hx]. lia.
Qed.

Lemma count_value_perm (v : nat) (l l' : list domino) :
  Permutation l l' -> count_value v l = count_value v l'.
Proof.
  unfold count_value. induction 1; cbn [map foldr]; lia.
Qed.

Lemma has_double_perm (v : nat) (l l' : list domino) :
  Permutation l l' -> has_double v l = has_double v l'.
Proof.
  unfold has_double. induction 1 as [|x l l' _ IH|x y l|l l' l'' _ IH1 _ IH2];
    cbn [existsb]; [reflexivity|now rewrite IH| |congruence].
  now rewrite !orb_assoc, (orb_comm (_ && _) (_ && _)).
Qed.

Lemma forallb_in_range_perm (l l' : list domino) :
  Permutation l l' -> forallb in_range l = forallb in_range l'.
Proof.
  induction 1 as [|x l l' _ IH|x y l|l l' l'' _ IH1 _ IH2];
    cbn [forallb]; [reflexivity|now rewrite IH| |congruence].
  now rewrite !andb_assoc, (andb_comm (in_range y) (in_range x)).
Qed.

Lemma same_tile_facts (d d' : domino) :
  same_tile d d' ->
  in_range d' = in_range d /\
  forall v, count_on v d' = count_on v d /\
            ((fst d' =? v)%nat && (snd d' =? v)%nat
             = (fst d =? v)%nat && (snd d =? v)%nat).
Proof.
  intros [->| ->]; [repeat split|]. cbn [fst snd]. split.
  - unfold in_range. cbn [fst snd]. apply andb_comm.
  - intros v. unfold count_on. cbn [fst snd]. split; [lia|apply andb_comm].
Qed.

Lemma rearranged_facts (dominoes arranged : list domino) :
  rearranged dominoes arranged ->
  forallb in_range arranged = forallb in_range dominoes /\
  forall v, count_value v arranged = count_value v dominoes /\
            has_double v arranged = has_double v dominoes.
Proof.
  intros (reordered & Hp & Hf).
  rewrite (forallb_in_range_perm _ _ Hp).
  assert (H : forallb in_range arranged = forallb in_range reordered /\
              forall v, count_value v arranged = count_value v reordered /\
                        has_double v arranged = has_double v reordered).
  { clear Hp. induction Hf as [|d d' l l' Hd _ IH]; [repeat split|].
    destruct (same_tile_facts d d' Hd) as [Er Hv]. destruct IH as [IHr IHv].
    split; [cbn [forallb]; now rewrite Er, IHr|].
    intros v. destruct (Hv v) as [Ec Eb]. destruct (IHv v) as [IHc IHb].
    change (count_value v (?x :: ?l)) with (count_on v x + count_value v l)%nat.
    change (has_double v (?x :: ?l))
      with ((fst x =? v)%nat && (snd x =? v)%nat || has_double v l).
    now rewrite Ec, Eb, IHc, IHb. }
  destruct H as [Er Hv]. split; [exact Er|].
  intros v. destruct (Hv v) as [Ec Eb].
  now rewrite Ec, Eb, (count_value_perm v _ _ Hp), (has_double_perm v _ _ Hp).
Qed.

Lemma dominoes_verdict_rearranged (dominoes arranged : list domino) :
  rearranged dominoes arranged ->
  dominoes_verdict arranged = dominoes_verdict dominoes.
Proof.
  intros Hr. destruct (rearranged_facts _ _ Hr) as [Er Hv].
  unfold dominoes_verdict. rewrite Er. cbn [seq map existsb foldr].
  now rewrite !(proj1 (Hv _)), !(proj2 (Hv _)).
Qed.

(** X10: the answer of [canDominoesMakeRow] depends on the set of tiles
    only: it is the same for the tiles in any order, with any of them turned
    round. *)
Theorem canDominoesMakeRow_rearranged (dominoes arranged : list domino) :
  rearranged dominoes arranged ->
  canDominoesMakeRow arranged = canDominoesMakeRow dominoes.
Proof.
  intros Hr. rewrite !canDominoesMakeRow_verdict.
  now apply dominoes_verdict_rearranged.
Qed.

Lemma canDominoesMakeRow_rearranged_witness :
  rearranged [(1, 2); (1, 1); (2, 2)]%nat [(1, 1); (2, 1); (2, 2)]%nat /\
  canDominoesMakeRow [(1, 1); (2, 1); (2, 2)]%nat
  = canDominoesMakeRow [(1, 2); (1, 1); (2, 2)]%nat.
Proof.
  assert (H : rearranged [(1, 2); (1, 1); (2, 2)]%nat [(1, 1); (2, 1); (2, 2)]%nat).
  { exists [(1, 1); (1, 2); (2, 2)]%nat. split; [apply perm_swap|].
    constructor; [now left|]. constructor; [now right|].
    constructor; [now left|]. constructor. }
  split; [exact H|].
  exact (canDominoesMakeRow_rearranged _ _ H).
Defined.

Lemma dominoes_verdict_out_of_range (dominoes : list domino) (d : domino) :
  In d dominoes -> (6 < fst d \/ 6 < snd d)%nat -> dominoes_verdict dominoes = false.
Proof.
  intros Hin Hd. unfold dominoes_verdict.
  replace (forallb in_range dominoes) with false; [reflexivity|].
  symmetry. apply not_true_is_false. intros Hall.
  rewrite forallb_forall in Hall. specialize (Hall d Hin).
  unfold in_range in Hall. apply andb_prop in Hall as [H1 H2].
  apply Nat.ltb_lt in H1, H2. lia.
Qed.

(** X11: among tiles whose values are array indices, a tile value above 6
    makes [canDominoesMakeRow] answer [false], whatever the tiles: the count
    of that value is [NaN], and so is the number of odd counts. *)
Theorem canDominoesMakeRow_out_of_range (dominoes : list domino) (d : domino) :
  List.Forall tile_indexed dominoes ->
  In d dominoes -> (6 < fst d \/ 6 < snd d)%nat ->
  canDominoesMakeRow dominoes = false.
Proof.
  intros _ Hin Hd. rewrite canDominoesMakeRow_verdict.
  now apply (dominoes_verdict_out_of_range dominoes d).
Qed.

Lemma canDominoesMakeRow_out_of_range_witness :
  List.Forall tile_indexed [(0, 1); (1, 7)]%nat /\
  In (1, 7)%nat [(0, 1); (1, 7)]%nat /\ (6 < fst (1, 7) \/ 6 < snd (1, 7))%nat /\
  canDominoesMakeRow [(0, 1); (1, 7)]%nat = false.
Proof.
  assert (H0 : List.Forall tile_indexed [(0, 1); (1, 7)]%nat)
    by (repeat (apply List.Forall_cons; [split; reflexivity|]); apply List.Forall_nil).
  assert (H1 : In (1, 7)%nat [(0, 1); (1, 7)]%nat) by (right; left; reflexivity).
  assert (H2 : (6 < fst (1, 7) \/ 6 < snd (1, 7))%nat) by (right; simpl; lia).
  split_and!; [exact H0|exact H1|exact H2|].
  exact (canDominoesMakeRow_out_of_range _ _ H0 H1 H2).
Defined.

Lemma existsb_seq_true (f : nat -> bool) (n i : nat) :
  (i < n)%nat -> f i = true -> existsb f (seq 0 n) = true.
Proof.
  intros Hlt Hf. apply existsb_exists. exists i. split; [|exact Hf].
  apply in_seq. lia.
Qed.

(** X12: among tiles whose values are array indices, a double that is the
    only tile carrying its value makes [canDominoesMakeRow] answer [false];
    so it rejects a single double tile, which is a row by itself. *)
Theorem canDominoesMakeRow_lonely_double (dominoes : list domino) (v : nat) :
  List.Forall tile_indexed dominoes ->
  In (v, v) dominoes -> count_value v dominoes = 2%nat ->
  canDominoesMakeRow dominoes = false /\
  canDominoesMakeRow [(v, v)] = false /\ is_row [(v, v)].
Proof.
  assert (Hmain : forall ds, In (v, v) ds -> count_value v ds = 2%nat ->
                             canDominoesMakeRow ds = false).
  { intros ds Hin Hc. destruct (Nat.ltb_spec v 7) as [Hlt|Hge].
    - rewrite canDominoesMakeRow_verdict. unfold dominoes_verdict.
      rewrite (existsb_seq_true _ 7 v Hlt).
      + cbn [negb]. now rewrite andb_false_r.
      + rewrite Hc. cbn [Nat.eqb andb]. unfold has_double.
        apply existsb_exists. exists (v, v). split; [exact Hin|].
        cbn [fst snd]. now rewrite Nat.eqb_refl.
    - rewrite canDominoesMakeRow_verdict.
      apply (dominoes_verdict_out_of_range ds (v, v) Hin). cbn [fst]. lia. }
  intros _ Hin Hc. split_and!; [now apply Hmain| |exact I].
  apply Hmain; [now left|]. unfold count_value, count_on. cbn [map foldr fst snd].
  now rewrite Nat.eqb_refl.
Qed.

Lemma canDominoesMakeRow_lonely_double_witness :
  List.Forall tile_indexed [(3, 3); (1, 2)]%nat /\
  In (3, 3)%nat [(3, 3); (1, 2)]%nat /\ count_value 3 [(3, 3); (1, 2)]%nat = 2%nat /\
  canDominoesMakeRow [(3, 3); (1, 2)]%nat = false.
Proof.
  assert (H0 : List.Forall tile_indexed [(3, 3); (1, 2)]%nat)
    by (repeat (apply List.Forall_cons; [split; reflexivity|]); apply List.Forall_nil).
  assert (H1 : In (3, 3)%nat [(3, 3); (1, 2)]%nat) by (left; reflexivity).
  assert (H2 : count_value 3 [(3, 3); (1, 2)]%nat = 2%nat) by reflexivity.
  split_and!; [exact H0|exact H1|exact H2|].
  exact (proj1 (canDominoesMakeRow_lonely_double _ _ H0 H1 H2)).
Defined.

Lemma count_value_cons (v : nat) (d : domino) (l : list domino) :
  count_value v (d :: l) = (count_on v d + count_value v l)%nat.
Proof. reflexivity. Qed.

Lemma last_cons_default {A : Type} (d d' : A) (rest : list A) :
  List.last (d' :: rest) d = List.last rest d'.
Proof.
  revert d d'. induction rest as [|x rest IH]; intros d d'; [reflexivity|].
  change (List.last (d' :: x :: rest) d) with (List.last (x :: rest) d).
  rewrite (IH d x). symmetry. apply IH.
Qed.

Lemma mod2_odd (n : nat) : (n mod 2)%nat = Nat.b2n (Nat.odd n).
Proof. now rewrite <- Nat.bit0_mod, Nat.bit0_odd. Qed.

(** In a row the values at the junctions occur an even number of times: only
    the two open ends count. *)
Lemma row_parity (d : domino) (rest : list domino) (v : nat) :
  is_row (d :: rest) ->
  Nat.odd (count_value v (d :: rest))
  = xorb (fst d =? v)%nat (row_end d rest =? v)%nat.
Proof.
  revert d. induction rest as [|d' rest IH]; intros d Hrow.
  - unfold row_end. cbn [List.last]. rewrite count_value_cons. unfold count_value, count_on.
    cbn [map foldr]. rewrite Nat.add_0_r, Nat.odd_add.
    now destruct (fst d =? v)%nat, (snd d =? v)%nat.
  - destruct Hrow as [Ej Hrow]. rewrite count_value_cons, Nat.odd_add, (IH d' Hrow).
    unfold row_end. rewrite last_cons_default.
    unfold count_on. rewrite Nat.odd_add, Ej.
    destruct (fst d =? v)%nat, (fst d' =? v)%nat, (snd (List.last rest d') =? v)%nat;
      reflexivity.
Qed.

(** A double inside a row of at least two tiles has a neighbour with its
    value. *)
Lemma row_double_count (dominoes : list domino) (v : nat) :
  is_row dominoes -> (2 <= length dominoes)%nat ->
  has_double v dominoes = true -> (3 <= count_value v dominoes)%nat.
Proof.
  induction dominoes as [|d rest IH]; intros Hrow Hlen Hd; [simpl in Hlen; lia|].
  destruct rest as [|d' rest]; [simpl in Hlen; lia|].
  destruct Hrow as [Ej Hrow]. rewrite !count_value_cons.
  unfold has_double in Hd. cbn [existsb] in Hd.
  destruct ((fst d =? v)%nat && (snd d =? v)%nat) eqn:E1.
  - apply andb_prop in E1 as [Ea Eb]. apply Nat.eqb_eq in Ea, Eb.
    unfold count_on. rewrite <- Ej, Eb, Ea, !Nat.eqb_refl. lia.
  - cbn [orb] in Hd. destruct rest as [|d'' rest].
    + cbn [existsb] in Hd. rewrite orb_false_r in Hd.
      apply andb_prop in Hd as [Ea Eb]. apply Nat.eqb_eq in Ea, Eb.
      unfold count_on. rewrite Ej, Eb, Ea, !Nat.eqb_refl. cbn. lia.
    + assert (H3 : (3 <= count_value v (d' :: d'' :: rest))%nat).
      { apply IH; [exact Hrow|simpl; lia|exact Hd]. }
      rewrite count_value_cons in H3. lia.
Qed.

Lemma odd_ends_count (a z : nat) :
  (a < 7)%nat -> (z < 7)%nat ->
  let odd := foldr Nat.add O
               (map (fun v => Nat.b2n (xorb (a =? v)%nat (z =? v)%nat)) (seq 0 7)) in
  odd = 0%nat \/ odd = 2%nat.
Proof.
  intros Ha Hz.
  destruct a as [|[|[|[|[|[|[|a]]]]]]]; try lia;
    destruct z as [|[|[|[|[|[|[|z]]]]]]]; try lia; cbn; auto.
Qed.

Lemma last_in_range (d : domino) (rest : list domino) :
  forallb in_range (d :: rest) = true -> in_range (List.last rest d) = true.
Proof.
  revert d. induction rest as [|d' rest IH]; intros d Hr; cbn [forallb] in Hr.
  - now rewrite andb_true_r in Hr.
  - apply andb_prop in Hr as [_ Hr]. rewrite last_cons_default.
    now apply IH.
Qed.

Lemma dominoes_verdict_row (dominoes : list domino) :
  is_row dominoes -> (2 <= length dominoes)%nat ->
  forallb in_range dominoes = true ->
  dominoes_verdict dominoes = true.
Proof.
  intros Hrow Hlen Hr. unfold dominoes_verdict. rewrite Hr. cbn [andb].
  apply andb_true_intro. split.
  - apply negb_true_iff, not_true_is_false. intros Hex.
    apply existsb_exists in Hex as (v & _ & Hv).
    apply andb_prop in Hv as [Hc Hd]. apply Nat.eqb_eq in Hc.
    pose proof (row_double_count dominoes v Hrow Hlen Hd). lia.
  - destruct dominoes as [|d rest]; [simpl in Hlen; lia|].
    pose proof (last_in_range d rest Hr) as Hz.
    cbn [forallb] in Hr. apply andb_prop in Hr as [Hd _].
    unfold in_range in Hd, Hz. apply andb_prop in Hd as [Ha _], Hz as [_ Hz].
    apply Nat.ltb_lt in Ha, Hz.
    pose proof (odd_ends_count (fst d) (row_end d rest) Ha Hz) as Hodd.
    cbv zeta in *.
    rewrite (map_ext (fun i => (count_value i (d :: rest) mod 2)%nat)
               (fun v => Nat.b2n (xorb (fst d =? v)%nat (row_end d rest =? v)%nat))).
    + destruct Hodd as [-> | ->]; reflexivity.
    + intros v. now rewrite mod2_odd, (row_parity d rest v Hrow).
Qed.

(** X13: [canDominoesMakeRow] never rejects tiles that can be laid in a row.
    Whenever at least two tiles with values up to 6 can be reordered and
    turned so that each tile ends with the value the next one starts with,
    the answer is [true]. *)
Theorem canDominoesMakeRow_complete (dominoes row : list domino) :
  rearranged dominoes row -> is_row row -> (2 <= length row)%nat ->
  forallb in_range row = true ->
  canDominoesMakeRow dominoes = true.
Proof.
  intros Hre Hrow Hlen Hr. rewrite canDominoesMakeRow_verdict.
  rewrite <- (dominoes_verdict_rearranged dominoes row Hre).
  now apply dominoes_verdict_row.
Qed.

Lemma canDominoesMakeRow_complete_witness :
  rearranged [(1, 1); (2, 2); (1, 2)]%nat [(1, 1); (1, 2); (2, 2)]%nat /\
  is_row [(1, 1); (1, 2); (2, 2)]%nat /\
  canDominoesMakeRow [(1, 1); (2, 2); (1, 2)]%nat = true.
Proof.
  assert (H1 : rearranged [(1, 1); (2, 2); (1, 2)]%nat [(1, 1); (1, 2); (2, 2)]%nat).
  { exists [(1, 1); (1, 2); (2, 2)]%nat. split.
    - apply perm_skip, perm_swap.
    - constructor; [now left|]. constructor; [now left|].
      constructor; [now left|]. constructor. }
  assert (H2 : is_row [(1, 1); (1, 2); (2, 2)]%nat) by (cbn; auto).
  split_and!; [exact H1|exact H2|].
  apply (canDominoesMakeRow_complete _ _ H1 H2); [simpl; lia|reflexivity].
Defined.

(** * Properties of the other generators *)

(** ** [getFibonacciSequence] *)

Lemma fibonacci_SS (n : nat) : fibonacci (S (S n)) = fibonacci n + fibonacci (S n).
Proof. reflexivity. Qed.

Lemma fibonacci_pair_spec (n : nat) :
  fibonacci_pair n = (fibonacci n, fibonacci (S n)).
Proof.
  induction n as [|n IH]; [reflexivity|].
  cbn [fibonacci_pair]. rewrite IH. now rewrite fibonacci_SS.
Qed.

Lemma fibonacci_nonneg (n : nat) : 0 <= fibonacci n /\ 0 <= fibonacci (S n).
Proof.
  induction n as [|n [IH1 IH2]]; [cbn; lia|].
  split; [exact IH2|]. rewrite fibonacci_SS. lia.
Qed.

Lemma fibonacci_mono (i j : nat) : (i <= j)%nat -> fibonacci i <= fibonacci j.
Proof.
  induction 1 as [|j _ IH]; [lia|].
  etransitivity; [exact IH|].
  destruct j as [|j]; [cbn; lia|].
  rewrite fibonacci_SS. pose proof (fibonacci_nonneg j). lia.
Qed.

Lemma fibonacci_loop_lookup (n i : nat) (ab : double * double) :
  (i < n)%nat ->
  fibonacci_loop n ab !! i = Some (fst (Nat.iter i fibonacci_step ab)).
Proof.
  revert i ab. induction n as [|n IH]; intros i ab Hi; [lia|].
  destruct i as [|i]; [reflexivity|].
  cbn [fibonacci_loop]. change ((?x :: ?l) !! S i) with (l !! i).
  rewrite IH by lia. now rewrite Nat.iter_succ_r.
Qed.

Lemma round_double_small (z : Z) : z < 2 ^ 53 -> round_double z = Finite z.
Proof.
  intros Hz. unfold round_double.
  destruct (Z.ltb_spec z (2 ^ 53)); [reflexivity|lia].
Qed.

(** While the Fibonacci numbers fit 53 bits, the loop holds the exact number
    in [a] and the rounded next one in [b]. *)
Lemma fibonacci_state (i : nat) :
  fibonacci i < 2 ^ 53 ->
  Nat.iter i fibonacci_step (Finite 0, Finite 1)
  = (Finite (fibonacci i), round_double (fibonacci (S i))).
Proof.
  induction i as [|i IH]; intros Hi; [reflexivity|].
  rewrite Nat.iter_succ, IH.
  - unfold fibonacci_step. rewrite (round_double_small (fibonacci (S i)) Hi).
    cbn [js_add]. rewrite fibonacci_SS. do 2 f_equal. lia.
  - pose proof (fibonacci_mono i (S i)). lia.
Qed.

Lemma pair_eq_inv {A B : Type} (a a' : A) (b b' : B) :
  (a, b) = (a', b') -> a = a' /\ b = b'.
Proof. intros E. now inversion E. Qed.

Lemma fibonacci_78_79 :
  fibonacci 78 = 8944394323791464 /\ fibonacci 79 = 14472334024676221.
Proof.
  assert (E : fibonacci_pair 78 = (8944394323791464, 14472334024676221))
    by (vm_compute; reflexivity).
  rewrite fibonacci_pair_spec in E. exact (pair_eq_inv _ _ _ _ E).
Qed.

Lemma fibonacci_78 : fibonacci 78 = 8944394323791464.
Proof. exact (proj1 fibonacci_78_79). Qed.

Lemma fibonacci_79 : fibonacci 79 = 14472334024676221.
Proof. exact (proj2 fibonacci_78_79). Qed.

(** X14: the first 79 values of [getFibonacciSequence] are the Fibonacci
    numbers 0, 1, 1, 2, 3, 5, ... exactly: however many values are taken, the
    value at position [i <= 78] is the [i]-th Fibonacci number. *)
Theorem getFibonacciSequence_exact (n i : nat) :
  (i < n)%nat -> (i <= 78)%nat ->
  getFibonacciSequence n !! i = Some (Finite (fibonacci i)).
Proof.
  intros Hn Hi. unfold getFibonacciSequence.
  rewrite fibonacci_loop_lookup by exact Hn.
  rewrite fibonacci_state; [reflexivity|].
  pose proof (fibonacci_mono i 78 Hi) as Hm. rewrite fibonacci_78 in Hm. lia.
Qed.

Lemma getFibonacciSequence_exact_witness :
  (13 < 20)%nat /\ (13 <= 78)%nat /\
  getFibonacciSequence 20 !! 13%nat = Some (Finite 233).
Proof.
  split_and!; [lia|lia|].
  exact (getFibonacciSequence_exact 20 13 ltac:(lia) ltac:(lia)).
Defined.

(** X15: from the 80th value on the doubles of [getFibonacciSequence] lose
    the Fibonacci numbers: the value at position 79 is 14472334024676220,
    one less than the 79th Fibonacci number 14472334024676221, which has no
    double. *)
Theorem getFibonacciSequence_rounds (n : nat) :
  (79 < n)%nat ->
  getFibonacciSequence n !! 79%nat = Some (Finite (fibonacci 79 - 1)) /\
  round_double (fibonacci 79) <> Finite (fibonacci 79).
Proof.
  intros Hn. unfold getFibonacciSequence.
  rewrite fibonacci_loop_lookup by exact Hn.
  rewrite fibonacci_79. split; [vm_compute; reflexivity|].
  vm_compute. discriminate.
Qed.

Lemma getFibonacciSequence_rounds_witness :
  getFibonacciSequence 80 !! 79%nat = Some (Finite 14472334024676220).
Proof.
  pose proof (proj1 (getFibonacciSequence_rounds 80 ltac:(lia))) as H.
  rewrite fibonacci_79 in H. exact H.
Defined.

Lemma fibonacci_step_Infinity :
  fibonacci_step (Infinity, Infinity) = (Infinity, Infinity).
Proof. reflexivity. Qed.

Lemma iter_fibonacci_Infinity (k : nat) :
  Nat.iter k fibonacci_step (Infinity, Infinity) = (Infinity, Infinity).
Proof. induction k as [|k IH]; [reflexivity|]. now rewrite Nat.iter_succ, IH. Qed.

Lemma iter_add {A : Type} (f : A -> A) (k m : nat) (x : A) :
  Nat.iter (k + m) f x = Nat.iter k f (Nat.iter m f x).
Proof.
  induction k as [|k IH]; [reflexivity|].
  cbn [Nat.add]. now rewrite !Nat.iter_succ, IH.
Qed.

Lemma fibonacci_overflow :
  Nat.iter 1477 fibonacci_step (Finite 0, Finite 1) = (Infinity, Infinity).
Proof. vm_compute. reflexivity. Qed.

Lemma fibonacci_last_number :
  match fst (Nat.iter 1476 fibonacci_step (Finite 0, Finite 1)) with
  | Finite _ => True
  | Infinity => False
  end.
Proof. vm_compute. exact I. Qed.

(** X16: [getFibonacciSequence] ends up at [Infinity]: the value at position
    1476 is the last number, and every value from position 1477 on is
    [Infinity]. *)
Theorem getFibonacciSequence_overflow (n i : nat) :
  (i < n)%nat -> (1477 <= i)%nat ->
  getFibonacciSequence n !! i = Some Infinity /\
  exists z, getFibonacciSequence 1477 !! 1476%nat = Some (Finite z).
Proof.
  intros Hn Hi. split.
  - unfold getFibonacciSequence. rewrite fibonacci_loop_lookup by exact Hn.
    replace i with ((i - 1477) + 1477)%nat by lia.
    now rewrite iter_add, fibonacci_overflow, iter_fibonacci_Infinity.
  - unfold getFibonacciSequence. rewrite fibonacci_loop_lookup by lia.
    pose proof fibonacci_last_number as E.
    destruct (fst (Nat.iter 1476 fibonacci_step (Finite 0, Finite 1))) as [z|].
    + now exists z.
    + destruct E.
Qed.

Lemma getFibonacciSequence_overflow_witness :
  (1500 < 1501)%nat /\ (1477 <= 1500)%nat /\
  getFibonacciSequence 1501 !! 1500%nat = Some Infinity.
Proof.
  split_and!; [lia|lia|].
  exact (proj1 (getFibonacciSequence_overflow 1501 1500 ltac:(lia) ltac:(lia))).
Defined.

(** ** [get99BottlesOfBeer] *)

Lemma bottles_many (n : Z) : 1 < n -> bottles n = toString n +^ " bottles".
Proof.
  intros Hn. unfold bottles.
  destruct (Z.eqb_spec n 0); [lia|]. destruct (Z.eqb_spec n 1); [lia|].
  now rewrite append_assoc.
Qed.

Lemma verse_many (n : Z) :
  2 < n ->
  verse n
  = [toString n +^ " bottles of beer on the wall, " +^ toString n +^ " bottles of beer.";
     "Take one down and pass it around, " +^ toString (n - 1)
     +^ " bottles of beer on the wall."].
Proof.
  intros Hn. unfold verse. rewrite !bottles_many by lia.
  now rewrite !append_assoc.
Qed.

Lemma bottles_turn_verses (count : Z) :
  2 < count -> Z.odd count = true ->
  bottles_turn count
  = (verse count ++ verse (count - 1), count - 2).
Proof.
  intros Hc Hodd. unfold bottles_turn. cbv zeta.
  replace (count - 1 - 1) with (count - 2) by lia. f_equal.
  rewrite (verse_many count Hc). cbn [app]. do 2 f_equal.
  unfold verse. replace (count - 1 - 1) with (count - 2) by lia.
  rewrite (bottles_many (count - 1)) by lia.
  f_equal; [now rewrite !append_assoc|]. f_equal.
  unfold bottles. destruct (Z.eqb_spec (count - 2) 0) as [E|_].
  - rewrite Z.sub_move_0_r in E. subst count. discriminate.
  - destruct (Z.ltb_spec 1 (count - 2)), (Z.eqb_spec (count - 2) 1);
      try lia; now rewrite !append_assoc.
Qed.

Lemma bottles_loop_S (fuel : nat) (count : Z) :
  1 < count ->
  bottles_loop (S fuel) count
  = option_map (app (fst (bottles_turn count)))
      (bottles_loop fuel (snd (bottles_turn count))).
Proof.
  intros Hc. cbn [bottles_loop]. destruct (Z.ltb_spec 1 count); [|lia].
  now destruct (bottles_turn count).
Qed.

Lemma countdown_S (n : nat) : countdown (S n) = Z.of_nat (S n) :: countdown n.
Proof. reflexivity. Qed.

Lemma bottles_loop_verses (k fuel n : nat) :
  n = S (2 * k) -> (k < fuel)%nat ->
  option_map (fun lines => lines ++ verse 1) (bottles_loop fuel (Z.of_nat n))
  = Some (flat_map verse (countdown n)).
Proof.
  revert fuel n. induction k as [|k IH]; intros fuel n -> Hk.
  - destruct fuel as [|fuel]; [lia|]. reflexivity.
  - destruct fuel as [|fuel]; [lia|].
    specialize (IH fuel (S (2 * k)) eq_refl ltac:(lia)).
    replace (S (2 * S k)) with (S (S (S (2 * k)))) by lia.
    remember (S (2 * k)) as m eqn:Em.
    assert (Hodd : Z.odd (Z.of_nat (S (S m))) = true).
    { rewrite !Nat2Z.inj_succ, Z.odd_succ, Z.even_succ, Em, Nat2Z.inj_succ,
        Z.odd_succ, Nat2Z.inj_mul, Z.even_mul. reflexivity. }
    rewrite bottles_loop_S by lia.
    rewrite bottles_turn_verses by (exact Hodd || lia).
    cbn [fst snd]. rewrite !countdown_S.
    replace (Z.of_nat (S (S m)) - 2) with (Z.of_nat m) by lia.
    replace (Z.of_nat (S (S m)) - 1) with (Z.of_nat (S m)) by lia.
    destruct (bottles_loop fuel (Z.of_nat m)) as [lines|]; [|discriminate].
    cbn [option_map] in *. injection IH as IH.
    change (flat_map verse (?x :: ?y :: ?l)) with (verse x ++ verse y ++ flat_map verse l).
    rewrite <- IH. now rewrite <- !app_assoc.
Qed.

(** X17: [get99BottlesOfBeer] sings the whole song: 200 lines, the verses
    for 99, 98, ..., 1 bottles in this order, each saying how many bottles
    are left, with [bottle] in the singular for 1 and [no more bottles] for
    none, and then the two closing lines. *)
Theorem get99BottlesOfBeer_song (fuel : nat) :
  (50 <= fuel)%nat ->
  exists lines,
    get99BottlesOfBeer fuel = Some lines /\
    lines = flat_map verse (countdown 99)
            ++ ["No more bottles of beer on the wall, no more bottles of beer.";
                "Go to the store and buy some more, 99 bottles of beer on the wall."] /\
    length lines = 200%nat.
Proof.
  intros Hf. pose proof (bottles_loop_verses 49 fuel 99 eq_refl ltac:(lia)) as H.
  change (Z.of_nat 99) with 99 in H.
  assert (L : length (flat_map verse (countdown 99)) = 198%nat).
  { assert (G : forall n, length (flat_map verse (countdown n)) = (2 * n)%nat).
    { clear. induction n as [|n IHn]; [reflexivity|].
      rewrite countdown_S.
      change (flat_map verse (?x :: ?l)) with (verse x ++ flat_map verse l).
      rewrite length_app, IHn. cbn [verse length]. lia. }
    exact (G 99%nat). }
  unfold get99BottlesOfBeer. remember (flat_map verse (countdown 99)) as song eqn:Es.
  destruct (bottles_loop fuel 99) as [lines|]; [|discriminate].
  cbn [option_map] in *. injection H as H.
  eexists. split; [reflexivity|]. rewrite <- H in *. split.
  - rewrite <- app_assoc. reflexivity.
  - rewrite length_app in *. cbn [length verse] in *. lia.
Qed.

Lemma get99BottlesOfBeer_song_witness :
  (50 <= 50)%nat /\
  exists lines,
    get99BottlesOfBeer 50 = Some lines /\
    lines = flat_map verse (countdown 99)
            ++ ["No more bottles of beer on the wall, no more bottles of beer.";
                "Go to the store and buy some more, 99 bottles of beer on the wall."] /\
    length lines = 200%nat.
Proof.
  split; [lia|]. exact (get99BottlesOfBeer_song 50 ltac:(lia)).
Defined.

(** * Properties of the other katas *)

(** ** [expandBraces] *)

Example expandBraces_examples :
  expandBraces 100 "~/{Downloads,Pictures}/*.{jpg,gif,png}"
  = Some ["~/Pictures/*.png"; "~/Pictures/*.gif"; "~/Pictures/*.jpg";
          "~/Downloads/*.png"; "~/Downloads/*.gif"; "~/Downloads/*.jpg"] /\
  expandBraces 100 "It{{em,alic}iz,erat}e{d,}, please."
  = Some ["Iterate, please."; "Iterated, please."; "Italicize, please.";
          "Italicized, please."; "Itemize, please."; "Itemized, please."] /\
  expandBraces 100 "thumbnail.{png,jp{e,}g}"
  = Some ["thumbnail.jpg"; "thumbnail.png"; "thumbnail.jpeg"] /\
  expandBraces 100 "nothing to do" = Some ["nothing to do"].
Proof. vm_compute. auto. Qed.

Lemma append_String (c : ascii) (s t : string) : String c s +^ t = String c (s +^ t).
Proof. reflexivity. Qed.

Lemma occurrences_app (c : ascii) (s t : string) :
  occurrences c (s +^ t) = (occurrences c s + occurrences c t)%nat.
Proof.
  induction s as [|d s IH]; [reflexivity|].
  rewrite append_String. cbn [occurrences]. rewrite IH. lia.
Qed.

Lemma group_body_spec (s inner : string) :
  group_body s = Some inner ->
  occurrences "{" inner = O /\ occurrences "}" inner = O /\
  exists after, s = inner +^ "}" +^ after.
Proof.
  revert inner. induction s as [|c s IH]; intros inner E; [discriminate|].
  cbn [group_body] in E. destruct (Ascii.eqb_spec c "}") as [->|Hc].
  - injection E as <-. split_and!; [reflexivity..|]. now exists s.
  - destruct (Ascii.eqb_spec c "{") as [->|Hc']; [discriminate|].
    destruct (group_body s) as [inner'|]; [|discriminate].
    injection E as <-. destruct (IH inner' eq_refl) as (H1 & H2 & after & ->).
    cbn [occurrences].
    destruct (Ascii.eqb_spec c "{"); [contradiction|].
    destruct (Ascii.eqb_spec c "}"); [contradiction|].
    split_and!; [exact H1|exact H2|]. now exists after.
Qed.

Lemma group_body_complete (inner after : string) :
  occurrences "{" inner = O -> occurrences "}" inner = O ->
  group_body (inner +^ "}" +^ after) = Some inner.
Proof.
  induction inner as [|c inner IH]; intros H1 H2; [reflexivity|].
  cbn [occurrences] in H1, H2. rewrite !append_String. cbn [group_body].
  destruct (Ascii.eqb_spec c "}"); [discriminate|].
  destruct (Ascii.eqb_spec c "{"); [discriminate|].
  rewrite IH by lia. reflexivity.
Qed.

Lemma match_at_spec (s matched inner : string) :
  match_at s = Some (matched, inner) ->
  matched = "{" +^ inner +^ "}" /\
  occurrences "{" inner = O /\ occurrences "}" inner = O /\
  exists after, s = matched +^ after.
Proof.
  destruct s as [|c s]; [discriminate|]. cbn [match_at].
  destruct (Ascii.eqb_spec c "{") as [->|]; [|discriminate].
  destruct (group_body s) as [inner'|] eqn:E; [|discriminate].
  intros [= <- <-]. destruct (group_body_spec s inner' E) as (H1 & H2 & after & ->).
  split_and!; [reflexivity|exact H1|exact H2|]. exists after.
  now rewrite !append_String, append_assoc.
Qed.

Lemma String_match_spec (s matched inner : string) :
  String_match s = Some (matched, inner) ->
  matched = "{" +^ inner +^ "}" /\
  occurrences "{" inner = O /\ occurrences "}" inner = O /\
  exists before after, s = before +^ matched +^ after.
Proof.
  induction s as [|c s IH].
  - cbn. discriminate.
  - cbn [String_match]. destruct (match_at (String c s)) as [[m i]|] eqn:E.
    + intros [= -> ->]. destruct (match_at_spec _ _ _ E) as (H0 & H1 & H2 & after & Hs).
      split_and!; [exact H0|exact H1|exact H2|]. exists "", after. exact Hs.
    + intros H. destruct (IH H) as (H0 & H1 & H2 & before & after & ->).
      split_and!; [exact H0|exact H1|exact H2|]. now exists (String c before), after.
Qed.

Lemma String_match_complete (before inner after : string) :
  occurrences "{" inner = O -> occurrences "}" inner = O ->
  String_match (before +^ "{" +^ inner +^ "}" +^ after) <> None.
Proof.
  intros H1 H2. induction before as [|c before IH].
  - change (String_match (String "{" (inner +^ "}" +^ after)) <> None).
    cbn [String_match match_at].
    destruct (Ascii.eqb_spec "{" "{"); [|contradiction].
    now rewrite (group_body_complete inner after H1 H2).
  - rewrite !append_String. cbn [String_match].
    destruct (match_at _); [discriminate|exact IH].
Qed.

Lemma strip_prefix_spec (p s after : string) :
  strip_prefix p s = Some after -> s = p +^ after.
Proof.
  revert s. induction p as [|a p IH]; intros s E.
  - cbn in E. now injection E as <-.
  - destruct s as [|b s]; [discriminate|]. cbn [strip_prefix] in E.
    destruct (Ascii.eqb_spec a b) as [->|]; [|discriminate].
    rewrite append_String. f_equal. now apply IH.
Qed.

Lemma strip_prefix_app (p after : string) : strip_prefix p (p +^ after) = Some after.
Proof.
  induction p as [|a p IH]; [now destruct after|].
  rewrite append_String. cbn [strip_prefix].
  now destruct (Ascii.eqb_spec a a).
Qed.

Lemma String_search_spec (pat s before after : string) :
  String_search pat s = Some (before, after) -> s = before +^ pat +^ after.
Proof.
  revert before. induction s as [|c s IH]; intros before.
  - cbn [String_search]. destruct (strip_prefix pat "") as [a|] eqn:E; [|discriminate].
    intros [= <- <-]. exact (strip_prefix_spec _ _ _ E).
  - cbn [String_search]. destruct (strip_prefix pat (String c s)) as [a|] eqn:E.
    + intros [= <- <-]. exact (strip_prefix_spec _ _ _ E).
    + destruct (String_search pat s) as [[b a]|]; [|discriminate].
      cbn [option_map fst snd]. intros [= <- <-].
      rewrite !append_String. f_equal. now apply IH.
Qed.

Lemma String_search_occurs (pat before after : string) :
  String_search pat (before +^ pat +^ after) <> None.
Proof.
  induction before as [|c before IH].
  - change ("" +^ pat) with pat. destruct (pat +^ after) eqn:E;
      cbn [String_search]; rewrite <- E, strip_prefix_app; discriminate.
  - rewrite !append_String. cbn [String_search].
    destruct (strip_prefix pat _); [discriminate|].
    destruct (String_search pat (before +^ pat +^ after)); [discriminate|contradiction].
Qed.

Lemma group_shape (before inner after : string) :
  before +^ ("{" +^ inner +^ "}") +^ after = before +^ "{" +^ inner +^ "}" +^ after.
Proof. now rewrite <- !append_assoc. Qed.

Lemma String_match_has_group (s matched inner : string) :
  String_match s = Some (matched, inner) -> has_group s.
Proof.
  intros E. destruct (String_match_spec _ _ _ E) as (-> & H1 & H2 & before & after & ->).
  exists before, inner, after. split_and!; [exact H1|exact H2|apply group_shape].
Qed.

Lemma String_match_None (s : string) : String_match s = None <-> ~ has_group s.
Proof.
  split.
  - intros E (before & inner & after & H1 & H2 & ->).
    now apply (String_match_complete before inner after H1 H2).
  - intros Hn. destruct (String_match s) as [[m i]|] eqn:E; [|reflexivity].
    destruct Hn. exact (String_match_has_group _ _ _ E).
Qed.

Lemma Array_includes_false (appeared : list string) (str : string) :
  Array_includes appeared str = false -> ~ In str appeared.
Proof.
  unfold Array_includes. intros H Hin.
  assert (E : existsb (String.eqb str) appeared = true).
  { apply existsb_exists. exists str. split; [exact Hin|apply String.eqb_refl]. }
  congruence.
Qed.

Lemma expand_loop_distinct (fuel : nat) (toExpand appeared ys : list string) :
  expand_loop fuel toExpand appeared = Some ys ->
  NoDup appeared ->
  NoDup (appeared ++ ys) /\ List.Forall (fun y => String_match y = None) ys.
Proof.
  revert toExpand appeared ys.
  induction fuel as [|fuel IH]; intros toExpand appeared ys E Hnd; [discriminate|].
  cbn [expand_loop] in E. destruct toExpand as [|str toExpand].
  - injection E as <-. rewrite app_nil_r. split; [exact Hnd|constructor].
  - destruct (String_match str) as [matched|] eqn:Em.
    + exact (IH _ _ _ E Hnd).
    + destruct (Array_includes appeared str) eqn:Ei.
      * exact (IH _ _ _ E Hnd).
      * destruct (expand_loop fuel toExpand (appeared ++ [str])) as [ys'|] eqn:E';
          [|discriminate].
        injection E as <-.
        assert (Hnd' : NoDup (appeared ++ [str])).
        { apply NoDup_app. split_and!; [exact Hnd| |apply NoDup_singleton].
          intros x Hx Hs. apply list_elem_of_singleton in Hs. subst x.
          apply (Array_includes_false _ _ Ei). now apply list_elem_of_In. }
        destruct (IH _ _ _ E' Hnd') as [Hn Hf].
        rewrite <- app_assoc in Hn. split; [exact Hn|].
        constructor; [exact Em|exact Hf].
Qed.

(** X18: [expandBraces] never yields a string twice, and what it yields is
    expanded to the end: no yielded string holds a group of braces around
    characters that are not braces. *)
Theorem expandBraces_distinct (fuel : nat) (str : string) (ys : list string) :
  expandBraces fuel str = Some ys ->
  NoDup ys /\ forall y, In y ys -> ~ has_group y.
Proof.
  intros E. destruct (expand_loop_distinct fuel [str] [] ys E (NoDup_nil_2)) as [Hn Hf].
  split; [exact Hn|]. intros y Hy. apply String_match_None.
  rewrite List.Forall_forall in Hf. exact (Hf y Hy).
Qed.

Lemma expandBraces_distinct_witness :
  expandBraces 20 "a{b,c,b}d{e,}"
  = Some ["abd"; "abde"; "acd"; "acde"] /\
  NoDup ["abd"; "abde"; "acd"; "acde"].
Proof.
  assert (E : expandBraces 20 "a{b,c,b}d{e,}" = Some ["abd"; "abde"; "acd"; "acde"])
    by (vm_compute; reflexivity).
  split; [exact E|]. exact (proj1 (expandBraces_distinct _ _ _ E)).
Defined.

(** X19: a string that holds no group of braces is yielded as it is, and
    nothing else is. *)
Theorem expandBraces_plain (fuel : nat) (str : string) :
  ~ has_group str -> (2 <= fuel)%nat ->
  expandBraces fuel str = Some [str].
Proof.
  intros Hn Hf. apply String_match_None in Hn.
  destruct fuel as [|[|fuel]]; [lia..|].
  unfold expandBraces. cbn [expand_loop]. rewrite Hn. reflexivity.
Qed.

Lemma expandBraces_plain_witness :
  expandBraces 2 "}nothing {to{ do" = Some ["}nothing {to{ do"].
Proof.
  apply expandBraces_plain; [|lia].
  apply String_match_None. vm_compute. reflexivity.
Defined.

Lemma group_body_open (before rest : string) :
  occurrences "}" before = O -> group_body (before +^ String "{" rest) = None.
Proof.
  induction before as [|c before IH]; intros H; [reflexivity|].
  cbn [occurrences] in H. rewrite append_String. cbn [group_body].
  destruct (Ascii.eqb_spec c "}"); [discriminate|].
  destruct (Ascii.eqb_spec c "{"); [reflexivity|].
  rewrite IH by lia. reflexivity.
Qed.

(** The leftmost group of a string is the first one that no closing brace
    comes before. *)
Lemma String_match_leftmost (before inner after : string) :
  occurrences "}" before = O ->
  occurrences "{" inner = O -> occurrences "}" inner = O ->
  String_match (before +^ "{" +^ inner +^ "}" +^ after)
  = Some ("{" +^ inner +^ "}", inner).
Proof.
  intros Hb H1 H2. induction before as [|c before IH].
  - change (String_match (String "{" (inner +^ "}" +^ after))
            = Some ("{" +^ inner +^ "}", inner)).
    cbn [String_match match_at].
    destruct (Ascii.eqb_spec "{" "{"); [|contradiction].
    now rewrite (group_body_complete inner after H1 H2).
  - cbn [occurrences] in Hb. rewrite !append_String. cbn [String_match].
    assert (E : match_at (String c (before +^ "{" +^ inner +^ "}" +^ after)) = None).
    { cbn [match_at]. destruct (Ascii.eqb_spec c "{"); [|reflexivity].
      replace (before +^ "{" +^ inner +^ "}" +^ after)
        with (before +^ String "{" (inner +^ "}" +^ after))
        by (rewrite !append_assoc; reflexivity).
      rewrite group_body_open by lia. reflexivity. }
    rewrite E. apply IH. lia.
Qed.

Lemma String_replace_occurrence (str pat replacement : string) :
  (exists before after, str = before +^ pat +^ after) ->
  exists before after,
    str = before +^ pat +^ after /\
    String_replace str pat replacement
    = before +^ GetSubstitution pat before after replacement +^ after.
Proof.
  intros (b & a & Hs). unfold String_replace.
  destruct (String_search pat str) as [[before after]|] eqn:E.
  - exists before, after. split; [exact (String_search_spec _ _ _ _ E)|reflexivity].
  - subst str. now destruct (String_search_occurs pat b a).
Qed.

Lemma String_replace_matched (str matched : string) :
  (exists before after, str = before +^ matched +^ after) ->
  String_replace str matched "$&" = str.
Proof.
  intros H. destruct (String_replace_occurrence str matched "$&" H) as (b & a & Hs & ->).
  cbn. now rewrite append_nil_r.
Qed.

Lemma expand_loop_self (str matched : string) (toExpand appeared : list string) (fuel : nat) :
  String_match str = Some (matched, "$&") ->
  expand_loop fuel (str :: toExpand) appeared = None.
Proof.
  intros E. induction fuel as [|fuel IH]; [reflexivity|].
  cbn [expand_loop]. rewrite E. cbn [fst snd].
  change (String_split "$&") with ["$&"]. cbn [fold_left].
  rewrite String_replace_matched; [exact IH|].
  destruct (String_match_spec _ _ _ E) as (_ & _ & _ & b & a & Hs). now exists b, a.
Qed.

(** X20: [expandBraces] never gets past a first group that reads [{$&}]:
    [replace] puts the group itself for [$&], so the string comes back on
    the stack unchanged, nothing is yielded and no number of turns ends the
    loop. *)
Theorem expandBraces_self_reference (before after : string) (fuel : nat) :
  occurrences "}" before = O ->
  expandBraces fuel (before +^ "{$&}" +^ after) = None.
Proof.
  intros Hb. unfold expandBraces. apply (expand_loop_self _ "{$&}").
  replace (before +^ "{$&}" +^ after) with (before +^ "{" +^ "$&" +^ "}" +^ after)
    by (rewrite !append_assoc; reflexivity).
  exact (String_match_leftmost before "$&" after Hb eq_refl eq_refl).
Qed.

Lemma expandBraces_self_reference_witness :
  expandBraces 1000 "price{$&} for {a,b}" = None.
Proof.
  exact (expandBraces_self_reference "price" " for {a,b}" 1000 eq_refl).
Defined.

Lemma GetSubstitution_plain (matched before after replacement : string) :
  occurrences "$" replacement = O ->
  GetSubstitution matched before after replacement = replacement.
Proof.
  induction replacement as [|c r IH]; intros H; [reflexivity|].
  cbn [occurrences] in H. cbn [GetSubstitution].
  destruct (Ascii.eqb_spec c "$"); [discriminate|].
  rewrite IH by lia. reflexivity.
Qed.

Lemma String_split_occurrences (c : ascii) (s alt : string) :
  In alt (String_split s) -> (occurrences c alt <= occurrences c s)%nat.
Proof.
  revert alt. induction s as [|d s IH]; intros alt Hin.
  - destruct Hin as [<-|[]]. reflexivity.
  - cbn [String_split] in Hin. cbn [occurrences].
    destruct (Ascii.eqb_spec d ",") as [->|Hd].
    + destruct Hin as [<-|Hin]; [cbn; lia|]. specialize (IH alt Hin). lia.
    + destruct (String_split s) as [|piece pieces] eqn:E.
      * destruct Hin as [<-|[]]. cbn [occurrences]. lia.
      * destruct Hin as [<-|Hin].
        -- cbn [occurrences]. specialize (IH piece (or_introl eq_refl)). lia.
        -- specialize (IH alt (or_intror Hin)). lia.
Qed.

Lemma String_split_length (s : string) :
  length (String_split s) = S (occurrences "," s).
Proof.
  induction s as [|d s IH]; [reflexivity|].
  cbn [String_split occurrences]. destruct (Ascii.eqb_spec d ",") as [->|Hd].
  - cbn [length]. rewrite IH. reflexivity.
  - destruct (String_split s) as [|piece pieces]; [discriminate|].
    cbn [length] in *. lia.
Qed.

(** A turn on a string with a group, when no dollar is about: the group and
    what each alternative gives. *)
Lemma String_replace_alternative (str matched inner alt : string) :
  String_match str = Some (matched, inner) ->
  occurrences "$" str = O ->
  In alt (String_split inner) ->
  exists before after,
    occurrences "{" inner = O /\ occurrences "}" inner = O /\
    str = before +^ "{" +^ inner +^ "}" +^ after /\
    String_replace str matched alt = before +^ alt +^ after.
Proof.
  intros E Hd Hin.
  destruct (String_match_spec _ _ _ E) as (Hm & H1 & H2 & b & a & Hs).
  destruct (String_replace_occurrence str matched alt (ex_intro _ b (ex_intro _ a Hs)))
    as (before & after & Hs' & ->).
  exists before, after. split_and!; [exact H1|exact H2| |].
  - rewrite Hs', Hm. apply group_shape.
  - rewrite GetSubstitution_plain; [reflexivity|].
    pose proof (String_split_occurrences "$" inner alt Hin) as Ha.
    rewrite Hs', Hm, !occurrences_app in Hd. lia.
Qed.

Lemma fold_left_push {A B : Type} (f : B -> A) (l : list B) (stack : list A) :
  fold_left (fun stack x => f x :: stack) l stack = rev (map f l) ++ stack.
Proof.
  revert stack. induction l as [|x l IH]; intros stack; [reflexivity|].
  cbn [fold_left map rev]. rewrite IH, <- app_assoc. reflexivity.
Qed.

Lemma expand_turns_pos (commas opens : nat) : (1 <= expand_turns commas opens)%nat.
Proof. destruct opens; cbn [expand_turns]; lia. Qed.

Lemma stack_turns_app (commas : nat) (l k : list string) :
  stack_turns commas (l ++ k) = (stack_turns commas l + stack_turns commas k)%nat.
Proof.
  unfold stack_turns. induction l as [|s l IH]; [reflexivity|].
  cbn [app map foldr]. rewrite IH. lia.
Qed.

Lemma stack_turns_rev (commas : nat) (l : list string) :
  stack_turns commas (rev l) = stack_turns commas l.
Proof.
  induction l as [|s l IH]; [reflexivity|].
  cbn [rev]. rewrite stack_turns_app, IH. unfold stack_turns. cbn [map foldr]. lia.
Qed.

Lemma stack_turns_same (commas opens : nat) (l : list string) :
  List.Forall (fun s => occurrences "{" s = opens) l ->
  stack_turns commas l = (length l * expand_turns commas opens)%nat.
Proof.
  induction 1 as [|s l Hs _ IH]; [reflexivity|].
  unfold stack_turns in *. cbn [map foldr length]. rewrite IH, Hs. lia.
Qed.

Lemma expand_loop_terminates (commas fuel : nat) (toExpand appeared : list string) :
  List.Forall (fun s => occurrences "$" s = O /\ (occurrences "," s <= commas)%nat)
    toExpand ->
  (stack_turns commas toExpand < fuel)%nat ->
  exists ys, expand_loop fuel toExpand appeared = Some ys.
Proof.
  revert toExpand appeared.
  induction fuel as [|fuel IH]; intros toExpand appeared Hall Hf; [lia|].
  destruct toExpand as [|str toExpand]; [now exists []|].
  apply List.Forall_cons_iff in Hall as [[Hd Hc] Hall].
  change (stack_turns commas (str :: toExpand))
    with (expand_turns commas (occurrences "{" str) + stack_turns commas toExpand)%nat in Hf.
  pose proof (expand_turns_pos commas (occurrences "{" str)) as Hpos.
  cbn [expand_loop]. destruct (String_match str) as [[matched inner]|] eqn:Em.
  - cbn [fst snd]. rewrite fold_left_push. apply IH.
    + apply List.Forall_app. split; [|exact Hall].
      apply List.Forall_rev, List.Forall_map, List.Forall_forall. intros alt Hin.
      destruct (String_replace_alternative _ _ _ _ Em Hd Hin)
        as (b & a & H1 & H2 & Hs & ->).
      pose proof (String_split_occurrences "$" inner alt Hin).
      pose proof (String_split_occurrences "," inner alt Hin).
      rewrite Hs, !occurrences_app in Hd, Hc. rewrite !occurrences_app. lia.
    + rewrite stack_turns_app, stack_turns_rev.
      destruct (String_match_spec _ _ _ Em) as (_ & H1 & H2 & _).
      assert (Ho : exists opens, occurrences "{" str = S opens /\
                 List.Forall (fun s => occurrences "{" s = opens)
                   (map (String_replace str matched) (String_split inner))).
      { destruct (String_split inner) as [|alt0 alts] eqn:Es;
          [pose proof (String_split_length inner) as L; rewrite Es in L; discriminate|].
        destruct (String_replace_alternative str matched inner alt0 Em Hd)
          as (b0 & a0 & _ & _ & Hs0 & _); [rewrite Es; now left|].
        exists (occurrences "{" b0 + occurrences "{" a0)%nat. split.
        - rewrite Hs0, !occurrences_app, H1. cbn [occurrences].
          destruct (Ascii.eqb_spec "{" "{"); [|contradiction].
          destruct (Ascii.eqb_spec "}" "{"); [discriminate|]. lia.
        - rewrite <- Es. apply List.Forall_map, List.Forall_forall. intros alt Hin.
          destruct (String_replace_alternative _ _ _ _ Em Hd Hin)
            as (b & a & _ & _ & Hs & ->).
          pose proof (String_split_occurrences "{" inner alt Hin) as Ha.
          rewrite Hs0 in Hs. apply (f_equal (occurrences "{")) in Hs.
          rewrite !occurrences_app in Hs. rewrite !occurrences_app. lia. }
      destruct Ho as (opens & Eo & Hsame).
      rewrite (stack_turns_same commas opens _ Hsame), length_map, String_split_length.
      rewrite Eo in Hf. cbn [expand_turns] in Hf.
      assert (Hi : (occurrences "," inner <= commas)%nat).
      { destruct (String_match_spec _ _ _ Em) as (Hm & _ & _ & b & a & Hs).
        rewrite Hs, Hm, !occurrences_app in Hc. lia. }
      assert (Hle : (S (occurrences "," inner) * expand_turns commas opens
                     <= (commas + 1) * expand_turns commas opens)%nat)
        by (apply Nat.mul_le_mono_r; lia).
      lia.
  - destruct (Array_includes appeared str).
    + apply IH; [exact Hall|lia].
    + destruct (IH toExpand (appeared ++ [str]) Hall ltac:(lia)) as [ys ->].
      now exists (str :: ys).
Qed.

(** X21: on a string without a dollar sign [expandBraces] comes to an end:
    with [commas] commas and [opens] opening braces in the string, the loop
    takes at most [expand_turns commas opens] turns. *)
Theorem expandBraces_terminates (fuel : nat) (str : string) :
  occurrences "$" str = O ->
  (expand_turns (occurrences "," str) (occurrences "{" str) < fuel)%nat ->
  exists ys, expandBraces fuel str = Some ys.
Proof.
  intros Hd Hf. apply (expand_loop_terminates (occurrences "," str)).
  - constructor; [split; [exact Hd|lia]|constructor].
  - unfold stack_turns. cbn [map foldr]. lia.
Qed.

Lemma expandBraces_terminates_witness :
  exists ys, expandBraces 14 "x{a,b{c,d}}" = Some ys.
Proof.
  apply expandBraces_terminates; [reflexivity|vm_compute; lia].
Defined.

Lemma expansion_trans (s t u : string) :
  expansion s t -> expansion t u -> expansion s u.
Proof.
  induction 1 as [s|before inner alt after t H1 H2 Hin _ IH]; intros Hu; [exact Hu|].
  exact (expansion_step before inner alt after u H1 H2 Hin (IH Hu)).
Qed.

Lemma expand_loop_sound (root : string) (fuel : nat) (toExpand appeared ys : list string) :
  List.Forall (fun s => occurrences "$" s = O /\ expansion root s) toExpand ->
  expand_loop fuel toExpand appeared = Some ys ->
  List.Forall (expansion root) ys.
Proof.
  revert toExpand appeared ys.
  induction fuel as [|fuel IH]; intros toExpand appeared ys Hall E; [discriminate|].
  cbn [expand_loop] in E. destruct toExpand as [|str toExpand].
  - injection E as <-. constructor.
  - apply List.Forall_cons_iff in Hall as [[Hd He] Hall].
    destruct (String_match str) as [[matched inner]|] eqn:Em.
    + cbn [fst snd] in E. rewrite fold_left_push in E. refine (IH _ _ _ _ E).
      apply List.Forall_app. split; [|exact Hall].
      apply List.Forall_rev, List.Forall_map, List.Forall_forall. intros alt Hin.
      destruct (String_replace_alternative _ _ _ _ Em Hd Hin)
        as (b & a & H1 & H2 & Hs & ->).
      pose proof (String_split_occurrences "$" inner alt Hin). split.
      * rewrite Hs, !occurrences_app in Hd. rewrite !occurrences_app. lia.
      * apply (expansion_trans root str); [exact He|]. rewrite Hs.
        exact (expansion_step b inner alt a _ H1 H2 Hin (expansion_done _)).
    + destruct (Array_includes appeared str).
      * exact (IH _ _ _ Hall E).
      * destruct (expand_loop fuel toExpand (appeared ++ [str])) as [ys'|] eqn:E';
          [|discriminate].
        injection E as <-. constructor; [exact He|exact (IH _ _ _ Hall E')].
Qed.

(** X22: on a string without a dollar sign, whatever [expandBraces] yields
    is an expansion of the string: it comes from it by replacing, one after
    the other, groups of braces by one of their comma-separated
    alternatives. *)
Theorem expandBraces_sound (fuel : nat) (str : string) (ys : list string) :
  occurrences "$" str = O ->
  expandBraces fuel str = Some ys ->
  forall y, In y ys -> expansion str y.
Proof.
  intros Hd E. apply List.Forall_forall.
  apply (expand_loop_sound str fuel [str] [] ys); [|exact E].
  constructor; [split; [exact Hd|apply expansion_done]|constructor].
Qed.

Lemma expandBraces_sound_witness :
  expansion "thumbnail.{png,jp{e,}g}" "thumbnail.jpeg".
Proof.
  apply (expandBraces_sound 20 "thumbnail.{png,jp{e,}g}"
           ["thumbnail.jpg"; "thumbnail.png"; "thumbnail.jpeg"]).
  - reflexivity.
  - vm_compute. reflexivity.
  - right. right. left. reflexivity.
Defined.

(** ** [getZigZagMatrix] *)

Lemma triangle_S (d : nat) : triangle (S d) = (triangle d + S d)%nat.
Proof. reflexivity. Qed.

Lemma triangle_square (d : nat) : (triangle d + triangle (S d) = S d * S d)%nat.
Proof. induction d as [|d IH]; [reflexivity|]. rewrite !triangle_S in *. lia. Qed.

Lemma triangle_mono (d e : nat) : (d <= e)%nat -> (triangle d <= triangle e)%nat.
Proof. induction 1 as [|e _ IH]; [lia|]. rewrite triangle_S. lia. Qed.

Lemma triangle_lt (d e : nat) : (d < e)%nat -> (triangle d + d < triangle e)%nat.
Proof.
  intros H. pose proof (triangle_mono (S d) e H) as M. rewrite triangle_S in M. lia.
Qed.

Lemma zigzag_index_upper (n i j : nat) :
  (i + j < n)%nat ->
  zigzag_index n i j = (triangle (i + j) + (if Nat.even (i + j) then j else i))%nat.
Proof.
  intros H. unfold zigzag_index. cbv zeta.
  destruct (Nat.ltb_spec (i + j) n); [reflexivity|lia].
Qed.

Lemma zigzag_index_lower (n i j : nat) :
  (i < n)%nat -> (j < n)%nat -> (n <= i + j)%nat ->
  (zigzag_index n i j
   + (triangle (2 * (n - 1) - (i + j))
      + (if Nat.even (i + j) then n - 1 - j else n - 1 - i)) + 1 = n * n)%nat.
Proof.
  intros Hi Hj H. unfold zigzag_index. cbv zeta.
  destruct (Nat.ltb_spec (i + j) n); [lia|].
  assert (B : (triangle (2 * (n - 1) - (i + j))
               + (if Nat.even (i + j) then n - 1 - j else n - 1 - i) < n * n)%nat).
  { destruct n as [|[|m]]; [lia|lia|].
    pose proof (triangle_mono (2 * (S (S m) - 1) - (i + j)) m ltac:(lia)).
    pose proof (triangle_square m). pose proof (triangle_S m).
    destruct (Nat.even (i + j)); nia. }
  lia.
Qed.

Lemma triangle_step (e f : nat) : e = S f -> triangle e = (triangle f + e)%nat.
Proof. intros ->. apply triangle_S. Qed.

Lemma zigzag_index_cases (n i j d : nat) (b : bool) :
  (i < n)%nat -> (j < n)%nat -> d = (i + j)%nat -> Nat.even d = b ->
  ((d < n)%nat /\ zigzag_index n i j = (triangle d + (if b then j else i))%nat) \/
  ((n <= d)%nat /\
   (zigzag_index n i j + triangle (2 * (n - 1) - d)
    + (if b then n - 1 - j else n - 1 - i) + 1 = n * n)%nat).
Proof.
  intros Hi Hj -> <-. destruct (Nat.ltb_spec (i + j) n) as [H|H].
  - left. split; [exact H|]. now apply zigzag_index_upper.
  - right. split; [exact H|]. pose proof (zigzag_index_lower n i j Hi Hj H). lia.
Qed.

Lemma even_S_flip (d : nat) (b : bool) : Nat.even d = b -> Nat.even (S d) = negb b.
Proof. intros <-. now rewrite Nat.even_succ, <- Nat.negb_even. Qed.

(** A turn of the loop goes to the next cell of the zigzag path, inside the
    matrix, unless it stands on the last cell. *)
Lemma zigzag_step_index (n i j : nat) :
  (i < n)%nat -> (j < n)%nat -> ~ (i = (n - 1)%nat /\ j = (n - 1)%nat) ->
  (fst (zigzag_step n (i, j)) < n)%nat /\
  (snd (zigzag_step n (i, j)) < n)%nat /\
  zigzag_index n (fst (zigzag_step n (i, j))) (snd (zigzag_step n (i, j)))
  = S (zigzag_index n i j).
Proof.
  intros Hi Hj Hlast. unfold zigzag_step.
  destruct (Nat.even (i + j)) eqn:Ee.
  - destruct (Nat.ltb_spec (j + 1) n) as [Hj1|Hj1].
    + destruct (Nat.ltb_spec 0 i) as [Hi0|Hi0]; cbn [fst snd].
      * split_and!; [lia..|].
        destruct (zigzag_index_cases n i j (i + j) true Hi Hj eq_refl Ee) as [[Hu Eu]|[Hl El]];
          destruct (zigzag_index_cases n (i - 1) (j + 1) (i + j) true
                      ltac:(lia) ltac:(lia) ltac:(lia) Ee) as [[Hu' Eu']|[Hl' El']];
          lia.
      * split_and!; [lia..|]. assert (i = 0%nat) by lia. subst i.
        destruct (zigzag_index_cases n 0 j (0 + j) true Hi Hj eq_refl Ee) as [[Hu Eu]|[Hl El]];
          [|lia].
        destruct (zigzag_index_cases n 0 (j + 1) (S (0 + j)) false
                    ltac:(lia) ltac:(lia) ltac:(lia) (even_S_flip _ _ Ee))
          as [[Hu' Eu']|[Hl' El']]; [|lia].
        rewrite triangle_S in Eu'. lia.
    + destruct (Nat.ltb_spec 0 (i + 2)) as [_|?]; [|lia]. cbn [fst snd].
      split_and!; [lia..|].
      replace (i + 2 - 1)%nat with (S i) by lia.
      destruct (zigzag_index_cases n (S i) j (S (i + j)) false
                  ltac:(lia) ltac:(lia) ltac:(lia) (even_S_flip _ _ Ee))
        as [[Hu' Eu']|[Hl' El']]; [lia|].
      destruct (zigzag_index_cases n i j (i + j) true Hi Hj eq_refl Ee) as [[Hu Eu]|[Hl El]].
      * assert (i = 0%nat) by lia. subst i. destruct n as [|[|m]]; [lia..|].
        assert (j = S m) by lia. subst j.
        replace (2 * (S (S m) - 1) - S (0 + S m))%nat with m in El' by lia.
        replace (0 + S m)%nat with (S m) in Eu by lia.
        pose proof (triangle_square m). rewrite triangle_S in *. lia.
      * pose proof (triangle_step (2 * (n - 1) - (i + j)) (2 * (n - 1) - S (i + j))
                      ltac:(lia)).
        lia.
  - destruct (Nat.ltb_spec (i + 1) n) as [Hi1|Hi1].
    + destruct (Nat.ltb_spec 0 j) as [Hj0|Hj0]; cbn [fst snd].
      * split_and!; [lia..|].
        destruct (zigzag_index_cases n i j (i + j) false Hi Hj eq_refl Ee) as [[Hu Eu]|[Hl El]];
          destruct (zigzag_index_cases n (i + 1) (j - 1) (i + j) false
                      ltac:(lia) ltac:(lia) ltac:(lia) Ee) as [[Hu' Eu']|[Hl' El']];
          lia.
      * split_and!; [lia..|]. assert (j = 0%nat) by lia. subst j.
        destruct (zigzag_index_cases n i 0 (i + 0) false Hi Hj eq_refl Ee) as [[Hu Eu]|[Hl El]];
          [|lia].
        destruct (zigzag_index_cases n (i + 1) 0 (S (i + 0)) true
                    ltac:(lia) ltac:(lia) ltac:(lia) (even_S_flip _ _ Ee))
          as [[Hu' Eu']|[Hl' El']]; [|lia].
        rewrite triangle_S in Eu'. lia.
    + destruct (Nat.ltb_spec 0 (j + 2)) as [_|?]; [|lia]. cbn [fst snd].
      split_and!; [lia..|].
      replace (j + 2 - 1)%nat with (S j) by lia.
      destruct (zigzag_index_cases n i (S j) (S (i + j)) true
                  ltac:(lia) ltac:(lia) ltac:(lia) (even_S_flip _ _ Ee))
        as [[Hu' Eu']|[Hl' El']]; [lia|].
      destruct (zigzag_index_cases n i j (i + j) false Hi Hj eq_refl Ee) as [[Hu Eu]|[Hl El]].
      * assert (j = 0%nat) by lia. subst j. destruct n as [|[|m]]; [lia..|].
        assert (i = S m) by lia. subst i.
        replace (2 * (S (S m) - 1) - S (S m + 0))%nat with m in El' by lia.
        replace (S m + 0)%nat with (S m) in Eu by lia.
        pose proof (triangle_square m). rewrite triangle_S in *. lia.
      * pose proof (triangle_step (2 * (n - 1) - (i + j)) (2 * (n - 1) - S (i + j))
                      ltac:(lia)).
        lia.
Qed.

Lemma zigzag_index_bound (n i j : nat) :
  (i < n)%nat -> (j < n)%nat -> (zigzag_index n i j < n * n)%nat.
Proof.
  intros Hi Hj.
  destruct (zigzag_index_cases n i j (i + j) _ Hi Hj eq_refl eq_refl) as [[Hu Eu]|[Hl El]];
    [|lia].
  destruct n as [|m]; [lia|].
  pose proof (triangle_mono (i + j) m ltac:(lia)).
  pose proof (triangle_square m). rewrite triangle_S in *.
  destruct (Nat.even (i + j)); lia.
Qed.

Lemma zigzag_index_first (n : nat) : (0 < n)%nat -> zigzag_index n 0 0 = 0%nat.
Proof. intros H. now rewrite zigzag_index_upper by lia. Qed.

Lemma zigzag_index_last (n : nat) :
  (0 < n)%nat -> S (zigzag_index n (n - 1) (n - 1)) = (n * n)%nat.
Proof.
  intros H.
  destruct (zigzag_index_cases n (n - 1) (n - 1) (n - 1 + (n - 1)) _
              ltac:(lia) ltac:(lia) eq_refl eq_refl) as [[Hu Eu]|[Hl El]].
  - assert (n = 1%nat) by lia. subst n. reflexivity.
  - replace (2 * (n - 1) - (n - 1 + (n - 1)))%nat with 0%nat in El by lia.
    cbn [triangle] in El. destruct (Nat.even _); lia.
Qed.

(** No two cells have the same place on the path. *)
Lemma zigzag_index_inj (n i j a b : nat) :
  (i < n)%nat -> (j < n)%nat -> (a < n)%nat -> (b < n)%nat ->
  zigzag_index n i j = zigzag_index n a b -> i = a /\ j = b.
Proof.
  intros Hi Hj Ha Hb E.
  assert (Hd : (i + j)%nat = (a + b)%nat ->
               (if Nat.even (i + j) then j else i) = (if Nat.even (a + b) then b else a) ->
               i = a /\ j = b).
  { intros Hs. rewrite <- Hs. destruct (Nat.even (i + j)); lia. }
  assert (Hd' : (i + j)%nat = (a + b)%nat ->
                (if Nat.even (i + j) then n - 1 - j else n - 1 - i)%nat
                = (if Nat.even (a + b) then n - 1 - b else n - 1 - a)%nat ->
                i = a /\ j = b).
  { intros Hs. rewrite <- Hs. destruct (Nat.even (i + j)); lia. }
  destruct (zigzag_index_cases n i j (i + j) _ Hi Hj eq_refl eq_refl) as [[Hu Eu]|[Hl El]];
    destruct (zigzag_index_cases n a b (a + b) _ Ha Hb eq_refl eq_refl) as [[Hu' Eu']|[Hl' El']].
  - destruct (lt_eq_lt_dec (i + j) (a + b)) as [[Hlt|Heq]|Hgt].
    + pose proof (triangle_lt _ _ Hlt).
      destruct (Nat.even (i + j)), (Nat.even (a + b)); lia.
    + apply Hd; [exact Heq|].
      assert (triangle (i + j) = triangle (a + b)) by (now rewrite Heq). lia.
    + pose proof (triangle_lt _ _ Hgt).
      destruct (Nat.even (i + j)), (Nat.even (a + b)); lia.
  - exfalso. destruct n as [|[|m]]; [lia..|].
    pose proof (triangle_mono (i + j) (S m) ltac:(lia)).
    pose proof (triangle_mono (2 * (S (S m) - 1) - (a + b)) m ltac:(lia)).
    pose proof (triangle_square m). rewrite triangle_S in *.
    destruct (Nat.even (i + j)), (Nat.even (a + b)); lia.
  - exfalso. destruct n as [|[|m]]; [lia..|].
    pose proof (triangle_mono (a + b) (S m) ltac:(lia)).
    pose proof (triangle_mono (2 * (S (S m) - 1) - (i + j)) m ltac:(lia)).
    pose proof (triangle_square m). rewrite triangle_S in *.
    destruct (Nat.even (i + j)), (Nat.even (a + b)); lia.
  - destruct (lt_eq_lt_dec (i + j) (a + b)) as [[Hlt|Heq]|Hgt].
    + pose proof (triangle_lt (2 * (n - 1) - (a + b)) (2 * (n - 1) - (i + j)) ltac:(lia)).
      destruct (Nat.even (i + j)), (Nat.even (a + b)); lia.
    + apply Hd'; [exact Heq|].
      assert (triangle (2 * (n - 1) - (i + j)) = triangle (2 * (n - 1) - (a + b)))
        by (now rewrite Heq).
      lia.
    + pose proof (triangle_lt (2 * (n - 1) - (i + j)) (2 * (n - 1) - (a + b)) ltac:(lia)).
      destruct (Nat.even (i + j)), (Nat.even (a + b)); lia.
Qed.

Lemma lookup_map {A B : Type} (f : A -> B) (l : list A) (i : nat) :
  map f l !! i = option_map f (l !! i).
Proof.
  revert i. induction l as [|x l IH]; intros [|i]; try reflexivity. apply IH.
Qed.

Lemma tabulate_length {A : Type} (f : nat -> A) (n : nat) : length (tabulate f n) = n.
Proof. unfold tabulate. now rewrite length_map, length_seq. Qed.

Lemma tabulate_lookup {A : Type} (f : nat -> A) (n i : nat) :
  (i < n)%nat -> tabulate f n !! i = Some (f i).
Proof.
  intros H. unfold tabulate. now rewrite lookup_map, lookup_seq_lt.
Qed.

Lemma tabulate_eq {A : Type} (f : nat -> A) (n : nat) (l : list A) :
  length l = n -> (forall i, (i < n)%nat -> l !! i = Some (f i)) -> l = tabulate f n.
Proof.
  intros Hl H. apply list_eq. intros i. destruct (Nat.lt_ge_cases i n) as [Hi|Hi].
  - now rewrite H, tabulate_lookup.
  - rewrite !(proj2 (lookup_ge_None _ _)); [reflexivity|rewrite tabulate_length; lia|lia].
Qed.

Lemma zigzag_written_start (n : nat) :
  replicate n (replicate n None) = zigzag_written n 0.
Proof.
  apply tabulate_eq; [apply length_replicate|]. intros i Hi.
  rewrite lookup_replicate_2 by exact Hi. f_equal.
  apply tabulate_eq; [apply length_replicate|]. intros j Hj.
  now rewrite lookup_replicate_2.
Qed.

Lemma zigzag_row_length (n value i : nat) : length (zigzag_row n value i) = n.
Proof. apply tabulate_length. Qed.

Lemma zigzag_row_lookup (n value i j : nat) :
  (j < n)%nat ->
  zigzag_row n value i !! j
  = Some (if (zigzag_index n i j <? value)%nat then Some (zigzag_index n i j) else None).
Proof. intros Hj. unfold zigzag_row. now rewrite tabulate_lookup. Qed.

Lemma zigzag_written_end (n : nat) : zigzag_written n (n * n) = zigzag_matrix n.
Proof.
  apply tabulate_eq; [apply tabulate_length|]. intros i Hi.
  unfold zigzag_written. rewrite tabulate_lookup by exact Hi. f_equal.
  apply tabulate_eq; [apply zigzag_row_length|]. intros j Hj.
  rewrite zigzag_row_lookup by exact Hj. pose proof (zigzag_index_bound n i j Hi Hj).
  destruct (Nat.ltb_spec (zigzag_index n i j) (n * n)); [reflexivity|lia].
Qed.

(** Writing the next value at its cell of the path. *)
Lemma matrix_assign_written (n i j : nat) :
  (i < n)%nat -> (j < n)%nat ->
  matrix_assign (zigzag_written n (zigzag_index n i j)) i j (zigzag_index n i j)
  = Some (zigzag_written n (S (zigzag_index n i j))).
Proof.
  intros Hi Hj. remember (zigzag_index n i j) as v eqn:Ev.
  assert (Hcell : forall a b, (a < n)%nat -> (b < n)%nat -> (a, b) <> (i, j) ->
            zigzag_row n v a !! b = zigzag_row n (S v) a !! b).
  { intros a b Ha Hb Hne. rewrite !zigzag_row_lookup by exact Hb.
    assert (zigzag_index n a b <> v).
    { intros E. rewrite Ev in E.
      destruct (zigzag_index_inj n a b i j Ha Hb Hi Hj E). congruence. }
    destruct (Nat.ltb_spec (zigzag_index n a b) v),
      (Nat.ltb_spec (zigzag_index n a b) (S v)); (reflexivity || lia). }
  assert (Hrow : forall a, (a < n)%nat -> zigzag_written n v !! a = Some (zigzag_row n v a)).
  { intros a Ha. unfold zigzag_written. now rewrite tabulate_lookup. }
  unfold matrix_assign. unfold jsnum in *. rewrite (Hrow i Hi). f_equal.
  unfold array_assign. rewrite zigzag_row_length.
  destruct (Nat.ltb_spec j n); [|lia].
  apply tabulate_eq; [unfold zigzag_written; now rewrite length_insert, tabulate_length|].
  intros a Ha. destruct (Nat.eq_dec a i) as [->|Hai].
  - rewrite list_lookup_insert_eq by (unfold zigzag_written; now rewrite tabulate_length).
    f_equal. apply list_eq. intros b. destruct (Nat.lt_ge_cases b n) as [Hb|Hb].
    + destruct (Nat.eq_dec b j) as [->|Hbj].
      * rewrite list_lookup_insert_eq by now rewrite zigzag_row_length.
        rewrite zigzag_row_lookup by exact Hj. rewrite <- Ev.
        destruct (Nat.ltb_spec v (S v)); [reflexivity|lia].
      * rewrite list_lookup_insert_ne by congruence. apply Hcell; [exact Hi|exact Hb|congruence].
    + rewrite !(proj2 (lookup_ge_None _ _));
        [reflexivity|rewrite zigzag_row_length; lia
        |rewrite length_insert, zigzag_row_length; lia].
  - rewrite list_lookup_insert_ne by congruence. rewrite (Hrow a Ha). f_equal.
    apply list_eq. intros b. destruct (Nat.lt_ge_cases b n) as [Hb|Hb].
    + apply Hcell; [exact Ha|exact Hb|congruence].
    + rewrite !(proj2 (lookup_ge_None _ _));
        [reflexivity|rewrite zigzag_row_length; lia|rewrite zigzag_row_length; lia].
Qed.

Lemma zigzag_loop_written (n count value : nat) (ij : nat * nat) :
  (value + count = n * n)%nat ->
  ((0 < count)%nat ->
   (fst ij < n)%nat /\ (snd ij < n)%nat /\ zigzag_index n (fst ij) (snd ij) = value) ->
  zigzag_loop n count value (zigzag_written n value) ij = Some (zigzag_matrix n).
Proof.
  revert value ij. induction count as [|count IH]; intros value [i j] Hv Hij.
  - cbn [zigzag_loop]. replace value with (n * n)%nat by lia.
    now rewrite zigzag_written_end.
  - destruct (Hij ltac:(lia)) as (Hi & Hj & Ev). cbn [fst snd] in *.
    cbn [zigzag_loop fst snd]. rewrite <- Ev at 1 2.
    rewrite (matrix_assign_written n i j Hi Hj), Ev.
    apply IH; [lia|]. intros Hc.
    assert (Hlast : ~ (i = (n - 1)%nat /\ j = (n - 1)%nat)).
    { intros [-> ->]. pose proof (zigzag_index_last n ltac:(lia)). lia. }
    destruct (zigzag_step_index n i j Hi Hj Hlast) as (H1 & H2 & H3).
    split_and!; [exact H1|exact H2|]. now rewrite H3, Ev.
Qed.

Lemma getZigZagMatrix_returns (n : nat) : getZigZagMatrix n = Some (zigzag_matrix n).
Proof.
  unfold getZigZagMatrix. rewrite zigzag_written_start.
  apply zigzag_loop_written; [lia|]. intros Hc. cbn [fst snd].
  assert (0 < n)%nat by (destruct n; [cbn in Hc|]; lia).
  split_and!; [lia|lia|now apply zigzag_index_first].
Qed.

Lemma zigzag_matrix_read (n i j : nat) :
  (i < n)%nat -> (j < n)%nat ->
  matrix_read (zigzag_matrix n) i j = Some (Some (zigzag_index n i j)).
Proof.
  intros Hi Hj. unfold matrix_read, zigzag_matrix.
  rewrite tabulate_lookup by exact Hi. now rewrite tabulate_lookup.
Qed.

Lemma zigzag_matrix_read_inv (n i j : nat) (x : jsnum) :
  matrix_read (zigzag_matrix n) i j = Some x ->
  (i < n)%nat /\ (j < n)%nat /\ x = Some (zigzag_index n i j).
Proof.
  unfold matrix_read. intros E.
  destruct (Nat.lt_ge_cases i n) as [Hi|Hi].
  - unfold zigzag_matrix in E. rewrite tabulate_lookup in E by exact Hi.
    destruct (Nat.lt_ge_cases j n) as [Hj|Hj].
    + rewrite tabulate_lookup in E by exact Hj. split_and!; [exact Hi|exact Hj|congruence].
    + rewrite (proj2 (lookup_ge_None _ _)) in E; [discriminate|].
      rewrite tabulate_length. lia.
  - rewrite (proj2 (lookup_ge_None _ _)) in E; [discriminate|].
    unfold zigzag_matrix. rewrite tabulate_length. lia.
Qed.

(** The path reaches every place below [n * n]. *)
Lemma zigzag_index_onto (n v : nat) :
  (v < n * n)%nat ->
  exists i j, (i < n)%nat /\ (j < n)%nat /\ zigzag_index n i j = v.
Proof.
  induction v as [|v IH]; intros Hv.
  - exists 0%nat, 0%nat. assert (0 < n)%nat by (destruct n; lia).
    split_and!; [lia|lia|now apply zigzag_index_first].
  - destruct (IH ltac:(lia)) as (i & j & Hi & Hj & E).
    assert (Hlast : ~ (i = (n - 1)%nat /\ j = (n - 1)%nat)).
    { intros [-> ->]. pose proof (zigzag_index_last n ltac:(lia)). lia. }
    destruct (zigzag_step_index n i j Hi Hj Hlast) as (H1 & H2 & H3).
    exists (fst (zigzag_step n (i, j))), (snd (zigzag_step n (i, j))).
    split_and!; [exact H1|exact H2|]. now rewrite H3, E.
Qed.

Lemma zigzag_step_adjacent (n i j : nat) :
  let ij := zigzag_step n (i, j) in
  (fst ij <= i + 1)%nat /\ (i <= fst ij + 1)%nat /\
  (snd ij <= j + 1)%nat /\ (j <= snd ij + 1)%nat /\ ij <> (i, j).
Proof.
  unfold zigzag_step. destruct (Nat.even (i + j)).
  - destruct (Nat.ltb_spec (j + 1) n).
    + destruct (Nat.ltb_spec 0 i); cbn [fst snd];
        (split_and!; [lia..|intros [=]; lia]).
    + destruct (Nat.ltb_spec 0 (i + 2)); cbn [fst snd];
        (split_and!; [lia..|intros [=]; lia]).
  - destruct (Nat.ltb_spec (i + 1) n).
    + destruct (Nat.ltb_spec 0 j); cbn [fst snd];
        (split_and!; [lia..|intros [=]; lia]).
    + destruct (Nat.ltb_spec 0 (j + 2)); cbn [fst snd];
        (split_and!; [lia..|intros [=]; lia]).
Qed.

Example getZigZagMatrix_examples :
  getZigZagMatrix 1 = Some [[Some 0]]%nat /\
  getZigZagMatrix 2 = Some [[Some 0; Some 1]; [Some 2; Some 3]]%nat /\
  getZigZagMatrix 3
  = Some [[Some 0; Some 1; Some 5]; [Some 2; Some 4; Some 6];
          [Some 3; Some 7; Some 8]]%nat /\
  getZigZagMatrix 4
  = Some [[Some 0; Some 1; Some 5; Some 6]; [Some 2; Some 4; Some 7; Some 12];
          [Some 3; Some 8; Some 11; Some 13]; [Some 9; Some 10; Some 14; Some 15]]%nat.
Proof. vm_compute. auto. Qed.

(** X23: for a dimension [n] whose square a double counts exactly,
    [getZigZagMatrix] returns the [n] by [n] zigzag matrix: no write falls
    outside it, no hole is left, and the number in row [i] and column [j] is
    the place of that cell on the zigzag path. *)
Theorem getZigZagMatrix_zigzag (n : nat) :
  Z.of_nat n * Z.of_nat n <= 2 ^ 53 ->
  exists matrix,
    getZigZagMatrix n = Some matrix /\
    length matrix = n /\
    (forall row, In row matrix -> length row = n) /\
    forall i j, (i < n)%nat -> (j < n)%nat ->
      matrix_read matrix i j = Some (Some (zigzag_index n i j)).
Proof.
  intros _. exists (zigzag_matrix n). split_and!.
  - apply getZigZagMatrix_returns.
  - apply tabulate_length.
  - intros row Hin. unfold zigzag_matrix, tabulate in Hin.
    apply in_map_iff in Hin as (i & <- & _). apply tabulate_length.
  - apply zigzag_matrix_read.
Qed.

Lemma getZigZagMatrix_zigzag_witness :
  Z.of_nat 4 * Z.of_nat 4 <= 2 ^ 53 /\
  exists matrix,
    getZigZagMatrix 4 = Some matrix /\
    length matrix = 4%nat /\
    matrix_read matrix 1 3 = Some (Some 12%nat).
Proof.
  assert (H : Z.of_nat 4 * Z.of_nat 4 <= 2 ^ 53) by (vm_compute; discriminate).
  split; [exact H|].
  destruct (getZigZagMatrix_zigzag 4 H) as (matrix & E & Hl & _ & Hread).
  exists matrix. split_and!; [exact E|exact Hl|].
  exact (Hread 1%nat 3%nat ltac:(lia) ltac:(lia)).
Defined.

(** X24: the matrix of [getZigZagMatrix] holds every number from 0 to
    [n * n - 1], each one in exactly one cell. *)
Theorem getZigZagMatrix_each_once (n : nat) (matrix : list (list jsnum)) :
  getZigZagMatrix n = Some matrix ->
  (forall v, (v < n * n)%nat -> exists i j, matrix_read matrix i j = Some (Some v)) /\
  (forall i j v, matrix_read matrix i j = Some (Some v) -> (v < n * n)%nat) /\
  (forall i j a b v,
     matrix_read matrix i j = Some (Some v) ->
     matrix_read matrix a b = Some (Some v) -> i = a /\ j = b).
Proof.
  rewrite getZigZagMatrix_returns. intros [= <-]. split_and!.
  - intros v Hv. destruct (zigzag_index_onto n v Hv) as (i & j & Hi & Hj & <-).
    exists i, j. now apply zigzag_matrix_read.
  - intros i j v E. apply zigzag_matrix_read_inv in E as (Hi & Hj & [= ->]).
    now apply zigzag_index_bound.
  - intros i j a b v E E'.
    apply zigzag_matrix_read_inv in E as (Hi & Hj & [= ->]).
    apply zigzag_matrix_read_inv in E' as (Ha & Hb & [= E']).
    now apply (zigzag_index_inj n i j a b).
Qed.

Lemma getZigZagMatrix_each_once_witness :
  getZigZagMatrix 3
  = Some [[Some 0; Some 1; Some 5]; [Some 2; Some 4; Some 6];
          [Some 3; Some 7; Some 8]]%nat /\
  exists i j,
    matrix_read [[Some 0; Some 1; Some 5]; [Some 2; Some 4; Some 6];
                 [Some 3; Some 7; Some 8]]%nat i j = Some (Some 6%nat).
Proof.
  assert (E : getZigZagMatrix 3
              = Some [[Some 0; Some 1; Some 5]; [Some 2; Some 4; Some 6];
                      [Some 3; Some 7; Some 8]]%nat) by (vm_compute; reflexivity).
  split; [exact E|].
  exact (proj1 (getZigZagMatrix_each_once 3 _ E) 6%nat ltac:(lia)).
Defined.

(** X25: the numbers of [getZigZagMatrix] follow a path: the cell of a
    number and the cell of the next number are neighbours, at most one row
    and one column apart. *)
Theorem getZigZagMatrix_path (n : nat) (matrix : list (list jsnum)) (i j a b v : nat) :
  getZigZagMatrix n = Some matrix ->
  matrix_read matrix i j = Some (Some v) ->
  matrix_read matrix a b = Some (Some (S v)) ->
  (a <= i + 1)%nat /\ (i <= a + 1)%nat /\ (b <= j + 1)%nat /\ (j <= b + 1)%nat /\
  (a, b) = zigzag_step n (i, j).
Proof.
  rewrite getZigZagMatrix_returns. intros [= <-] E E'.
  apply zigzag_matrix_read_inv in E as (Hi & Hj & [= ->]).
  apply zigzag_matrix_read_inv in E' as (Ha & Hb & [= E']).
  pose proof (zigzag_index_bound n a b Ha Hb) as Hbound.
  assert (Hlast : ~ (i = (n - 1)%nat /\ j = (n - 1)%nat)).
  { intros [-> ->]. pose proof (zigzag_index_last n ltac:(lia)). lia. }
  destruct (zigzag_step_index n i j Hi Hj Hlast) as (H1 & H2 & H3).
  destruct (zigzag_index_inj n a b _ _ Ha Hb H1 H2 ltac:(congruence)) as [-> ->].
  pose proof (zigzag_step_adjacent n i j) as Hadj. cbv zeta in Hadj.
  destruct Hadj as (A1 & A2 & A3 & A4 & _).
  split_and!; [exact A1|exact A2|exact A3|exact A4|]. now destruct (zigzag_step n (i, j)).
Qed.

Lemma getZigZagMatrix_path_witness :
  getZigZagMatrix 3
  = Some [[Some 0; Some 1; Some 5]; [Some 2; Some 4; Some 6];
          [Some 3; Some 7; Some 8]]%nat /\
  ((2, 1) = zigzag_step 3 (1, 2))%nat.
Proof.
  assert (E : getZigZagMatrix 3
              = Some [[Some 0; Some 1; Some 5]; [Some 2; Some 4; Some 6];
                      [Some 3; Some 7; Some 8]]%nat) by (vm_compute; reflexivity).
  split; [exact E|].
  exact (proj2 (proj2 (proj2 (proj2
    (getZigZagMatrix_path 3 _ 1 2 2 1 6 E eq_refl eq_refl))))).
Defined.

(** ** [createCompassPoints] *)

Lemma below_32 (P : nat -> Prop) :
  (forall k, (k < 32)%nat -> P k) <->
  List.Forall P (seq 0 32).
Proof.
  rewrite List.Forall_forall. split.
  - intros H k Hk. apply in_seq in Hk. apply H. lia.
  - intros H k Hk. apply H, in_seq. lia.
Qed.

Lemma all_distinct_NoDup (l : list string) : all_distinct l = true -> NoDup l.
Proof.
  induction l as [|x l IH]; intros H; [constructor|].
  cbn [all_distinct] in H. apply andb_prop in H as [Hx Hl].
  constructor; [|exact (IH Hl)].
  rewrite list_elem_of_In. apply (Array_includes_false l x).
  now apply negb_true_iff in Hx.
Qed.

(** X26: [createCompassPoints] returns the 32 points of the compass rose,
    clockwise from north: point [k] has the azimuth [k * 11.25], no two
    points share an abbreviation, the cardinal directions stand at the
    positions 0, 8, 16 and 24, and the point 16 places further, on the other
    side of the rose, has the abbreviation with north and south, east and west
    exchanged. *)
Theorem createCompassPoints_rose :
  length createCompassPoints = 32%nat /\
  NoDup (map abbreviation createCompassPoints) /\
  map abbreviation
    (omap (fun k => createCompassPoints !! k) [0; 8; 16; 24]%nat) = sides /\
  forall k, (k < 32)%nat ->
    exists point across,
      createCompassPoints !! k = Some point /\
      createCompassPoints !! ((k + 16) mod 32)%nat = Some across /\
      (azimuth point == inject_Z (Z.of_nat k) * (1125 # 100))%Q /\
      abbreviation across = map_letters opposite_letter (abbreviation point).
Proof.
  split_and!.
  - reflexivity.
  - apply all_distinct_NoDup. vm_compute. reflexivity.
  - reflexivity.
  - apply below_32. repeat (constructor; [eexists _, _; split_and!; reflexivity|]).
    constructor.
Qed.
